(** * The JSON linter's lexer (internal/lexer), embedded and verified

    The development follows [internal/lexer/lexer.go] and the token model
    of the same package.  The lexer is stateful Go code: it owns a
    [bufio.Reader] and a line/column cursor and mutates both on every call.
    It is embedded with explicit state passing in a small state-and-panic
    monad; Go's [(value, error)] returns stay ordinary values, and only
    [panic] leaves the monad.

    Conventions of the embedding:
    - a [rune] is its code point, in [Z];
    - Go's [int] is 64 bits wide: every addition and subtraction on [Line]
      and [Column] goes through [wrap];
    - a Go string is kept as the sequence of its runes.  The reader only
      hands out valid code points ([ReadRune] turns an invalid encoding into
      U+FFFD), and on those [string(runes)] followed by [[]rune(s)] is the
      identity;
    - a [[]Token] is modelled by the sequence of its elements;
    - [unicode.IsLetter] is a table of Go's standard library: it is a
      parameter of the development.  [unicode.IsSpace] is the short
      White_Space table and is written out. *)

From Stdlib Require Import ZArith List String Ascii Bool Lia.
Import ListNotations.
Local Open Scope Z_scope.

(* ------------------------------------------------------------------ *)
(** ** Runes, strings and machine integers *)

Definition rune := Z.

(** The code point of an ASCII character literal. *)
Definition ch (c : ascii) : rune := Z.of_N (N_of_ascii c).

(** The rune sequence of an ASCII string literal. *)
Fixpoint runes (s : string) : list rune :=
  match s with
  | EmptyString => []
  | String c s' => ch c :: runes s'
  end.

Definition dquote : rune := 34.
Definition newline : rune := 10.
Definition tab : rune := 9.

Fixpoint runes_eqb (a b : list rune) : bool :=
  match a, b with
  | [], [] => true
  | x :: a', y :: b' => (x =? y) && runes_eqb a' b'
  | _, _ => false
  end.

(** Go's [int] on a 64-bit platform: two's complement wrap-around. *)
Definition wrap (z : Z) : Z := (z + 2 ^ 63) mod 2 ^ 64 - 2 ^ 63.
Definition int_add (a b : Z) : Z := wrap (a + b).
Definition int_sub (a b : Z) : Z := wrap (a - b).
Definition int_max : Z := 2 ^ 63 - 1.

(** [len] of a slice. *)
Definition len {A} (l : list A) : Z := Z.of_nat (List.length l).

(* ------------------------------------------------------------------ *)
(** ** Errors *)

(** An [error] value.  [io_EOF] is the sentinel compared by identity
    ([err == io.EOF]); every other error is known by its message. *)
Inductive error : Type :=
| io_EOF
| Err (msg : string).

Definition errors_New (msg : string) : error := Err msg.

Definition Error (e : error) : string :=
  match e with
  | io_EOF => "EOF"
  | Err msg => msg
  end.

Definition is_EOF (e : error) : bool :=
  match e with io_EOF => true | Err _ => false end.

Fixpoint strings_Contains (s substr : string) : bool :=
  String.prefix substr s
  || match s with
     | EmptyString => false
     | String _ s' => strings_Contains s' substr
     end.

(* ------------------------------------------------------------------ *)
(** ** The token model *)

Inductive TokenType : Type :=
| ILLEGAL | EOF
| LBRACE | RBRACE | LBRACKET | RBRACKET | COMMA | COLON
| STR | NUM
| TRUE | FALSE | NULL.

Definition TokenType_eqb (a b : TokenType) : bool :=
  match a, b with
  | ILLEGAL, ILLEGAL | EOF, EOF | LBRACE, LBRACE | RBRACE, RBRACE
  | LBRACKET, LBRACKET | RBRACKET, RBRACKET | COMMA, COMMA | COLON, COLON
  | STR, STR | NUM, NUM | TRUE, TRUE | FALSE, FALSE | NULL, NULL => true
  | _, _ => false
  end.

Record TokenPosition : Type := mkTokenPosition {
  Line : Z;
  ColStart : Z;
  ColEnd : Z
}.

Record Token : Type := mkToken {
  TokType : TokenType;
  Lexeme : list rune;
  TokPos : TokenPosition
}.

(* ------------------------------------------------------------------ *)
(** ** The buffered reader

    [buffered] is what is still to be read.  [lastRune] holds the rune that
    [UnreadRune] may give back: it is set by a successful [ReadRune] and
    cleared by everything else.  [srcErr] is what the source reports once
    it is drained: [io_EOF] at the end of a file, another error for a
    failing read; it is reported again on every further read. *)

Record bufio_Reader : Type := mkReader {
  buffered : list rune;
  lastRune : option rune;
  srcErr : error
}.

Definition ErrInvalidUnreadRune : error :=
  Err "bufio: invalid use of UnreadRune".

Definition ReadRune (b : bufio_Reader) : rune * option error * bufio_Reader :=
  match buffered b with
  | r :: rest => (r, None, mkReader rest (Some r) (srcErr b))
  | [] => (0, Some (srcErr b), mkReader [] None (srcErr b))
  end.

Definition UnreadRune (b : bufio_Reader) : option error * bufio_Reader :=
  match lastRune b with
  | Some r => (None, mkReader (r :: buffered b) None (srcErr b))
  | None => (Some ErrInvalidUnreadRune, b)
  end.

(* ------------------------------------------------------------------ *)
(** ** The lexer state and its monad *)

(** [LexerPosition].  Its field [Line] is [PLine] here: the name [Line] is
    taken by the field of [TokenPosition]. *)
Record LexerPosition : Type := mkLexerPosition {
  PLine : Z;
  Column : Z
}.

Record Lexer : Type := mkLexer {
  Reader : bufio_Reader;
  Pos : LexerPosition
}.

Inductive panic_value : Type :=
| PanicError (e : error)
| PanicIndex (index : Z) (size : Z).

(** What a call on a lexer does: it returns a value and leaves the lexer in
    a new state, or it panics.  [OutOfFuel] is an artefact of writing Go's
    [for] loops with a bound; it is shown below never to occur. *)
Inductive outcome (A : Type) : Type :=
| Returns (a : A) (lxr : Lexer)
| Panics (p : panic_value)
| OutOfFuel.
Arguments Returns {A} a lxr.
Arguments Panics {A} p.
Arguments OutOfFuel {A}.

Definition M (A : Type) : Type := Lexer -> outcome A.

Definition ret {A} (a : A) : M A := fun lxr => Returns a lxr.

Definition bind {A B} (c : M A) (k : A -> M B) : M B :=
  fun lxr =>
    match c lxr with
    | Returns a lxr' => k a lxr'
    | Panics p => Panics p
    | OutOfFuel => OutOfFuel
    end.

Definition panic {A} (p : panic_value) : M A := fun _ => Panics p.
Definition out_of_fuel {A} : M A := fun _ => OutOfFuel.
Definition getPos : M LexerPosition := fun lxr => Returns (Pos lxr) lxr.
Definition remaining : M nat := fun lxr => Returns (List.length (buffered (Reader lxr))) lxr.

Declare Scope lexer_scope.
Delimit Scope lexer_scope with lexer.
Notation "x <- c ;; k" := (bind c (fun x => k))
  (at level 61, c at next level, right associativity) : lexer_scope.
Notation "' pat <- c ;; k" := (bind c (fun x => match x with pat => k end))
  (at level 61, pat pattern, c at next level, right associativity) : lexer_scope.
Notation "c ;; k" := (bind c (fun _ => k))
  (at level 61, right associativity) : lexer_scope.
Local Open Scope lexer_scope.

(** [s[i]] on a slice of runes, with Go's bounds check. *)
Definition index_rune (s : list rune) (i : Z) : M rune :=
  if (0 <=? i) && (i <? len s)
  then ret (nth (Z.to_nat i) s 0)
  else panic (PanicIndex i (len s)).

(** [CreateLexer]: line 1, column 0. *)
Definition CreateLexer (reader : bufio_Reader) : Lexer :=
  mkLexer reader (mkLexerPosition 1 0).

(** [resetPosition]: next line, column 0. *)
Definition resetPosition : M unit :=
  fun lxr =>
    Returns tt (mkLexer (Reader lxr)
                        (mkLexerPosition (int_add (PLine (Pos lxr)) 1) 0)).

(** [advanceReader]: read one rune; the column moves only on success. *)
Definition advanceReader : M (rune * option error) :=
  fun lxr =>
    let '(r, err, b) := ReadRune (Reader lxr) in
    match err with
    | Some e => Returns (0, Some e) (mkLexer b (Pos lxr))
    | None =>
        Returns (r, None)
                (mkLexer b (mkLexerPosition (PLine (Pos lxr))
                                            (int_add (Column (Pos lxr)) 1)))
    end.

(** [backupReader]: give the last rune back, unless the column is 0. *)
Definition backupReader : M unit :=
  fun lxr =>
    if 0 <? Column (Pos lxr) then
      let '(err, b) := UnreadRune (Reader lxr) in
      match err with
      | Some e => Panics (PanicError e)
      | None =>
          Returns tt
                  (mkLexer b (mkLexerPosition (PLine (Pos lxr))
                                              (int_sub (Column (Pos lxr)) 1)))
      end
    else Returns tt lxr.

(** [createToken]. *)
Definition createToken (tokType : TokenType) (pos : LexerPosition)
           (lexemeChars : list rune) : Token :=
  let lexemeStr := lexemeChars in
  let visualWidth := len lexemeStr in
  let colEnd := int_sub (int_add (Column pos) visualWidth) 1 in
  let tokenPos := mkTokenPosition (PLine pos) (Column pos) colEnd in
  let token := mkToken tokType lexemeStr tokenPos in
  if TokenType_eqb tokType EOF
  then mkToken tokType (runes "EOF")
               (mkTokenPosition (Line tokenPos) (ColStart tokenPos)
                                (ColStart tokenPos))
  else token.

(** [isNumberMaybe]. *)
Definition isNumberMaybe (r : rune) : bool :=
  ((ch "0" <=? r) && (r <=? ch "9"))
  || (r =? ch "-") || (r =? ch ".") || (r =? ch "e") || (r =? ch "E").

(** [unicode.IsSpace]: Unicode's White_Space property. *)
Definition unicode_IsSpace (r : rune) : bool :=
  ((9 <=? r) && (r <=? 13)) || (r =? 32) || (r =? 133) || (r =? 160)
  || (r =? 5760) || ((8192 <=? r) && (r <=? 8202))
  || (r =? 8232) || (r =? 8233) || (r =? 8239) || (r =? 8287)
  || (r =? 12288).

(* ------------------------------------------------------------------ *)
(** ** The number pattern

    [isValidJSONNumber] compiles a regular expression and matches the run
    against it.  The pattern is anchored at both ends, so [MatchString] is
    a whole-string match; it is run here by Brzozowski derivatives. *)

Inductive regex : Type :=
| Void
| Eps
| Lit (c : rune)
| Range (lo hi : rune)
| Cat (a b : regex)
| Alt (a b : regex)
| Star (a : regex).

Definition Opt (a : regex) : regex := Alt a Eps.
Definition Plus (a : regex) : regex := Cat a (Star a).

Fixpoint nullable (e : regex) : bool :=
  match e with
  | Void => false
  | Eps => true
  | Lit _ => false
  | Range _ _ => false
  | Cat a b => nullable a && nullable b
  | Alt a b => nullable a || nullable b
  | Star _ => true
  end.

Fixpoint deriv (r : rune) (e : regex) : regex :=
  match e with
  | Void => Void
  | Eps => Void
  | Lit c => if r =? c then Eps else Void
  | Range lo hi => if (lo <=? r) && (r <=? hi) then Eps else Void
  | Cat a b =>
      if nullable a
      then Alt (Cat (deriv r a) b) (deriv r b)
      else Cat (deriv r a) b
  | Alt a b => Alt (deriv r a) (deriv r b)
  | Star a => Cat (deriv r a) (Star a)
  end.

Fixpoint MatchString (e : regex) (input : list rune) : bool :=
  match input with
  | [] => nullable e
  | r :: input' => MatchString (deriv r e) input'
  end.

(** [\d] *)
Definition digit : regex := Range (ch "0") (ch "9").

(** The pattern of [isValidJSONNumber], piece by piece: an optional minus
    sign; a single 0, or a digit from 1 to 9 followed by any number of
    digits; optionally a dot and one or more digits; optionally e or E, an
    optional sign and one or more digits. *)
Definition jsonNumberPattern : regex :=
  Cat (Opt (Lit (ch "-")))
 (Cat (Alt (Lit (ch "0")) (Cat (Range (ch "1") (ch "9")) (Star digit)))
 (Cat (Opt (Cat (Lit (ch ".")) (Plus digit)))
      (Opt (Cat (Alt (Lit (ch "e")) (Lit (ch "E")))
           (Cat (Opt (Alt (Lit (ch "+")) (Lit (ch "-"))))
                (Plus digit)))))).

(** [isValidJSONNumber]. *)
Definition isValidJSONNumber (input : list rune) : bool :=
  MatchString jsonNumberPattern input.

(* ------------------------------------------------------------------ *)
(** ** Scanning numbers and strings *)

(** The [for] loop of [readNumber].  [inl num] is the [break]; [inr e] is
    the [return nil, startPos, err] taken on a read error other than EOF. *)
Fixpoint readNumber_loop (fuel : nat) (num : list rune)
  : M (list rune + error) :=
  match fuel with
  | O => out_of_fuel
  | S fuel' =>
      '(r, err) <- advanceReader ;;
      match err with
      | Some e => if is_EOF e then ret (inl num) else ret (inr e)
      | None =>
          if unicode_IsSpace r || negb (isNumberMaybe r)
          then backupReader ;; ret (inl num)
          else readNumber_loop fuel' (num ++ [r])
      end
  end.

(** [readNumber]. *)
Definition readNumber : M (list rune * LexerPosition * option error) :=
  pos <- getPos ;;
  let startPos := mkLexerPosition (PLine pos) (int_add (Column pos) 1) in
  n <- remaining ;;
  res <- readNumber_loop (S n) [] ;;
  match res with
  | inr e => ret ([], startPos, Some e)
  | inl num =>
      if negb (isValidJSONNumber num)
      then ret (num, startPos, Some (errors_New "invalid JSON number"))
      else ret (num, startPos, None)
  end.

(** [handleNumberToken]. *)
Definition handleNumberToken (r : rune) : M Token :=
  backupReader ;;
  '(numRune, startPos, err) <- readNumber ;;
  match err with
  | Some e =>
      if strings_Contains (Error e) "invalid JSON number"
      then ret (createToken ILLEGAL startPos numRune)
      else ret (createToken ILLEGAL startPos [r])
  | None => ret (createToken NUM startPos numRune)
  end.

(** The [for] loop of [readString].  Its test is a short-circuit
    conjunction: [str] is indexed at [len(str)-1] only when [r] is a double
    quote.  The length of a slice lies between 0 and the largest [int], so
    the subtraction cannot wrap. *)
Fixpoint readString_loop (fuel : nat) (str : list rune)
  : M (list rune + error) :=
  match fuel with
  | O => out_of_fuel
  | S fuel' =>
      '(r, err) <- advanceReader ;;
      match err with
      | Some e => if is_EOF e then ret (inl str) else ret (inr e)
      | None =>
          closes <- (if r =? dquote
                     then prev <- index_rune str (len str - 1) ;;
                          ret (negb (prev =? ch "\"))
                     else ret false) ;;
          if closes then ret (inl str)
          else readString_loop fuel' (str ++ [r])
      end
  end.

(** [readString]. *)
Definition readString : M (list rune * LexerPosition * option error) :=
  pos <- getPos ;;
  let startPos := mkLexerPosition (PLine pos) (int_add (Column pos) 1) in
  n <- remaining ;;
  res <- readString_loop (S n) [] ;;
  match res with
  | inr e => ret ([], startPos, Some e)
  | inl str => ret (str, startPos, None)
  end.

(** [handleStringToken]. *)
Definition handleStringToken (r : rune) : M Token :=
  '(strRune, startPos, err) <- readString ;;
  match err with
  | Some _ => ret (createToken ILLEGAL startPos [r])
  | None =>
      if len strRune =? 0
      then ret (createToken ILLEGAL startPos [r])
      else ret (createToken STR startPos strRune)
  end.

(** What a finished call leaves behind, without the lexer state. *)
Inductive result (A : Type) : Type :=
| Value (a : A)
| Panicked (p : panic_value)
| NoFuel.
Arguments Value {A} a.
Arguments Panicked {A} p.
Arguments NoFuel {A}.

Definition result_of {A} (o : outcome A) : result A :=
  match o with
  | Returns a _ => Value a
  | Panics p => Panicked p
  | OutOfFuel => NoFuel
  end.

Definition result_map {A B} (f : A -> B) (r : result A) : result B :=
  match r with
  | Value a => Value (f a)
  | Panicked p => Panicked p
  | NoFuel => NoFuel
  end.

(** A slice value, by what its holder can tell of it: it is nil, or it is
    a slice with elements, possibly none.  [var s []T] is the nil slice,
    [[]T{}] is a slice that is not nil and has no elements. *)
Inductive slice (A : Type) : Type :=
| nil_slice
| slice_of (elems : list A).
Arguments nil_slice {A}.
Arguments slice_of {A} elems.

Definition elements {A} (s : slice A) : list A :=
  match s with
  | nil_slice => []
  | slice_of l => l
  end.

Definition is_nil {A} (s : slice A) : bool :=
  match s with
  | nil_slice => true
  | slice_of _ => false
  end.

(** The built-in [append] with one element: the result is never nil. *)
Definition slice_append {A} (s : slice A) (x : A) : slice A :=
  slice_of (elements s ++ [x]).

(** A file as [os.Open] hands it over: its contents, and what reading
    reports when they are used up. *)
Record File : Type := mkFile {
  contents : list rune;
  readErr : error
}.

(** [os.Open] on the file system the program runs in. *)
Definition FileSystem : Type := string -> File + error.

Definition bufio_NewReader (f : File) : bufio_Reader :=
  mkReader (contents f) None (readErr f).

Section Lexer.

(** [unicode.IsLetter]. *)
Variable unicode_IsLetter : rune -> bool.

(** The [for] loop of [readIdentifier]. *)
Fixpoint readIdentifier_loop (fuel : nat) (ident : list rune)
  : M (list rune + error) :=
  match fuel with
  | O => out_of_fuel
  | S fuel' =>
      '(r, err) <- advanceReader ;;
      match err with
      | Some e => if is_EOF e then ret (inl ident) else ret (inr e)
      | None =>
          if unicode_IsSpace r || negb (unicode_IsLetter r)
          then backupReader ;; ret (inl ident)
          else readIdentifier_loop fuel' (ident ++ [r])
      end
  end.

(** [readIdentifier]. *)
Definition readIdentifier : M (list rune * LexerPosition * option error) :=
  pos <- getPos ;;
  let startPos := mkLexerPosition (PLine pos) (int_add (Column pos) 1) in
  n <- remaining ;;
  res <- readIdentifier_loop (S n) [] ;;
  match res with
  | inr e => ret ([], startPos, Some e)
  | inl ident => ret (ident, startPos, None)
  end.

(** [handleIdentifierToken]. *)
Definition handleIdentifierToken (r : rune) : M Token :=
  backupReader ;;
  '(identRune, startPos, err) <- readIdentifier ;;
  match err with
  | Some _ => ret (createToken ILLEGAL startPos [r])
  | None =>
      if runes_eqb identRune (runes "true")
      then ret (createToken TRUE startPos identRune)
      else if runes_eqb identRune (runes "false")
      then ret (createToken FALSE startPos identRune)
      else if runes_eqb identRune (runes "null")
      then ret (createToken NULL startPos identRune)
      else ret (createToken ILLEGAL startPos identRune)
  end.

(** The [for] loop of [GetNextToken]; the [switch] is written as the chain
    of its cases, in their order. *)
Fixpoint GetNextToken_loop (fuel : nat) : M Token :=
  match fuel with
  | O => out_of_fuel
  | S fuel' =>
      '(r, err) <- advanceReader ;;
      match err with
      | Some e =>
          if is_EOF e
          then pos <- getPos ;; ret (createToken EOF pos [ch "0"])
          else panic (PanicError e)
      | None =>
          if (r =? ch " ") || (r =? tab) then GetNextToken_loop fuel'
          else if r =? ch "0" then
            pos <- getPos ;; ret (createToken EOF pos [r])
          else if r =? newline then
            resetPosition ;; GetNextToken_loop fuel'
          else if r =? ch "{" then
            pos <- getPos ;; ret (createToken LBRACE pos [r])
          else if r =? ch "}" then
            pos <- getPos ;; ret (createToken RBRACE pos [r])
          else if r =? ch "[" then
            pos <- getPos ;; ret (createToken LBRACKET pos [r])
          else if r =? ch "]" then
            pos <- getPos ;; ret (createToken RBRACKET pos [r])
          else if r =? ch "," then
            pos <- getPos ;; ret (createToken COMMA pos [r])
          else if r =? ch ":" then
            pos <- getPos ;; ret (createToken COLON pos [r])
          else if r =? dquote then handleStringToken r
          else if isNumberMaybe r then handleNumberToken r
          else if unicode_IsLetter r then handleIdentifierToken r
          else pos <- getPos ;; ret (createToken ILLEGAL pos [r])
      end
  end.

(** [GetNextToken]. *)
Definition GetNextToken : M Token :=
  n <- remaining ;; GetNextToken_loop (S n).

(** The [for] loop of [Lex]. *)
Fixpoint Lex_loop (fuel : nat) (tokens : slice Token) : M (slice Token) :=
  match fuel with
  | O => out_of_fuel
  | S fuel' =>
      tok <- GetNextToken ;;
      if TokenType_eqb (TokType tok) EOF then ret tokens
      else Lex_loop fuel' (slice_append tokens tok)
  end.

(** [Lex], with the slice it returns: [[]Token{}] when the file cannot be
    opened, and otherwise [tokens], which is declared without a value and
    so is nil until the first [append].  The line printed when the file
    cannot be opened goes to standard output and is not part of what is
    returned. *)
Definition Lex_slice (fs : FileSystem) (filePath : string)
  : result (slice Token) :=
  match fs filePath with
  | inr err => Value (slice_of [])
  | inl file =>
      let reader := bufio_NewReader file in
      let lxr := CreateLexer reader in
      result_of (Lex_loop (S (List.length (buffered (Reader lxr))))
                          nil_slice lxr)
  end.

(** The tokens of the slice [Lex] returns. *)
Definition Lex (fs : FileSystem) (filePath : string) : result (list Token) :=
  result_map elements (Lex_slice fs filePath).

End Lexer.

(* ------------------------------------------------------------------ *)
(** ** Definitions used to state the properties *)

(** [unicode.IsLetter] on Latin-1, where the library decides from its
    property table: the ASCII letters, U+00AA, U+00B5, U+00BA, and U+00C0
    to U+00FF without the two operators U+00D7 and U+00F7.  Above U+00FF
    this instance knows no letters.  It stands in for the library table
    where the lexer is run on a concrete input of Latin-1 runes. *)
Definition IsLetter_Latin1 (r : rune) : bool :=
  ((65 <=? r) && (r <=? 90)) || ((97 <=? r) && (r <=? 122))
  || (r =? 170) || (r =? 181) || (r =? 186)
  || ((192 <=? r) && (r <=? 214)) || ((216 <=? r) && (r <=? 246))
  || ((248 <=? r) && (r <=? 255)).

(** A lexer freshly created on a file with the given contents. *)
Definition lexer_on (input : list rune) (e : error) : Lexer :=
  CreateLexer (bufio_NewReader (mkFile input e)).

(** A file system with one readable file, whatever the path. *)
Definition single_file (input : list rune) : FileSystem :=
  fun _ => inl (mkFile input io_EOF).

(** The two scanning loops that collect a run of one character class are
    the same loop up to the test that stops them. *)
Fixpoint scan_loop (stop : rune -> bool) (fuel : nat) (acc : list rune)
  : M (list rune + error) :=
  match fuel with
  | O => out_of_fuel
  | S fuel' =>
      '(r, err) <- advanceReader ;;
      match err with
      | Some e => if is_EOF e then ret (inl acc) else ret (inr e)
      | None =>
          if stop r then backupReader ;; ret (inl acc)
          else scan_loop stop fuel' (acc ++ [r])
      end
  end.

Definition stop_number (r : rune) : bool :=
  unicode_IsSpace r || negb (isNumberMaybe r).

(** The cursor is within the range in which [int] arithmetic is exact:
    neither the line nor the column can overflow before the input ends. *)
Definition pos_ok (lxr : Lexer) : bool :=
  (0 <=? PLine (Pos lxr)) && (0 <=? Column (Pos lxr))
  && (PLine (Pos lxr) + len (buffered (Reader lxr)) <=? int_max)
  && (Column (Pos lxr) + len (buffered (Reader lxr)) <=? int_max).

(** The runes [GetNextToken] skips between tokens. *)
Definition is_blank (r : rune) : bool :=
  (r =? ch " ") || (r =? tab) || (r =? newline).

(** The next token starts with an empty string literal: after the blanks,
    a double quote directly followed by a double quote. *)
Fixpoint empty_string_ahead (l : list rune) : bool :=
  match l with
  | [] => false
  | r :: rest =>
      if is_blank r then empty_string_ahead rest
      else (r =? dquote)
           && match rest with
              | b :: _ => b =? dquote
              | [] => false
              end
  end.

(** How the cursor moves over a rune read by the loop of [GetNextToken]:
    a newline starts the next line at column 0, any other rune is one
    column further. *)
Definition cursor_step (p : LexerPosition) (r : rune) : LexerPosition :=
  if r =? newline then mkLexerPosition (PLine p + 1) 0
  else mkLexerPosition (PLine p) (Column p + 1).

Definition cursor_after (p : LexerPosition) (l : list rune) : LexerPosition :=
  fold_left cursor_step l p.

(** What is consumed before the first rune of a token's lexeme besides the
    blanks: the opening quote of a string. *)
Definition opening (t : TokenType) : list rune :=
  match t with STR => [dquote] | _ => [] end.

(** The tokens handed out by successive calls of [GetNextToken]. *)
Inductive produces (L : rune -> bool) : Lexer -> list Token -> Lexer -> Prop :=
| produces_nil : forall lxr, produces L lxr [] lxr
| produces_cons : forall lxr tok lxr1 toks lxr2,
    GetNextToken L lxr = Returns tok lxr1 ->
    produces L lxr1 toks lxr2 ->
    produces L lxr (tok :: toks) lxr2.

(** The rule of the specification for the end of a string: a double quote
    closes it when the run of backslashes right before it has even
    length. *)
Fixpoint trailing_backslashes (rev_content : list rune) : nat :=
  match rev_content with
  | r :: rest => if r =? ch "\" then S (trailing_backslashes rest) else O
  | [] => O
  end.

Definition closes_by_parity (content : list rune) : bool :=
  Nat.even (trailing_backslashes (rev content)).

(** The test that ends the loop of [readIdentifier]. *)
Definition stop_letter (unicode_IsLetter : rune -> bool) (r : rune) : bool :=
  unicode_IsSpace r || negb (unicode_IsLetter r).

(** The token [handleIdentifierToken] builds from a collected run. *)
Definition identifier_token (startPos : LexerPosition) (identRune : list rune)
  : Token :=
  if runes_eqb identRune (runes "true")
  then createToken TRUE startPos identRune
  else if runes_eqb identRune (runes "false")
  then createToken FALSE startPos identRune
  else if runes_eqb identRune (runes "null")
  then createToken NULL startPos identRune
  else createToken ILLEGAL startPos identRune.

(** What a handler that backs up and collects a run leaves behind.  The
    handler is entered right after [r] was read; [col] is the column the
    cursor had before that read. *)
Definition run_handled (r : rune) (rest : list rune) (e : error)
           (line col : Z) (tok : Token) (lxr' : Lexer) : Prop :=
  TokType tok <> EOF /\ opening (TokType tok) = [] /\
  (List.length (buffered (Reader lxr')) <= List.length (r :: rest))%nat /\
  srcErr (Reader lxr') = e /\
  (pos_ok (mkLexer (mkReader (r :: rest) None e) (mkLexerPosition line col)) = true ->
   pos_ok lxr' = true /\
   (2 <= len (Lexeme tok) ->
    exists post,
      r :: rest = Lexeme tok ++ post /\
      Line (TokPos tok) = line /\
      ColStart (TokPos tok) = col + 1 /\
      ColEnd (TokPos tok) = ColStart (TokPos tok) + len (Lexeme tok) - 1)).

(** No letter is a space: the letter categories and the White_Space
    property of Unicode are disjoint. *)
Definition letters_not_space (unicode_IsLetter : rune -> bool) : Prop :=
  forall r, unicode_IsLetter r = true -> unicode_IsSpace r = false.

(** The token [tok], handed out for the input [input] with the cursor at
    [pos0], carries the position of the first rune of its lexeme: the input
    is blanks, then the opening quote if the token is a string, then the
    lexeme; the token's line is the cursor's line after the blanks and the
    quote, its first column is one further than the cursor's column there
    (where [advanceReader] puts the cursor when it reads the first rune of
    the lexeme), and its last column lies the width of the lexeme minus one
    further. *)
Definition starts_at_first_rune (pos0 : LexerPosition) (input : list rune)
           (tok : Token) : Prop :=
  exists blanks post,
    forallb is_blank blanks = true /\
    input = blanks ++ opening (TokType tok) ++ Lexeme tok ++ post /\
    let p := cursor_after pos0 (blanks ++ opening (TokType tok)) in
    Line (TokPos tok) = PLine p /\
    ColStart (TokPos tok) = Column p + 1 /\
    ColEnd (TokPos tok) = ColStart (TokPos tok) + len (Lexeme tok) - 1.

(** What one turn of [GetNextToken] on the lexer [lxr] comes to. *)
Definition next_token_post (unicode_IsLetter : rune -> bool) (lxr : Lexer)
           (o : outcome Token) : Prop :=
  match o with
  | Returns tok lxr' =>
      srcErr (Reader lxr') = srcErr (Reader lxr) /\
      (List.length (buffered (Reader lxr'))
       <= List.length (buffered (Reader lxr)))%nat /\
      (letters_not_space unicode_IsLetter -> TokType tok <> EOF ->
       (List.length (buffered (Reader lxr'))
        < List.length (buffered (Reader lxr)))%nat) /\
      (pos_ok lxr = true ->
       pos_ok lxr' = true /\
       (TokType tok <> EOF -> 2 <= len (Lexeme tok) ->
        starts_at_first_rune (Pos lxr) (buffered (Reader lxr)) tok))
  | Panics (PanicError e) =>
      e = srcErr (Reader lxr) /\ is_EOF e = false /\
      forallb is_blank (buffered (Reader lxr)) = true
  | Panics (PanicIndex i n) =>
      i = -1 /\ n = 0 /\ empty_string_ahead (buffered (Reader lxr)) = true
  | OutOfFuel => False
  end.

(* ------------------------------------------------------------------ *)
(** ** Definitions used to state further properties of the code *)

(** The runes the [switch] of [GetNextToken] has a case of its own for,
    besides the blanks. *)
Definition is_special (r : rune) : bool :=
  (r =? ch "0") || (r =? ch "{") || (r =? ch "}") || (r =? ch "[")
  || (r =? ch "]") || (r =? ch ",") || (r =? ch ":") || (r =? dquote).

(** What is true of the letters of Unicode and is used of the letter
    table: a letter is no space and is none of the runes [GetNextToken]
    treats itself. *)
Definition plain_letters (unicode_IsLetter : rune -> bool) : Prop :=
  forall r, unicode_IsLetter r = true ->
            unicode_IsSpace r = false /\ is_special r = false.

(** Where a collected run ends: at the end of the input, or before a rune
    that stops the loop. *)
Definition run_ends (stop : rune -> bool) (post : list rune) (e : error)
  : bool :=
  match post with
  | [] => is_EOF e
  | c :: _ => stop c
  end.

(** The type [handleNumberToken] gives a collected run. *)
Definition number_type (run : list rune) : TokenType :=
  if isValidJSONNumber run then NUM else ILLEGAL.

(** The type [handleIdentifierToken] gives a collected run. *)
Definition keyword_type (run : list rune) : TokenType :=
  if runes_eqb run (runes "true") then TRUE
  else if runes_eqb run (runes "false") then FALSE
  else if runes_eqb run (runes "null") then NULL
  else ILLEGAL.

(** Every double quote of the text comes right after a backslash; [prev]
    is the rune before the text. *)
Fixpoint quotes_escaped (prev : rune) (l : list rune) : bool :=
  match l with
  | [] => true
  | r :: l' =>
      (negb (r =? dquote) || (prev =? ch "\")) && quotes_escaped r l'
  end.

(** The last rune of a text is a backslash. *)
Definition ends_with_backslash (l : list rune) : bool :=
  last l 0 =? ch "\".

(** The lexeme a token of each type carries: structural tokens their one
    character, the three literals their word, EOF the text EOF with equal
    first and last column, a number a text the number pattern matches, a
    string a text that is not empty and in which every double quote comes
    right after a backslash.  Nothing is said of ILLEGAL. *)
Definition lexeme_fits (tok : Token) : bool :=
  match TokType tok with
  | ILLEGAL => true
  | EOF => runes_eqb (Lexeme tok) (runes "EOF")
           && (ColStart (TokPos tok) =? ColEnd (TokPos tok))
  | LBRACE => runes_eqb (Lexeme tok) (runes "{")
  | RBRACE => runes_eqb (Lexeme tok) (runes "}")
  | LBRACKET => runes_eqb (Lexeme tok) (runes "[")
  | RBRACKET => runes_eqb (Lexeme tok) (runes "]")
  | COMMA => runes_eqb (Lexeme tok) (runes ",")
  | COLON => runes_eqb (Lexeme tok) (runes ":")
  | STR => negb (len (Lexeme tok) =? 0) && quotes_escaped dquote (Lexeme tok)
  | NUM => isValidJSONNumber (Lexeme tok)
  | TRUE => runes_eqb (Lexeme tok) (runes "true")
  | FALSE => runes_eqb (Lexeme tok) (runes "false")
  | NULL => runes_eqb (Lexeme tok) (runes "null")
  end.

(** The texts a pattern matches as a whole. *)
Inductive matches : regex -> list rune -> Prop :=
| matches_Eps : matches Eps []
| matches_Lit : forall c, matches (Lit c) [c]
| matches_Range : forall lo hi r, lo <= r <= hi -> matches (Range lo hi) [r]
| matches_Cat : forall a b s1 s2,
    matches a s1 -> matches b s2 -> matches (Cat a b) (s1 ++ s2)
| matches_Alt_l : forall a b s, matches a s -> matches (Alt a b) s
| matches_Alt_r : forall a b s, matches b s -> matches (Alt a b) s
| matches_Star_nil : forall a, matches (Star a) []
| matches_Star_app : forall a s1 s2,
    matches a s1 -> matches (Star a) s2 -> matches (Star a) (s1 ++ s2).

(** The grammar of a JSON number, part by part. *)
Definition digits (ds : list rune) : Prop :=
  Forall (fun r => ch "0" <= r <= ch "9") ds.

Definition sign_part (s : list rune) : Prop :=
  s = [] \/ s = [ch "-"].

Definition int_part (s : list rune) : Prop :=
  s = [ch "0"]
  \/ exists d ds, s = d :: ds /\ ch "1" <= d <= ch "9" /\ digits ds.

Definition frac_part (s : list rune) : Prop :=
  s = [] \/ exists ds, s = ch "." :: ds /\ ds <> [] /\ digits ds.

Definition exp_part (s : list rune) : Prop :=
  s = []
  \/ exists m sg ds,
       s = m :: sg ++ ds /\ (m = ch "e" \/ m = ch "E") /\
       (sg = [] \/ sg = [ch "+"] \/ sg = [ch "-"]) /\
       ds <> [] /\ digits ds.

Definition json_number (s : list rune) : Prop :=
  exists sg i f x,
    s = sg ++ i ++ f ++ x /\
    sign_part sg /\ int_part i /\ frac_part f /\ exp_part x.

(* ------------------------------------------------------------------ *)
(** ** The rest of the lexer: [peekForward] *)

(** The first [for] loop of [peekForward]: [n] reads, keeping the last
    rune read; a failing read ends the call. *)
Fixpoint peekForward_read (n : nat) (runePeeked : rune) (b : bufio_Reader)
  : (rune + error) * bufio_Reader :=
  match n with
  | O => (inl runePeeked, b)
  | S n' =>
      let '(r, err, b') := ReadRune b in
      match err with
      | Some e => (inr e, b')
      | None => peekForward_read n' r b'
      end
  end.

(** The second [for] loop of [peekForward]: [n] times [UnreadRune]. *)
Fixpoint peekForward_unread (n : nat) (b : bufio_Reader)
  : option error * bufio_Reader :=
  match n with
  | O => (None, b)
  | S n' =>
      let '(err, b') := UnreadRune b in
      match err with
      | Some e => (Some e, b')
      | None => peekForward_unread n' b'
      end
  end.

(** [peekForward].  [steps] is the variadic argument; the loops count from
    0 up to [numSteps], that is [numSteps] times, and not at all when
    [numSteps] is not positive.  The position is saved and put back on
    every failure; the reader is not. *)
Definition peekForward (steps : list Z) : M (rune * option error) :=
  fun lxr =>
    let numSteps := match steps with [] => 1 | s :: _ => s end in
    let savePos := Pos lxr in
    match peekForward_read (Z.to_nat numSteps) 0 (Reader lxr) with
    | (inr err, b) => Returns (0, Some err) (mkLexer b savePos)
    | (inl runePeeked, b) =>
        match peekForward_unread (Z.to_nat numSteps) b with
        | (Some err, b') => Returns (0, Some err) (mkLexer b' savePos)
        | (None, b') => Returns (runePeeked, None) (mkLexer b' (Pos lxr))
        end
    end.

(* ------------------------------------------------------------------ *)
(** ** The test of the package: [TestGetNextToken] *)

(** What [t.Errorf] reports. *)
Inductive test_failure : Type :=
| WrongTokenType (expected actual : TokenType)
| WrongLexeme (expected actual : list rune)
| WrongPosition (expected actual : TokenPosition)
| ExpectedEOF (got : TokenType).

Definition TokenPosition_differs (a b : TokenPosition) : bool :=
  negb (Line a =? Line b) || negb (ColStart a =? ColStart b)
  || negb (ColEnd a =? ColEnd b).

(** [assertTokenEquality]: the three comparisons, each reporting on its
    own. *)
Definition assertTokenEquality (expected actual : Token) : list test_failure :=
  (if negb (TokenType_eqb (TokType expected) (TokType actual))
   then [WrongTokenType (TokType expected) (TokType actual)] else [])
  ++ (if negb (runes_eqb (Lexeme expected) (Lexeme actual))
      then [WrongLexeme (Lexeme expected) (Lexeme actual)] else [])
  ++ (if TokenPosition_differs (TokPos expected) (TokPos actual)
      then [WrongPosition (TokPos expected) (TokPos actual)] else []).

Record testCase : Type := mkTestCase {
  input : list rune;
  expectedTokens : list Token
}.

Definition tk (t : TokenType) (lexeme : list rune) (line c1 c2 : Z) : Token :=
  mkToken t lexeme (mkTokenPosition line c1 c2).

(** The table of test cases, in the order of the source. *)
Definition testCases : list testCase :=
  [ mkTestCase (runes "{}")
      [ tk LBRACE (runes "{") 1 1 1; tk RBRACE (runes "}") 1 2 2 ];
    mkTestCase [] [];
    mkTestCase (runes "[]")
      [ tk LBRACKET (runes "[") 1 1 1; tk RBRACKET (runes "]") 1 2 2 ];
    mkTestCase (runes "[" ++ dquote :: runes "hello" ++ dquote :: runes "]")
      [ tk LBRACKET (runes "[") 1 1 1; tk STR (runes "hello") 1 3 7;
        tk RBRACKET (runes "]") 1 9 9 ];
    mkTestCase (dquote :: runes "a" ++ dquote :: runes ", "
                ++ dquote :: runes "bc" ++ dquote :: runes ", "
                ++ dquote :: runes "def" ++ dquote :: runes ","
                ++ dquote :: runes "ghij" ++ dquote :: runes " whaat "
                ++ [dquote])
      [ tk STR (runes "a") 1 2 2; tk COMMA (runes ",") 1 4 4;
        tk STR (runes "bc") 1 7 8; tk COMMA (runes ",") 1 10 10;
        tk STR (runes "def") 1 13 15; tk COMMA (runes ",") 1 17 17;
        tk STR (runes "ghij") 1 19 22; tk ILLEGAL (runes "whaat") 1 25 29;
        tk ILLEGAL [dquote] 1 32 32 ];
    mkTestCase (runes "invalid true false null")
      [ tk ILLEGAL (runes "invalid") 1 1 7; tk TRUE (runes "true") 1 9 12;
        tk FALSE (runes "false") 1 14 18; tk NULL (runes "null") 1 20 23 ];
    mkTestCase
      (runes "123 1.23 -1.23 1.23e10 -1.23e10 1.23e-10 -1.23e-10 1.23E10 -1.23E10 1.23E-10 -1.23E-10 e10 e-10 E10 E-10 -1.2.3 --1.2.3")
      [ tk NUM (runes "123") 1 1 3; tk NUM (runes "1.23") 1 5 8;
        tk NUM (runes "-1.23") 1 10 14; tk NUM (runes "1.23e10") 1 16 22;
        tk NUM (runes "-1.23e10") 1 24 31; tk NUM (runes "1.23e-10") 1 33 40;
        tk NUM (runes "-1.23e-10") 1 42 50; tk NUM (runes "1.23E10") 1 52 58;
        tk NUM (runes "-1.23E10") 1 60 67; tk NUM (runes "1.23E-10") 1 69 76;
        tk NUM (runes "-1.23E-10") 1 78 86; tk ILLEGAL (runes "e10") 1 88 90;
        tk ILLEGAL (runes "e-10") 1 92 95; tk ILLEGAL (runes "E10") 1 97 99;
        tk ILLEGAL (runes "E-10") 1 101 104;
        tk ILLEGAL (runes "-1.2.3") 1 106 111;
        tk ILLEGAL (runes "--1.2.3") 1 113 119 ] ].

(** The body of one subtest: one call of [GetNextToken] for each expected
    token, then one more call that has to return EOF. *)
Fixpoint check_tokens (L : rune -> bool) (expected : list Token)
  : M (list test_failure) :=
  match expected with
  | [] =>
      actualToken <- GetNextToken L ;;
      if negb (TokenType_eqb (TokType actualToken) EOF)
      then ret [ExpectedEOF (TokType actualToken)]
      else ret []
  | expectedToken :: more =>
      actualToken <- GetNextToken L ;;
      failures <- check_tokens L more ;;
      ret (assertTokenEquality expectedToken actualToken ++ failures)
  end.

(** A subtest: a lexer on a reader of the input string, which ends with
    [io.EOF]. *)
Definition run_testCase (L : rune -> bool) (tc : testCase)
  : result (list test_failure) :=
  result_of (check_tokens L (expectedTokens tc)
                          (CreateLexer (mkReader (input tc) None io_EOF))).

(** [TestGetNextToken]: the subtests one after the other; a panic in one
    ends the run. *)
Fixpoint run_testCases (L : rune -> bool) (tcs : list testCase)
  : result (list test_failure) :=
  match tcs with
  | [] => Value []
  | tc :: more =>
      match run_testCase L tc with
      | Value failures =>
          match run_testCases L more with
          | Value failures' => Value (failures ++ failures')
          | other => other
          end
      | other => other
      end
  end.

Definition TestGetNextToken (L : rune -> bool) : result (list test_failure) :=
  run_testCases L testCases.

(* ------------------------------------------------------------------ *)
(** ** What a call keeps true of the lexer *)

(** The lexer [lxr] reads the text [orig]: what it has left to read is the
    end of [orig], and the rune its reader could give back is the rune of
    [orig] just before that. *)
Definition reads_from (orig : list rune) (lxr : Lexer) : Prop :=
  exists pre,
    orig = pre ++ buffered (Reader lxr) /\
    match lastRune (Reader lxr) with
    | Some r => exists pre', pre = pre' ++ [r]
    | None => True
    end.

(** The call [c] keeps the property [I] of the lexer. *)
Definition preserves {A : Type} (I : Lexer -> Prop) (c : M A) : Prop :=
  forall lxr a lxr', I lxr -> c lxr = Returns a lxr' -> I lxr'.

(** The column is in range with room for one column more than the input
    has runes. *)
Definition pos_slack (lxr : Lexer) : bool :=
  (0 <=? Column (Pos lxr))
  && (Column (Pos lxr) + len (buffered (Reader lxr)) <? int_max).

(** Where a token lies between the cursor before the call that returned it
    and the cursor after it: not before the first, and, unless the call
    used up the input, not after the second. *)
Definition placed (lxr : Lexer) (tok : Token) (lxr' : Lexer) : Prop :=
  PLine (Pos lxr) <= Line (TokPos tok) /\
  (PLine (Pos lxr) = Line (TokPos tok) ->
   Column (Pos lxr) < ColStart (TokPos tok)) /\
  ((Line (TokPos tok) = PLine (Pos lxr') /\
    ColEnd (TokPos tok) <= Column (Pos lxr'))
   \/ buffered (Reader lxr') = []).

(* ------------------------------------------------------------------ *)
(** ** Machine integers *)

Lemma wrap_small (z : Z) : - 2 ^ 63 <= z <= int_max -> wrap z = z.
Proof.
  unfold wrap, int_max. intros H.
  rewrite Z.mod_small by lia. lia.
Qed.

Lemma wrap_wrap_add (a b : Z) : wrap (wrap a + b) = wrap (a + b).
Proof.
  unfold wrap.
  replace ((a + 2 ^ 63) mod 2 ^ 64 - 2 ^ 63 + b + 2 ^ 63)
    with ((a + 2 ^ 63) mod 2 ^ 64 + b) by lia.
  rewrite Zplus_mod_idemp_l.
  do 2 f_equal. lia.
Qed.

Lemma int_sub_int_add (a b c : Z) :
  int_sub (int_add a b) c = wrap (a + b - c).
Proof.
  unfold int_sub, int_add.
  replace (wrap (a + b) - c) with (wrap (a + b) + - c) by lia.
  rewrite wrap_wrap_add. f_equal; lia.
Qed.

Lemma len_app {A} (l1 l2 : list A) : len (l1 ++ l2) = len l1 + len l2.
Proof. unfold len. rewrite length_app. lia. Qed.

Lemma len_cons {A} (a : A) (l : list A) : len (a :: l) = 1 + len l.
Proof. unfold len. simpl List.length. lia. Qed.

Lemma len_nonneg {A} (l : list A) : 0 <= len l.
Proof. unfold len. lia. Qed.

Lemma pos_ok_iff (lxr : Lexer) :
  pos_ok lxr = true <->
  0 <= PLine (Pos lxr) /\ 0 <= Column (Pos lxr) /\
  PLine (Pos lxr) + len (buffered (Reader lxr)) <= int_max /\
  Column (Pos lxr) + len (buffered (Reader lxr)) <= int_max.
Proof.
  unfold pos_ok. rewrite !andb_true_iff, !Z.leb_le. tauto.
Qed.

#[global] Opaque wrap.
#[global] Arguments ch : simpl never.
#[global] Arguments createToken : simpl never.
#[global] Arguments isNumberMaybe : simpl never.
#[global] Arguments unicode_IsSpace : simpl never.
#[global] Arguments isValidJSONNumber : simpl never.
#[global] Arguments strings_Contains : simpl never.
#[global] Arguments int_add : simpl never.
#[global] Arguments int_sub : simpl never.

(* ------------------------------------------------------------------ *)
(** ** The cursor primitives *)

Lemma advanceReader_nil last e p :
  advanceReader (mkLexer (mkReader [] last e) p)
  = Returns (0, Some e) (mkLexer (mkReader [] None e) p).
Proof. reflexivity. Qed.

Lemma advanceReader_cons r rest last e line col :
  advanceReader (mkLexer (mkReader (r :: rest) last e) (mkLexerPosition line col))
  = Returns (r, None)
            (mkLexer (mkReader rest (Some r) e)
                     (mkLexerPosition line (int_add col 1))).
Proof. reflexivity. Qed.

(** Right after a successful read, backing up cannot fail. *)
Lemma backupReader_after_read r rest e line col :
  backupReader (mkLexer (mkReader rest (Some r) e) (mkLexerPosition line col))
  = if 0 <? col
    then Returns tt (mkLexer (mkReader (r :: rest) None e)
                             (mkLexerPosition line (int_sub col 1)))
    else Returns tt (mkLexer (mkReader rest (Some r) e)
                             (mkLexerPosition line col)).
Proof. unfold backupReader. simpl. destruct (0 <? col); reflexivity. Qed.

Lemma int_add_exact (a b : Z) :
  - 2 ^ 63 <= a + b <= int_max -> int_add a b = a + b.
Proof. intros H. unfold int_add. apply wrap_small, H. Qed.

Lemma int_sub_add_1 (c : Z) :
  - 2 ^ 63 <= c <= int_max -> int_sub (int_add c 1) 1 = c.
Proof.
  intros H. rewrite int_sub_int_add.
  replace (c + 1 - 1) with c by lia. apply wrap_small, H.
Qed.

Lemma pos_ok_advance r rest last last' e line col :
  pos_ok (mkLexer (mkReader (r :: rest) last e) (mkLexerPosition line col)) = true ->
  int_add col 1 = col + 1 /\
  pos_ok (mkLexer (mkReader rest last' e)
                  (mkLexerPosition line (int_add col 1))) = true.
Proof.
  intros H. apply pos_ok_iff in H. simpl in H. rewrite len_cons in H.
  pose proof (len_nonneg rest).
  assert (E : int_add col 1 = col + 1)
    by (apply int_add_exact; unfold int_max in *; lia).
  split; [exact E|]. apply pos_ok_iff. simpl. rewrite E. lia.
Qed.

(* ------------------------------------------------------------------ *)
(** ** The scanning loops *)

Lemma readNumber_loop_scan :
  forall fuel num lxr,
    readNumber_loop fuel num lxr = scan_loop stop_number fuel num lxr.
Proof.
  induction fuel as [|fuel IH]; intros num lxr; [reflexivity|].
  simpl. unfold bind. destruct (advanceReader lxr) as [[r [e|]] lxr1| |];
    try reflexivity.
  unfold stop_number. destruct (unicode_IsSpace r || negb (isNumberMaybe r));
    [reflexivity|apply IH].
Qed.

(** A collecting loop always returns.  It hands back the longest run of
    runes that do not stop it, leaves the rune that stopped it unread, and
    keeps the cursor in range. *)
Lemma scan_loop_spec (stop : rune -> bool) :
  forall fuel acc lxr,
    (List.length (buffered (Reader lxr)) < fuel)%nat ->
    exists res lxr' run post,
      scan_loop stop fuel acc lxr = Returns res lxr' /\
      buffered (Reader lxr) = run ++ post /\
      (res = inl (acc ++ run) \/ exists e, res = inr e /\ is_EOF e = false) /\
      (List.length (buffered (Reader lxr')) <= List.length post)%nat /\
      match post with [] => True | r :: _ => stop r = true end /\
      srcErr (Reader lxr') = srcErr (Reader lxr) /\
      (pos_ok lxr = true -> pos_ok lxr' = true).
Proof.
  induction fuel as [|fuel IH]; intros acc [[l last e] [line col]] Hf;
    simpl in Hf; [lia|].
  destruct l as [|r rest].
  - exists (if is_EOF e then inl acc else inr e),
           (mkLexer (mkReader [] None e) (mkLexerPosition line col)), [], [].
    simpl scan_loop. unfold bind. rewrite advanceReader_nil.
    destruct (is_EOF e) eqn:He; simpl;
      (split; [reflexivity|]); (split; [reflexivity|]);
      (split; [|repeat split; auto]).
    + left. now rewrite app_nil_r.
    + right. exists e. auto.
  - simpl scan_loop. unfold bind. rewrite advanceReader_cons.
    destruct (stop r) eqn:Hs.
    + rewrite backupReader_after_read.
      destruct (0 <? int_add col 1) eqn:Hc.
      * eexists (inl acc), _, [], (r :: rest).
        split; [reflexivity|]. rewrite app_nil_r. simpl.
        repeat split; auto.
        intros Hok. destruct (pos_ok_advance _ _ _ None _ _ _ Hok) as [E _].
        apply pos_ok_iff in Hok. simpl in Hok.
        rewrite int_sub_add_1 by (unfold int_max in *; pose proof (len_nonneg (r :: rest)); lia).
        apply pos_ok_iff. simpl. exact Hok.
      * eexists (inl acc), _, [], (r :: rest).
        split; [reflexivity|]. rewrite app_nil_r. simpl.
        repeat split; auto.
        intros Hok. destruct (pos_ok_advance _ _ _ None _ _ _ Hok) as [E _].
        apply pos_ok_iff in Hok. simpl in Hok.
        apply Z.ltb_ge in Hc. lia.
    + destruct (IH (acc ++ [r])
                   (mkLexer (mkReader rest (Some r) e)
                            (mkLexerPosition line (int_add col 1))))
        as (res & lxr' & run & post & Hrun & Hbuf & Hres & Hlen & Hpost & Herr & Hok').
      { simpl in *. lia. }
      exists res, lxr', (r :: run), post.
      split; [exact Hrun|]. simpl in Hbuf, Herr |- *.
      split; [now rewrite Hbuf|].
      split.
      { destruct Hres as [-> | Hres]; [left | right; exact Hres].
        now rewrite <- app_assoc. }
      repeat split; auto.
      intros Hok. apply Hok'.
      apply (pos_ok_advance _ _ _ (Some r)) in Hok. apply Hok.
Qed.

Lemma index_rune_last (acc : list rune) (r : rune) (lxr : Lexer) :
  index_rune (acc ++ [r]) (len (acc ++ [r]) - 1) lxr = Returns r lxr.
Proof.
  unfold index_rune. rewrite len_app, len_cons.
  pose proof (len_nonneg acc) as Hn. change (len (@nil rune)) with 0.
  replace ((0 <=? len acc + (1 + 0) - 1) && (len acc + (1 + 0) - 1 <? len acc + (1 + 0)))
    with true
    by (symmetry; apply andb_true_iff; split;
        [apply Z.leb_le | apply Z.ltb_lt]; lia).
  replace (len acc + (1 + 0) - 1) with (len acc) by lia.
  unfold len. rewrite Nat2Z.id, nth_middle. reflexivity.
Qed.

(** The loop of [readString] returns, except in one situation: it meets a
    double quote while nothing has been collected, and indexes the empty
    slice at -1. *)
Lemma readString_loop_spec :
  forall fuel acc lxr,
    (List.length (buffered (Reader lxr)) < fuel)%nat ->
    match readString_loop fuel acc lxr with
    | Returns res lxr' =>
        exists run post,
          buffered (Reader lxr) = run ++ post /\
          (res = inl (acc ++ run) \/ exists e, res = inr e /\ is_EOF e = false) /\
          (List.length (buffered (Reader lxr')) <= List.length post)%nat /\
          srcErr (Reader lxr') = srcErr (Reader lxr) /\
          (pos_ok lxr = true -> pos_ok lxr' = true)
    | Panics p =>
        acc = [] /\ p = PanicIndex (-1) 0 /\
        exists rest, buffered (Reader lxr) = dquote :: rest
    | OutOfFuel => False
    end.
Proof.
  induction fuel as [|fuel IH]; intros acc [[l last e] [line col]] Hf;
    simpl in Hf; [lia|].
  destruct l as [|r rest].
  - simpl readString_loop. unfold bind. rewrite advanceReader_nil.
    destruct (is_EOF e) eqn:He; simpl; exists [], [];
      (split; [reflexivity|]); (split; [|repeat split; auto]).
    + left. now rewrite app_nil_r.
    + right. exists e. auto.
  - simpl readString_loop. unfold bind at 1. rewrite advanceReader_cons.
    assert (Hstep :
      forall lxr1,
        lxr1 = mkLexer (mkReader rest (Some r) e)
                       (mkLexerPosition line (int_add col 1)) ->
        match readString_loop fuel (acc ++ [r]) lxr1 with
        | Returns res lxr' =>
            exists run post,
              r :: rest = run ++ post /\
              (res = inl (acc ++ run) \/ exists e0, res = inr e0 /\ is_EOF e0 = false) /\
              (List.length (buffered (Reader lxr')) <= List.length post)%nat /\
              srcErr (Reader lxr') = e /\
              (pos_ok (mkLexer (mkReader (r :: rest) last e)
                               (mkLexerPosition line col)) = true ->
               pos_ok lxr' = true)
        | Panics p =>
            acc = [] /\ p = PanicIndex (-1) 0 /\
            exists rest0, r :: rest = dquote :: rest0
        | OutOfFuel => False
        end).
    { intros lxr1 ->.
      specialize (IH (acc ++ [r])
                     (mkLexer (mkReader rest (Some r) e)
                              (mkLexerPosition line (int_add col 1)))).
      simpl in IH, Hf. specialize (IH ltac:(lia)).
      destruct (readString_loop fuel (acc ++ [r]) _) as [res lxr'|p|].
      - destruct IH as (run & post & Hbuf & Hres & Hlen & Herr & Hok').
        exists (r :: run), post. split; [simpl; now rewrite Hbuf|].
        split.
        { destruct Hres as [-> | Hres]; [left | right; exact Hres].
          now rewrite <- app_assoc. }
        repeat split; auto.
        intros Hok. apply Hok'.
        apply (pos_ok_advance _ _ _ (Some r)) in Hok. apply Hok.
      - destruct IH as (Hacc & _). destruct acc; discriminate.
      - exact IH. }
    destruct (r =? dquote) eqn:Hq.
    + apply Z.eqb_eq in Hq. subst r.
      destruct acc as [|a acc'] using rev_ind.
      * unfold bind, index_rune, panic. simpl.
        split; [reflexivity|]. split; [reflexivity|]. now exists rest.
      * clear IHacc'. unfold bind at 1. unfold bind at 1.
        rewrite index_rune_last. unfold ret at 1.
        destruct (negb (a =? ch "\")) eqn:Hesc.
        -- simpl. exists [], (dquote :: rest).
           split; [reflexivity|]. split; [left; now rewrite app_nil_r|].
           split; [simpl; lia|]. split; [reflexivity|].
           intros Hok. apply (pos_ok_advance _ _ _ (Some dquote)) in Hok.
           apply Hok.
        -- apply Hstep. reflexivity.
    + unfold bind at 1. unfold ret at 1. apply Hstep. reflexivity.
Qed.

(* ------------------------------------------------------------------ *)
(** ** Tokens and the three handlers *)

Lemma createToken_not_EOF (t : TokenType) (p : LexerPosition) (l : list rune) :
  t <> EOF ->
  createToken t p l
  = mkToken t l (mkTokenPosition (PLine p) (Column p)
                                 (wrap (Column p + len l - 1))).
Proof.
  intros Ht. unfold createToken. rewrite int_sub_int_add.
  destruct t; try reflexivity. contradiction.
Qed.

Lemma createToken_type (t : TokenType) (p : LexerPosition) (l : list rune) :
  TokType (createToken t p l) = t.
Proof. unfold createToken. destruct t; reflexivity. Qed.

Lemma invalid_number_message :
  strings_Contains (Error (errors_New "invalid JSON number"))
                   "invalid JSON number" = true.
Proof. reflexivity. Qed.

Lemma readNumber_spec (lxr : Lexer) :
  exists num err lxr' run post,
    readNumber lxr
    = Returns (num, mkLexerPosition (PLine (Pos lxr))
                                    (int_add (Column (Pos lxr)) 1), err) lxr' /\
    buffered (Reader lxr) = run ++ post /\
    match post with [] => True | r :: _ => stop_number r = true end /\
    (List.length (buffered (Reader lxr')) <= List.length post)%nat /\
    srcErr (Reader lxr') = srcErr (Reader lxr) /\
    (pos_ok lxr = true -> pos_ok lxr' = true) /\
    ((num = run /\
      (err = None \/ err = Some (errors_New "invalid JSON number")))
     \/ (num = [] /\ exists e, err = Some e /\ is_EOF e = false)).
Proof.
  destruct (scan_loop_spec stop_number
              (S (List.length (buffered (Reader lxr)))) [] lxr)
    as (res & lxr' & run & post & Hrun & Hbuf & Hres & Hlen & Hpost & Herr & Hok);
    [lia|].
  unfold readNumber, bind, getPos, remaining.
  rewrite readNumber_loop_scan, Hrun.
  destruct Hres as [-> | (e & -> & He)].
  - cbn [app]. destruct (negb (isValidJSONNumber run));
      unfold ret; exists run; eexists; exists lxr', run, post;
      repeat split; auto.
  - unfold ret. exists []. eexists. exists lxr', run, post.
    repeat split; auto. right. split; [reflexivity|]. now exists e.
Qed.

Lemma span_progress (stop : rune -> bool) (r : rune) (rest run post : list rune) :
  r :: rest = run ++ post ->
  stop r = false ->
  match post with [] => True | c :: _ => stop c = true end ->
  (List.length post <= List.length rest)%nat.
Proof.
  intros Hbuf Hs Hpost. destruct run as [|c run].
  - simpl in Hbuf. subst post. congruence.
  - simpl in Hbuf. injection Hbuf as _ ->. rewrite length_app. lia.
Qed.

Lemma pos_ok_backup r rest e line col :
  pos_ok (mkLexer (mkReader (r :: rest) None e) (mkLexerPosition line col)) = true ->
  (0 <? int_add col 1) = true /\ int_sub (int_add col 1) 1 = col.
Proof.
  intros H. destruct (pos_ok_advance _ _ _ None _ _ _ H) as [E _].
  apply pos_ok_iff in H. simpl in H. rewrite len_cons in H.
  pose proof (len_nonneg rest).
  split; [rewrite E; apply Z.ltb_lt; lia|].
  apply int_sub_add_1. unfold int_max in *. lia.
Qed.

Lemma run_token_position (t : TokenType) (r : rune) (rest run post : list rune)
      (e : error) (line col : Z) :
  t <> EOF ->
  pos_ok (mkLexer (mkReader (r :: rest) None e) (mkLexerPosition line col)) = true ->
  r :: rest = run ++ post ->
  let tok := createToken t (mkLexerPosition line (int_add col 1)) run in
  r :: rest = Lexeme tok ++ post /\
  Line (TokPos tok) = line /\
  ColStart (TokPos tok) = col + 1 /\
  ColEnd (TokPos tok) = ColStart (TokPos tok) + len (Lexeme tok) - 1.
Proof.
  intros Ht Hok Hbuf tok. subst tok.
  rewrite createToken_not_EOF by exact Ht. simpl.
  destruct (pos_ok_advance _ _ _ None _ _ _ Hok) as [E _].
  apply pos_ok_iff in Hok. simpl in Hok.
  assert (Hl : len run <= len (r :: rest)).
  { rewrite Hbuf, len_app. pose proof (len_nonneg post). lia. }
  pose proof (len_nonneg run).
  rewrite E. repeat split; auto.
  apply wrap_small. unfold int_max in *. lia.
Qed.

Lemma handleNumberToken_spec r rest e line col :
  stop_number r = false ->
  exists tok lxr',
    handleNumberToken r (mkLexer (mkReader rest (Some r) e)
                                 (mkLexerPosition line (int_add col 1)))
    = Returns tok lxr' /\
    run_handled r rest e line col tok lxr' /\
    (List.length (buffered (Reader lxr')) <= List.length rest)%nat.
Proof.
  intros Hs. unfold handleNumberToken. unfold bind at 1.
  rewrite backupReader_after_read.
  destruct (0 <? int_add col 1) eqn:Hc.
  - destruct (readNumber_spec
                (mkLexer (mkReader (r :: rest) None e)
                         (mkLexerPosition line (int_sub (int_add col 1) 1))))
      as (num & err & lxr' & run & post & Hread & Hbuf & Hpost & Hlen & Herr & Hok & Hres).
    simpl in Hbuf, Herr, Hread. unfold bind. rewrite Hread.
    pose proof (span_progress _ _ _ _ _ Hbuf Hs Hpost) as Hprog.
    assert (Hpos : pos_ok (mkLexer (mkReader (r :: rest) None e)
                                   (mkLexerPosition line col)) = true ->
                   pos_ok lxr' = true /\ int_sub (int_add col 1) 1 = col).
    { intros H. destruct (pos_ok_backup _ _ _ _ _ H) as [_ E].
      split; [|exact E]. apply Hok. rewrite E. exact H. }
    destruct Hres as [[-> [-> | ->]] | [-> (e' & -> & He')]].
    + eexists _, lxr'. split; [reflexivity|]. unfold ret.
      split; [|lia]. unfold run_handled. rewrite createToken_type.
      repeat split; try discriminate; auto; try (simpl; lia);
        try (apply Hpos; assumption).
      intros _. exists post. destruct (Hpos H) as [_ ->].
      apply run_token_position with (e := e); auto; discriminate.
    + rewrite invalid_number_message.
      eexists _, lxr'. split; [reflexivity|].
      split; [|lia]. unfold run_handled. rewrite createToken_type.
      repeat split; try discriminate; auto; try (simpl; lia);
        try (apply Hpos; assumption).
      intros _. exists post. destruct (Hpos H) as [_ ->].
      apply run_token_position with (e := e); auto; discriminate.
    + destruct (strings_Contains (Error e') "invalid JSON number");
        (eexists _, lxr'; split; [reflexivity|]; split; [|lia]);
        unfold run_handled; rewrite createToken_type;
        (repeat split; try discriminate; auto; try (simpl; lia);
         try (apply Hpos; assumption));
        rewrite createToken_not_EOF by discriminate; simpl;
        unfold len; simpl; lia.
  - destruct (readNumber_spec
                (mkLexer (mkReader rest (Some r) e)
                         (mkLexerPosition line (int_add col 1))))
      as (num & err & lxr' & run & post & Hread & Hbuf & Hpost & Hlen & Herr & Hok & Hres).
    simpl in Hbuf, Herr, Hread. unfold bind. rewrite Hread.
    assert (Hprog : (List.length post <= List.length rest)%nat)
      by (rewrite Hbuf, length_app; lia).
    assert (Hpos : pos_ok (mkLexer (mkReader (r :: rest) None e)
                                   (mkLexerPosition line col)) = true -> False).
    { intros H. destruct (pos_ok_backup _ _ _ _ _ H) as [E _]. congruence. }
    destruct Hres as [[-> [-> | ->]] | [-> (e' & -> & He')]];
      [ | rewrite invalid_number_message
        | destruct (strings_Contains (Error e') "invalid JSON number") ];
      (eexists _, lxr'; split; [reflexivity|]; split; [|lia]);
      unfold run_handled; rewrite createToken_type;
      (repeat split; try discriminate; auto; try (simpl; lia);
       try (exfalso; apply Hpos; assumption)).
Qed.

(** [handleStringToken], entered right after the opening quote [r] was
    read with the cursor at column [col] before that read. *)
Lemma handleStringToken_spec r rest e line col :
  match handleStringToken r (mkLexer (mkReader rest (Some r) e)
                                     (mkLexerPosition line (int_add col 1))) with
  | Returns tok lxr' =>
      TokType tok <> EOF /\
      (List.length (buffered (Reader lxr')) <= List.length rest)%nat /\
      srcErr (Reader lxr') = e /\
      (pos_ok (mkLexer (mkReader (r :: rest) None e)
                       (mkLexerPosition line col)) = true ->
       pos_ok lxr' = true /\
       (2 <= len (Lexeme tok) ->
        TokType tok = STR /\
        exists post,
          rest = Lexeme tok ++ post /\
          Line (TokPos tok) = line /\
          ColStart (TokPos tok) = col + 1 + 1 /\
          ColEnd (TokPos tok) = ColStart (TokPos tok) + len (Lexeme tok) - 1))
  | Panics p => p = PanicIndex (-1) 0 /\ exists rest', rest = dquote :: rest'
  | OutOfFuel => False
  end.
Proof.
  unfold handleStringToken, readString, bind, getPos, remaining.
  cbn [Pos Reader buffered PLine Column].
  pose proof (readString_loop_spec (S (List.length rest)) []
                (mkLexer (mkReader rest (Some r) e)
                         (mkLexerPosition line (int_add col 1)))) as H.
  cbn [Pos Reader buffered srcErr] in H. specialize (H ltac:(lia)).
  destruct (readString_loop _ _ _) as [res lxr'|p|].
  - destruct H as (run & post & Hbuf & Hres & Hlen & Herr & Hok).
    assert (Hlen' : (List.length (buffered (Reader lxr')) <= List.length rest)%nat)
      by (rewrite Hbuf, length_app; lia).
    assert (Hpos : pos_ok (mkLexer (mkReader (r :: rest) None e)
                                   (mkLexerPosition line col)) = true ->
                   pos_ok lxr' = true).
    { intros H. apply Hok. apply (pos_ok_advance _ _ _ (Some r)) in H. apply H. }
    destruct Hres as [-> | (e' & -> & He')].
    + cbn [app]. unfold ret. destruct (len run =? 0) eqn:Hz.
      * rewrite createToken_type. repeat split; try discriminate; auto;
          rewrite createToken_not_EOF in * by discriminate;
          simpl in *; unfold len in *; simpl in *; lia.
      * rewrite createToken_type.
        split; [discriminate|]. split; [exact Hlen'|]. split; [exact Herr|].
        intros H0. split; [auto|]. intros H2. split; [reflexivity|].
        exists post. rewrite createToken_not_EOF in * by discriminate.
        simpl in *. split; [exact Hbuf|]. split; [reflexivity|].
        destruct (pos_ok_advance _ _ _ None _ _ _ H0) as [E _].
        apply pos_ok_iff in H0. simpl in H0. rewrite len_cons, Hbuf, len_app in H0.
        pose proof (len_nonneg post). rewrite E.
        assert (E2 : int_add (col + 1) 1 = col + 1 + 1)
          by (apply int_add_exact; unfold int_max in *; lia).
        rewrite E2. split; [reflexivity|].
        apply wrap_small. unfold int_max in *. lia.
    + unfold ret. rewrite createToken_type.
      repeat split; try discriminate; auto;
        rewrite createToken_not_EOF in * by discriminate;
        simpl in *; unfold len in *; simpl in *; lia.
  - destruct H as (_ & -> & Hrest). split; [reflexivity|exact Hrest].
  - exact H.
Qed.

Section LexerFacts.

Variable unicode_IsLetter : rune -> bool.

Lemma readIdentifier_loop_scan :
  forall fuel ident lxr,
    readIdentifier_loop unicode_IsLetter fuel ident lxr
    = scan_loop (stop_letter unicode_IsLetter) fuel ident lxr.
Proof.
  induction fuel as [|fuel IH]; intros ident lxr; [reflexivity|].
  simpl. unfold bind. destruct (advanceReader lxr) as [[r [e|]] lxr1| |];
    try reflexivity.
  unfold stop_letter.
  destruct (unicode_IsSpace r || negb (unicode_IsLetter r));
    [reflexivity|apply IH].
Qed.

Lemma readIdentifier_spec (lxr : Lexer) :
  exists ident err lxr' run post,
    readIdentifier unicode_IsLetter lxr
    = Returns (ident, mkLexerPosition (PLine (Pos lxr))
                                      (int_add (Column (Pos lxr)) 1), err) lxr' /\
    buffered (Reader lxr) = run ++ post /\
    match post with [] => True | r :: _ => stop_letter unicode_IsLetter r = true end /\
    (List.length (buffered (Reader lxr')) <= List.length post)%nat /\
    srcErr (Reader lxr') = srcErr (Reader lxr) /\
    (pos_ok lxr = true -> pos_ok lxr' = true) /\
    ((ident = run /\ err = None)
     \/ (ident = [] /\ exists e, err = Some e /\ is_EOF e = false)).
Proof.
  destruct (scan_loop_spec (stop_letter unicode_IsLetter)
              (S (List.length (buffered (Reader lxr)))) [] lxr)
    as (res & lxr' & run & post & Hrun & Hbuf & Hres & Hlen & Hpost & Herr & Hok);
    [lia|].
  unfold readIdentifier, bind, getPos, remaining.
  rewrite readIdentifier_loop_scan, Hrun.
  destruct Hres as [-> | (e & -> & He)].
  - cbn [app]. unfold ret. exists run. eexists. exists lxr', run, post.
    repeat split; auto.
  - unfold ret. exists []. eexists. exists lxr', run, post.
    repeat split; auto. right. split; [reflexivity|]. now exists e.
Qed.

Lemma identifier_token_cases startPos identRune :
  exists t, identifier_token startPos identRune = createToken t startPos identRune
            /\ t <> EOF /\ opening t = [].
Proof.
  unfold identifier_token.
  destruct (runes_eqb identRune (runes "true"));
    [exists TRUE; repeat split; discriminate|].
  destruct (runes_eqb identRune (runes "false"));
    [exists FALSE; repeat split; discriminate|].
  destruct (runes_eqb identRune (runes "null"));
    [exists NULL; repeat split; discriminate|].
  exists ILLEGAL; repeat split; discriminate.
Qed.

Lemma identifier_token_ret startPos identRune lxr :
  (if runes_eqb identRune (runes "true")
   then ret (createToken TRUE startPos identRune)
   else if runes_eqb identRune (runes "false")
   then ret (createToken FALSE startPos identRune)
   else if runes_eqb identRune (runes "null")
   then ret (createToken NULL startPos identRune)
   else ret (createToken ILLEGAL startPos identRune)) lxr
  = Returns (identifier_token startPos identRune) lxr.
Proof.
  unfold identifier_token.
  destruct (runes_eqb identRune (runes "true")); [reflexivity|].
  destruct (runes_eqb identRune (runes "false")); [reflexivity|].
  destruct (runes_eqb identRune (runes "null")); reflexivity.
Qed.

Lemma handleIdentifierToken_spec r rest e line col :
  exists tok lxr',
    handleIdentifierToken unicode_IsLetter r
      (mkLexer (mkReader rest (Some r) e) (mkLexerPosition line (int_add col 1)))
    = Returns tok lxr' /\
    run_handled r rest e line col tok lxr' /\
    (stop_letter unicode_IsLetter r = false ->
     (List.length (buffered (Reader lxr')) <= List.length rest)%nat).
Proof.
  unfold handleIdentifierToken. unfold bind at 1.
  rewrite backupReader_after_read.
  destruct (0 <? int_add col 1) eqn:Hc.
  - destruct (readIdentifier_spec
                (mkLexer (mkReader (r :: rest) None e)
                         (mkLexerPosition line (int_sub (int_add col 1) 1))))
      as (num & err & lxr' & run & post & Hread & Hbuf & Hpost & Hlen & Herr & Hok & Hres).
    simpl in Hbuf, Herr, Hread. unfold bind. rewrite Hread.
    assert (Hany : (List.length post <= List.length (r :: rest))%nat)
      by (rewrite Hbuf, length_app; lia).
    assert (Hprog : stop_letter unicode_IsLetter r = false ->
                    (List.length post <= List.length rest)%nat)
      by (intros Hs; exact (span_progress _ _ _ _ _ Hbuf Hs Hpost)).
    assert (Hpos : pos_ok (mkLexer (mkReader (r :: rest) None e)
                                   (mkLexerPosition line col)) = true ->
                   pos_ok lxr' = true /\ int_sub (int_add col 1) 1 = col).
    { intros H. destruct (pos_ok_backup _ _ _ _ _ H) as [_ E].
      split; [|exact E]. apply Hok. rewrite E. exact H. }
    destruct Hres as [[-> ->] | [-> (e' & -> & He')]].
    + rewrite identifier_token_ret.
      destruct (identifier_token_cases
                  (mkLexerPosition line (int_add (int_sub (int_add col 1) 1) 1)) run)
        as (t & -> & Ht & Hop).
      eexists _, lxr'. split; [reflexivity|]. split; [|intros Hs; specialize (Hprog Hs); lia].
      unfold run_handled. rewrite createToken_type.
      split; [exact Ht|]. split; [exact Hop|]. split; [lia|]. split; [exact Herr|].
      intros H. destruct (Hpos H) as [Hok' E]. split; [exact Hok'|].
      intros _. exists post. rewrite E.
      apply run_token_position with (e := e); auto.
    + eexists _, lxr'. split; [reflexivity|]. split; [|intros Hs; specialize (Hprog Hs); lia].
      unfold run_handled; rewrite createToken_type.
      repeat split; try discriminate; auto; try (simpl in *; lia);
        try (apply Hpos; assumption);
        rewrite createToken_not_EOF in * by discriminate; simpl in *;
        unfold len in *; simpl in *; lia.
  - destruct (readIdentifier_spec
                (mkLexer (mkReader rest (Some r) e)
                         (mkLexerPosition line (int_add col 1))))
      as (num & err & lxr' & run & post & Hread & Hbuf & Hpost & Hlen & Herr & Hok & Hres).
    simpl in Hbuf, Herr, Hread. unfold bind. rewrite Hread.
    assert (Hprog : (List.length post <= List.length rest)%nat)
      by (rewrite Hbuf, length_app; lia).
    assert (Hpos : pos_ok (mkLexer (mkReader (r :: rest) None e)
                                   (mkLexerPosition line col)) = true -> False).
    { intros H. destruct (pos_ok_backup _ _ _ _ _ H) as [E _]. congruence. }
    destruct Hres as [[-> ->] | [-> (e' & -> & He')]].
    + rewrite identifier_token_ret.
      destruct (identifier_token_cases
                  (mkLexerPosition line (int_add (int_add col 1) 1)) run)
        as (t & -> & Ht & Hop).
      eexists _, lxr'. split; [reflexivity|]. split; [|intros _; lia].
      unfold run_handled. rewrite createToken_type.
      split; [exact Ht|]. split; [exact Hop|]. split; [simpl; lia|].
      split; [exact Herr|]. intros H. exfalso. auto.
    + eexists _, lxr'. split; [reflexivity|]. split; [|intros _; lia].
      unfold run_handled; rewrite createToken_type.
      repeat split; try discriminate; auto; try (simpl in *; lia);
        try (exfalso; apply Hpos; assumption).
Qed.

(* ------------------------------------------------------------------ *)
(** ** One turn of [GetNextToken] *)

Lemma isNumberMaybe_not_space (r : rune) :
  isNumberMaybe r = true -> stop_number r = false.
Proof.
  unfold stop_number, isNumberMaybe, unicode_IsSpace.
  change (ch "0") with 48. change (ch "9") with 57. change (ch "-") with 45.
  change (ch ".") with 46. change (ch "e") with 101. change (ch "E") with 69.
  intros H. rewrite H. simpl negb. rewrite orb_false_r.
  rewrite !orb_true_iff, !andb_true_iff, !Z.leb_le, !Z.eqb_eq in H.
  rewrite !orb_false_iff, !andb_false_iff, !Z.leb_gt, !Z.eqb_neq.
  lia.
Qed.

Lemma single_rune_token (t : TokenType) (r : rune) (rest : list rune)
      (last : option rune) (e : error) (line col : Z) :
  next_token_post unicode_IsLetter
    (mkLexer (mkReader (r :: rest) last e) (mkLexerPosition line col))
    (Returns (createToken t (mkLexerPosition line (int_add col 1)) [r])
             (mkLexer (mkReader rest (Some r) e)
                      (mkLexerPosition line (int_add col 1)))).
Proof.
  unfold next_token_post. cbn [Reader Pos buffered srcErr].
  split; [reflexivity|]. split; [simpl; lia|]. split; [intros; simpl; lia|].
  intros Hok. split.
  - apply (pos_ok_advance _ _ _ (Some r)) in Hok. apply Hok.
  - rewrite createToken_type. intros Ht.
    rewrite createToken_not_EOF by exact Ht. simpl. unfold len. simpl. lia.
Qed.

Lemma starts_after_blank (r : rune) (rest : list rune) (p p1 : LexerPosition)
      (tok : Token) :
  is_blank r = true ->
  cursor_step p r = p1 ->
  starts_at_first_rune p1 rest tok ->
  starts_at_first_rune p (r :: rest) tok.
Proof.
  intros Hb Hp (blanks & post & Hall & Hin & Hpos).
  exists (r :: blanks), post. split; [simpl; now rewrite Hb|].
  split; [simpl; now rewrite Hin|].
  simpl. unfold cursor_after in *. simpl. rewrite Hp. exact Hpos.
Qed.

Lemma empty_string_ahead_blank (r : rune) (rest : list rune) :
  is_blank r = true ->
  empty_string_ahead (r :: rest) = empty_string_ahead rest.
Proof. intros H. simpl. now rewrite H. Qed.

(** Skipping a space or a tab. *)
Lemma skip_blank (r : rune) (rest : list rune) (last : option rune)
      (e : error) (line col : Z) (o : outcome Token) :
  is_blank r = true -> (r =? newline) = false ->
  next_token_post unicode_IsLetter
    (mkLexer (mkReader rest (Some r) e) (mkLexerPosition line (int_add col 1))) o ->
  next_token_post unicode_IsLetter
    (mkLexer (mkReader (r :: rest) last e) (mkLexerPosition line col)) o.
Proof.
  intros Hb Hn H. destruct o as [tok lxr'|[e'|i n]|]; simpl in *.
  - destruct H as (Herr & Hlen & Hprog & Hpos).
    split; [exact Herr|]. split; [lia|].
    split; [intros HL Ht; specialize (Hprog HL Ht); lia|].
    intros Hok. destruct (pos_ok_advance _ _ _ (Some r) _ _ _ Hok) as [E Hok1].
    destruct (Hpos Hok1) as [Hok' Hat]. split; [exact Hok'|].
    intros Ht H2. apply starts_after_blank with (p1 := mkLexerPosition line (int_add col 1)); auto.
    unfold cursor_step. rewrite Hn. simpl. now rewrite E.
  - destruct H as (-> & He & Hall). repeat split; auto. now rewrite Hb.
  - destruct H as (-> & -> & H). repeat split.
    change (empty_string_ahead (r :: rest) = true).
    now rewrite empty_string_ahead_blank.
  - exact H.
Qed.

(** Skipping a newline, after [resetPosition]. *)
Lemma skip_newline (r : rune) (rest : list rune) (last : option rune)
      (e : error) (line col : Z) (o : outcome Token) :
  (r =? newline) = true ->
  next_token_post unicode_IsLetter
    (mkLexer (mkReader rest (Some r) e) (mkLexerPosition (int_add line 1) 0)) o ->
  next_token_post unicode_IsLetter
    (mkLexer (mkReader (r :: rest) last e) (mkLexerPosition line col)) o.
Proof.
  intros Hn H. destruct o as [tok lxr'|[e'|i n]|]; simpl in *.
  - destruct H as (Herr & Hlen & Hprog & Hpos).
    split; [exact Herr|]. split; [lia|].
    split; [intros HL Ht; specialize (Hprog HL Ht); lia|].
    intros Hok. apply pos_ok_iff in Hok. simpl in Hok. rewrite len_cons in Hok.
    pose proof (len_nonneg rest).
    assert (E : int_add line 1 = line + 1)
      by (apply int_add_exact; unfold int_max in *; lia).
    assert (Hok1 : pos_ok (mkLexer (mkReader rest (Some r) e)
                                   (mkLexerPosition (int_add line 1) 0)) = true).
    { apply pos_ok_iff. simpl. rewrite E. unfold int_max in *. lia. }
    destruct (Hpos Hok1) as [Hok' Hat]. split; [exact Hok'|].
    intros Ht H2.
    apply starts_after_blank with (p1 := mkLexerPosition (int_add line 1) 0); auto.
    + unfold is_blank. rewrite Hn. apply orb_true_r.
    + unfold cursor_step. rewrite Hn. simpl. now rewrite E.
  - destruct H as (-> & He & Hall). repeat split; auto.
    rewrite Hall. unfold is_blank. rewrite Hn. now rewrite orb_true_r.
  - destruct H as (-> & -> & H). repeat split.
    change (empty_string_ahead (r :: rest) = true).
    rewrite empty_string_ahead_blank; [exact H|].
    unfold is_blank. rewrite Hn. apply orb_true_r.
  - exact H.
Qed.

Lemma run_token_post (r : rune) (rest : list rune) (last : option rune)
      (e : error) (line col : Z) (tok : Token) (lxr' : Lexer) :
  run_handled r rest e line col tok lxr' ->
  (letters_not_space unicode_IsLetter ->
   (List.length (buffered (Reader lxr')) <= List.length rest)%nat) ->
  next_token_post unicode_IsLetter
    (mkLexer (mkReader (r :: rest) last e) (mkLexerPosition line col))
    (Returns tok lxr').
Proof.
  intros (Ht & Hop & Hlen & Herr & Hpos) Hprog. simpl.
  split; [exact Herr|]. split; [exact Hlen|].
  split; [intros HL _; specialize (Hprog HL); simpl; lia|].
  intros Hok. destruct (Hpos Hok) as [Hok' Hat]. split; [exact Hok'|].
  intros _ H2. destruct (Hat H2) as (post & Hin & Hline & Hcs & Hce).
  exists [], post. rewrite Hop. simpl.
  repeat split; auto.
Qed.

Lemma string_token_post (rest : list rune) (last : option rune)
      (e : error) (line col : Z) :
  next_token_post unicode_IsLetter
    (mkLexer (mkReader (dquote :: rest) last e) (mkLexerPosition line col))
    (handleStringToken dquote
       (mkLexer (mkReader rest (Some dquote) e)
                (mkLexerPosition line (int_add col 1)))).
Proof.
  pose proof (handleStringToken_spec dquote rest e line col) as H.
  destruct (handleStringToken _ _) as [tok lxr'|[e'|i n]|]; simpl.
  - destruct H as (Ht & Hlen & Herr & Hpos).
    split; [exact Herr|]. split; [lia|]. split; [intros; lia|].
    intros Hok. destruct (Hpos Hok) as [Hok' Hat]. split; [exact Hok'|].
    intros _ H2. destruct (Hat H2) as (Hstr & post & Hin & Hline & Hcs & Hce).
    exists [], post. rewrite Hstr. simpl.
    split; [reflexivity|]. split; [now rewrite Hin|].
    repeat split; auto.
  - destruct H as [H _]. discriminate.
  - destruct H as [H (rest' & ->)]. injection H as -> ->.
    repeat split.
  - exact H.
Qed.

Lemma number_token_post (r : rune) (rest : list rune) (last : option rune)
      (e : error) (line col : Z) :
  isNumberMaybe r = true ->
  next_token_post unicode_IsLetter
    (mkLexer (mkReader (r :: rest) last e) (mkLexerPosition line col))
    (handleNumberToken r
       (mkLexer (mkReader rest (Some r) e)
                (mkLexerPosition line (int_add col 1)))).
Proof.
  intros Hn.
  destruct (handleNumberToken_spec r rest e line col
              (isNumberMaybe_not_space r Hn)) as (tok & lxr' & -> & Hrun & Hlen).
  apply run_token_post; auto.
Qed.

Lemma identifier_token_post (r : rune) (rest : list rune) (last : option rune)
      (e : error) (line col : Z) :
  unicode_IsLetter r = true ->
  next_token_post unicode_IsLetter
    (mkLexer (mkReader (r :: rest) last e) (mkLexerPosition line col))
    (handleIdentifierToken unicode_IsLetter r
       (mkLexer (mkReader rest (Some r) e)
                (mkLexerPosition line (int_add col 1)))).
Proof.
  intros Hl.
  destruct (handleIdentifierToken_spec r rest e line col)
    as (tok & lxr' & -> & Hrun & Hlen).
  apply run_token_post; auto.
  intros HL. apply Hlen. unfold stop_letter.
  rewrite (HL r Hl), Hl. reflexivity.
Qed.

(** Every turn of the loop of [GetNextToken] ends as [next_token_post]
    says, given one unit of fuel more than there are runes to read. *)
Lemma GetNextToken_loop_spec :
  forall fuel lxr,
    (List.length (buffered (Reader lxr)) < fuel)%nat ->
    next_token_post unicode_IsLetter lxr
                    (GetNextToken_loop unicode_IsLetter fuel lxr).
Proof.
  induction fuel as [|fuel IH]; intros [[l last e] [line col]] Hf;
    simpl in Hf; [lia|].
  destruct l as [|r rest].
  - simpl GetNextToken_loop. unfold bind. rewrite advanceReader_nil.
    destruct (is_EOF e) eqn:He.
    + unfold getPos, ret. cbn [Pos]. unfold next_token_post.
      cbn [Reader buffered srcErr Pos]. rewrite createToken_type.
      repeat split; auto; congruence.
    + unfold panic. simpl. auto.
  - simpl GetNextToken_loop. unfold bind at 1. rewrite advanceReader_cons.
    simpl in Hf.
    destruct ((r =? ch " ") || (r =? tab)) eqn:Hsp.
    { apply skip_blank.
      - unfold is_blank. rewrite Hsp. reflexivity.
      - apply orb_true_iff in Hsp. destruct Hsp as [H|H];
          apply Z.eqb_eq in H; subst r; reflexivity.
      - apply IH. simpl. lia. }
    destruct (r =? ch "0"); [apply single_rune_token|].
    destruct (r =? newline) eqn:Hnl.
    { unfold bind, resetPosition. cbn [Reader Pos PLine].
      apply skip_newline; [exact Hnl|]. apply IH. simpl. lia. }
    destruct (r =? ch "{"); [apply single_rune_token|].
    destruct (r =? ch "}"); [apply single_rune_token|].
    destruct (r =? ch "["); [apply single_rune_token|].
    destruct (r =? ch "]"); [apply single_rune_token|].
    destruct (r =? ch ","); [apply single_rune_token|].
    destruct (r =? ch ":"); [apply single_rune_token|].
    destruct (r =? dquote) eqn:Hq.
    { apply Z.eqb_eq in Hq. subst r. apply string_token_post. }
    destruct (isNumberMaybe r) eqn:Hnum; [now apply number_token_post|].
    destruct (unicode_IsLetter r) eqn:Hl; [now apply identifier_token_post|].
    apply single_rune_token.
Qed.

Lemma GetNextToken_spec (lxr : Lexer) :
  next_token_post unicode_IsLetter lxr (GetNextToken unicode_IsLetter lxr).
Proof.
  unfold GetNextToken, bind, remaining. apply GetNextToken_loop_spec. lia.
Qed.

(** With nothing but blanks left and a reader that fails, the read failure
    reaches [panic(err)]. *)
Lemma GetNextToken_loop_read_failure :
  forall fuel lxr,
    (List.length (buffered (Reader lxr)) < fuel)%nat ->
    forallb is_blank (buffered (Reader lxr)) = true ->
    is_EOF (srcErr (Reader lxr)) = false ->
    GetNextToken_loop unicode_IsLetter fuel lxr
    = Panics (PanicError (srcErr (Reader lxr))).
Proof.
  induction fuel as [|fuel IH]; intros [[l last e] [line col]] Hf Hb He;
    simpl in Hf, Hb, He; [lia|].
  destruct l as [|r rest].
  - simpl GetNextToken_loop. unfold bind. rewrite advanceReader_nil.
    rewrite He. reflexivity.
  - simpl GetNextToken_loop. unfold bind at 1. rewrite advanceReader_cons.
    simpl in Hb, Hf. apply andb_true_iff in Hb. destruct Hb as [Hr Hrest].
    unfold is_blank in Hr.
    destruct ((r =? ch " ") || (r =? tab)) eqn:Hsp.
    + rewrite IH; [reflexivity|simpl; lia|exact Hrest|exact He].
    + simpl in Hr. apply Z.eqb_eq in Hr. subst r.
      change (newline =? ch "0") with false. change (newline =? newline) with true.
      cbv iota. unfold bind, resetPosition. cbn [Reader Pos PLine].
      rewrite IH; [reflexivity|simpl; lia|exact Hrest|exact He].
Qed.

Lemma TokenType_eqb_EOF (t : TokenType) :
  TokenType_eqb t EOF = true <-> t = EOF.
Proof. destruct t; simpl; split; intros H; congruence. Qed.

(** The loop of [Lex] always ends: each token other than EOF uses up at
    least one rune.  It returns the tokens handed out before the first
    EOF token. *)
Lemma Lex_loop_spec :
  letters_not_space unicode_IsLetter ->
  forall fuel tokens lxr,
    (List.length (buffered (Reader lxr)) < fuel)%nat ->
    match Lex_loop unicode_IsLetter fuel tokens lxr with
    | Returns toks lxr' =>
        exists new lxr1 eof,
          elements toks = elements tokens ++ new /\
          (toks = tokens \/ is_nil toks = false /\ elements toks <> []) /\
          produces unicode_IsLetter lxr new lxr1 /\
          Forall (fun t => TokType t <> EOF) new /\
          GetNextToken unicode_IsLetter lxr1 = Returns eof lxr' /\
          TokType eof = EOF
    | Panics _ => True
    | OutOfFuel => False
    end.
Proof.
  intros HL. induction fuel as [|fuel IH]; intros tokens lxr Hf; [lia|].
  simpl Lex_loop. unfold bind.
  pose proof (GetNextToken_spec lxr) as Hspec.
  destruct (GetNextToken unicode_IsLetter lxr) as [tok lxr1|p|] eqn:Hnext.
  - destruct (TokenType_eqb (TokType tok) EOF) eqn:Ht.
    + apply TokenType_eqb_EOF in Ht. unfold ret.
      exists [], lxr, tok. rewrite app_nil_r.
      repeat split; auto. constructor.
    + assert (Hne : TokType tok <> EOF).
      { intros H. apply TokenType_eqb_EOF in H. congruence. }
      simpl in Hspec. destruct Hspec as (_ & _ & Hprog & _).
      specialize (Hprog HL Hne).
      specialize (IH (slice_append tokens tok) lxr1 ltac:(lia)).
      destruct (Lex_loop unicode_IsLetter fuel (slice_append tokens tok) lxr1)
        as [toks lxr'|p|]; auto.
      destruct IH as (new & lxr2 & eof & Hel & Hnil & Hprod & Hall & Hlast & Heof).
      exists (tok :: new), lxr2, eof.
      split; [rewrite Hel; simpl; now rewrite <- app_assoc|].
      split.
      { right. destruct Hnil as [->|Hnil]; [|exact Hnil].
        split; [reflexivity|]. simpl. now destruct (elements tokens). }
      repeat split; auto.
      econstructor; eauto.
  - exact I.
  - simpl in Hspec. exact Hspec.
Qed.

(** Wherever [GetNextToken] finds, after blanks, a double quote directly
    followed by a double quote, it panics on the index -1. *)
Lemma GetNextToken_loop_empty_string :
  forall blanks fuel rest last e p,
    forallb is_blank blanks = true ->
    (List.length blanks < fuel)%nat ->
    GetNextToken_loop unicode_IsLetter fuel
      (mkLexer (mkReader (blanks ++ dquote :: dquote :: rest) last e) p)
    = Panics (PanicIndex (-1) 0).
Proof.
  induction blanks as [|b blanks IH]; intros fuel rest last e [line col] Hb Hf;
    (destruct fuel as [|fuel]; [simpl in Hf; lia|]).
  - reflexivity.
  - simpl in Hb, Hf. apply andb_true_iff in Hb. destruct Hb as [Hb Hrest].
    simpl app. simpl GetNextToken_loop. unfold bind at 1.
    rewrite advanceReader_cons. unfold is_blank in Hb.
    destruct ((b =? ch " ") || (b =? tab)) eqn:Hsp.
    + apply IH; [exact Hrest|lia].
    + simpl in Hb. apply Z.eqb_eq in Hb. subst b.
      change (newline =? ch "0") with false. change (newline =? newline) with true.
      cbv iota. unfold bind, resetPosition. cbn [Reader Pos PLine].
      apply IH; [exact Hrest|lia].
Qed.

Lemma GetNextToken_empty_string :
  forall blanks rest last e p,
    forallb is_blank blanks = true ->
    GetNextToken unicode_IsLetter
      (mkLexer (mkReader (blanks ++ dquote :: dquote :: rest) last e) p)
    = Panics (PanicIndex (-1) 0).
Proof.
  intros blanks rest last e p Hb. unfold GetNextToken, bind, remaining.
  cbn [Reader buffered]. apply GetNextToken_loop_empty_string; [exact Hb|].
  rewrite length_app. lia.
Qed.

(** The loop of [readString] on a text without double quotes that the end
    of the input cuts off: it returns what it collected, as it does at a
    closing quote. *)
Lemma readString_loop_unterminated :
  forall (content : list rune) fuel acc last p,
    forallb (fun r : rune => negb (r =? dquote)) content = true ->
    (List.length content < fuel)%nat ->
    exists lxr',
      readString_loop fuel acc (mkLexer (mkReader content last io_EOF) p)
      = Returns (inl (acc ++ content)) lxr'.
Proof.
  induction content as [|r content IH]; intros fuel acc last [line col] Hq Hf;
    (destruct fuel as [|fuel]; [simpl in Hf; lia|]).
  - simpl readString_loop. unfold bind. rewrite advanceReader_nil. simpl.
    rewrite app_nil_r. eexists. reflexivity.
  - simpl in Hq, Hf. apply andb_true_iff in Hq. destruct Hq as [Hr Hrest].
    apply negb_true_iff in Hr.
    simpl readString_loop. unfold bind at 1. rewrite advanceReader_cons.
    rewrite Hr. unfold bind at 1. unfold ret at 1. cbv iota.
    destruct (IH fuel (acc ++ [r]) (Some r)
                 (mkLexerPosition line (int_add col 1)) Hrest ltac:(lia))
      as (lxr' & Hloop).
    exists lxr'. etransitivity; [exact Hloop|]. now rewrite <- app_assoc.
Qed.

(** Every string with some text, no double quote in it and no closing
    quote before the end of the input comes out as a STR token. *)
Lemma GetNextToken_unterminated_string :
  forall (content : list rune) last line col,
    content <> [] ->
    forallb (fun r : rune => negb (r =? dquote)) content = true ->
    result_of (GetNextToken unicode_IsLetter
                 (mkLexer (mkReader (dquote :: content) last io_EOF)
                          (mkLexerPosition line col)))
    = Value (createToken STR
               (mkLexerPosition line (int_add (int_add col 1) 1)) content).
Proof.
  intros content last line col Hne Hq.
  unfold GetNextToken, bind, remaining. cbn [Reader buffered].
  simpl GetNextToken_loop. unfold bind at 1. rewrite advanceReader_cons.
  change ((dquote =? ch " ") || (dquote =? tab)) with false.
  change (dquote =? ch "0") with false. change (dquote =? newline) with false.
  change (dquote =? ch "{") with false. change (dquote =? ch "}") with false.
  change (dquote =? ch "[") with false. change (dquote =? ch "]") with false.
  change (dquote =? ch ",") with false. change (dquote =? ch ":") with false.
  change (dquote =? dquote) with true. cbv iota.
  unfold handleStringToken, readString, bind, getPos, remaining.
  cbn [Pos Reader buffered PLine Column].
  destruct (readString_loop_unterminated content (S (List.length content)) []
              (Some dquote) (mkLexerPosition line (int_add col 1)) Hq ltac:(lia))
    as (lxr' & ->).
  cbn [app]. unfold ret.
  destruct content as [|c content]; [congruence|].
  reflexivity.
Qed.


End LexerFacts.


(** The Latin-1 letters are no spaces. *)
Lemma Latin1_letters_not_space : letters_not_space IsLetter_Latin1.
Proof.
  intros r. unfold IsLetter_Latin1, unicode_IsSpace.
  rewrite !orb_true_iff, !andb_true_iff, !Z.leb_le, !Z.eqb_eq.
  rewrite !orb_false_iff, !andb_false_iff, !Z.leb_gt, !Z.eqb_neq.
  lia.
Qed.

(* ------------------------------------------------------------------ *)
(** ** The properties of the specification

    Where a property is settled by running the lexer on a concrete input
    whose runes reach [unicode.IsLetter], the lexer is run with
    [IsLetter_Latin1], which is [unicode.IsLetter] on every rune of such an
    input. *)

(** C1 -- Tokenizing a text that conforms to the JSON grammar should yield
    no ILLEGAL token.  The lexer breaks this on the number 1e+5: the plus
    sign is not among the characters [isNumberMaybe] lets into a run, so the
    run stops at 1e and comes out ILLEGAL, and the plus sign is ILLEGAL on
    its own, although the lexer's own number pattern accepts the whole
    text. *)
Theorem Lex_exponent_plus_is_ILLEGAL :
  isValidJSONNumber (runes "1e+5") = true /\
  isNumberMaybe (ch "+") = false /\
  Lex IsLetter_Latin1 (single_file (runes "1e+5")) "number.json"
  = Value [ mkToken ILLEGAL (runes "1e") (mkTokenPosition 1 1 2);
            mkToken ILLEGAL (runes "+") (mkTokenPosition 1 3 3);
            mkToken NUM (runes "5") (mkTokenPosition 1 4 4) ].
Proof. repeat split; vm_compute; reflexivity. Qed.

(** C2, as the specification states it, fails: a read failure met by
    [GetNextToken] itself is passed to [panic].  Here the file opens but
    cannot be read, as a directory does. *)
Lemma GetNextToken_panics_on_read_failure :
  GetNextToken IsLetter_Latin1
               (lexer_on [] (Err "read /data: is a directory"))
  = Panics (PanicError (Err "read /data: is a directory")).
Proof. vm_compute. reflexivity. Qed.

(** C2, amended -- Unless the next token starts with an empty string
    literal (after the blanks, a double quote directly followed by a double
    quote), [GetNextToken] ends only in two ways: it returns a token, or it
    panics with the read failure of its reader.  It returns a token
    whenever the reader ends with EOF.  It panics with the read failure
    exactly when only blanks are left before the failing read; a read
    failure met while a number, a string or a literal is collected does not
    abort the call. *)
Theorem GetNextToken_panics_only_on_read_failure
        (unicode_IsLetter : rune -> bool) (lxr : Lexer) :
  empty_string_ahead (buffered (Reader lxr)) = false ->
  GetNextToken unicode_IsLetter lxr <> OutOfFuel /\
  (forall p, GetNextToken unicode_IsLetter lxr = Panics p ->
             p = PanicError (srcErr (Reader lxr)) /\
             is_EOF (srcErr (Reader lxr)) = false /\
             forallb is_blank (buffered (Reader lxr)) = true) /\
  (is_EOF (srcErr (Reader lxr)) = true ->
   exists tok lxr', GetNextToken unicode_IsLetter lxr = Returns tok lxr') /\
  (forallb is_blank (buffered (Reader lxr)) = true ->
   is_EOF (srcErr (Reader lxr)) = false ->
   GetNextToken unicode_IsLetter lxr
   = Panics (PanicError (srcErr (Reader lxr)))).
Proof.
  intros Hq. pose proof (GetNextToken_spec unicode_IsLetter lxr) as H.
  assert (Hp : forall p, GetNextToken unicode_IsLetter lxr = Panics p ->
                         p = PanicError (srcErr (Reader lxr)) /\
                         is_EOF (srcErr (Reader lxr)) = false /\
                         forallb is_blank (buffered (Reader lxr)) = true).
  { intros p Hp. rewrite Hp in H. destruct p as [e|i n]; simpl in H.
    - destruct H as (-> & He & Hb). repeat split; assumption.
    - destruct H as (_ & _ & H). congruence. }
  split; [|split; [exact Hp|split]].
  - intros Hf. rewrite Hf in H. exact H.
  - intros He.
    destruct (GetNextToken unicode_IsLetter lxr) as [tok lxr'|p|] eqn:Hn.
    + now exists tok, lxr'.
    + destruct (Hp p eq_refl) as (_ & Hne & _). congruence.
    + contradiction.
  - intros Hb He. unfold GetNextToken, bind, remaining.
    apply GetNextToken_loop_read_failure; auto.
Qed.

Lemma GetNextToken_panics_only_on_read_failure_witness :
  empty_string_ahead
    (buffered (Reader (lexer_on ([ch "{"; dquote; ch "a"; dquote; ch ":";
                                  dquote; dquote; ch "}"]) io_EOF))) = false /\
  exists tok lxr',
    GetNextToken IsLetter_Latin1
                 (lexer_on ([ch "{"; dquote; ch "a"; dquote; ch ":";
                             dquote; dquote; ch "}"]) io_EOF)
    = Returns tok lxr'.
Proof.
  split; [reflexivity|].
  apply (GetNextToken_panics_only_on_read_failure
           IsLetter_Latin1
           (lexer_on ([ch "{"; dquote; ch "a"; dquote; ch ":";
                       dquote; dquote; ch "}"]) io_EOF));
    reflexivity.
Defined.

(** C3 -- The empty string literal should lex to a STR token with an empty
    lexeme and without any access out of bounds.  In the lexer the closing
    quote is met with nothing collected, [readString] indexes the empty
    slice at -1, and the call panics.  It does so wherever an empty string
    literal starts a token ([GetNextToken_empty_string]). *)
Theorem empty_string_literal_panics (unicode_IsLetter : rune -> bool) :
  GetNextToken unicode_IsLetter (lexer_on [dquote; dquote] io_EOF)
  = Panics (PanicIndex (-1) 0)
  /\ Lex unicode_IsLetter (single_file [dquote; dquote]) "empty.json"
     = Panicked (PanicIndex (-1) 0).
Proof. split; vm_compute; reflexivity. Qed.

(** C4 -- An EOF token should come exactly when the input is used up, once
    per stream.  In the lexer the digit 0 met between tokens also yields an
    EOF token: on the text [0] the second token is EOF while the closing
    bracket is still unread, a further call hands out that bracket, and
    [Lex] returns the opening bracket alone. *)
Theorem EOF_token_before_end_of_input (unicode_IsLetter : rune -> bool) :
  produces unicode_IsLetter (lexer_on (runes "[0]") io_EOF)
    [ mkToken LBRACKET (runes "[") (mkTokenPosition 1 1 1);
      mkToken EOF (runes "EOF") (mkTokenPosition 1 2 2) ]
    (mkLexer (mkReader (runes "]") (Some (ch "0")) io_EOF)
             (mkLexerPosition 1 2))
  /\ produces unicode_IsLetter
       (mkLexer (mkReader (runes "]") (Some (ch "0")) io_EOF)
                (mkLexerPosition 1 2))
       [ mkToken RBRACKET (runes "]") (mkTokenPosition 1 3 3);
         mkToken EOF (runes "EOF") (mkTokenPosition 1 3 3) ]
       (mkLexer (mkReader [] None io_EOF) (mkLexerPosition 1 3))
  /\ Lex unicode_IsLetter (single_file (runes "[0]")) "zero.json"
     = Value [ mkToken LBRACKET (runes "[") (mkTokenPosition 1 1 1) ].
Proof.
  split; [|split].
  - econstructor; [vm_compute; reflexivity|].
    econstructor; [vm_compute; reflexivity|]. constructor.
  - econstructor; [vm_compute; reflexivity|].
    econstructor; [vm_compute; reflexivity|]. constructor.
  - vm_compute. reflexivity.
Qed.

(** C5 -- A string that the input ends before closing should come out
    ILLEGAL with what was collected.  In the lexer the end of the input
    ends the loop of [readString] the same way a closing quote does: the
    unterminated string abc comes out as a STR token, and so does every
    unterminated string without a double quote in its text
    ([GetNextToken_unterminated_string]). *)
Theorem unterminated_string_is_STR (unicode_IsLetter : rune -> bool) :
  GetNextToken unicode_IsLetter (lexer_on (dquote :: runes "abc") io_EOF)
  = Returns (mkToken STR (runes "abc") (mkTokenPosition 1 2 4))
            (mkLexer (mkReader [] None io_EOF) (mkLexerPosition 1 4)).
Proof. vm_compute. reflexivity. Qed.

(** C6 -- A double quote should close the string exactly when the run of
    backslashes before it is even.  The lexer looks at the one rune before
    the quote only: in the string a\\ the run of two backslashes is even,
    yet the quote does not close the string; it is collected, and the
    token ends with the input. *)
Theorem even_backslash_run_does_not_close (unicode_IsLetter : rune -> bool) :
  closes_by_parity (runes "a\\") = true /\
  GetNextToken unicode_IsLetter
               (lexer_on (dquote :: runes "a\\" ++ [dquote]) io_EOF)
  = Returns (mkToken STR (runes "a\\" ++ [dquote]) (mkTokenPosition 1 2 5))
            (mkLexer (mkReader [] None io_EOF) (mkLexerPosition 1 5)).
Proof. split; vm_compute; reflexivity. Qed.

(** C7 -- The texts 1.23e-10, -1.2.3 and e10 lex as the specification
    says: NUM, and ILLEGAL with the whole run.  The text 01 does not: its
    first rune is the digit 0, for which [GetNextToken] returns an EOF
    token before any number is scanned. *)
Theorem number_scanning_examples (unicode_IsLetter : rune -> bool) :
  result_of (GetNextToken unicode_IsLetter (lexer_on (runes "1.23e-10") io_EOF))
  = Value (mkToken NUM (runes "1.23e-10") (mkTokenPosition 1 1 8))
  /\ result_of (GetNextToken unicode_IsLetter (lexer_on (runes "-1.2.3") io_EOF))
     = Value (mkToken ILLEGAL (runes "-1.2.3") (mkTokenPosition 1 1 6))
  /\ result_of (GetNextToken unicode_IsLetter (lexer_on (runes "e10") io_EOF))
     = Value (mkToken ILLEGAL (runes "e10") (mkTokenPosition 1 1 3))
  /\ result_of (GetNextToken unicode_IsLetter (lexer_on (runes "01") io_EOF))
     = Value (mkToken EOF (runes "EOF") (mkTokenPosition 1 1 1)).
Proof. repeat split; vm_compute; reflexivity. Qed.



(** C9 -- The slice [Lex] returns holds no EOF token.  [Lex] always comes
    to an end; when it returns, it returns the tokens [GetNextToken] handed
    out before the first EOF token, and that EOF token is left out. *)
Theorem Lex_returns_no_EOF (unicode_IsLetter : rune -> bool) :
  letters_not_space unicode_IsLetter ->
  forall (fs : FileSystem) (filePath : string),
    Lex unicode_IsLetter fs filePath <> NoFuel /\
    forall toks,
      Lex unicode_IsLetter fs filePath = Value toks ->
      Forall (fun t => TokType t <> EOF) toks /\
      forall file,
        fs filePath = inl file ->
        exists lxr1 eof lxr2,
          produces unicode_IsLetter (CreateLexer (bufio_NewReader file)) toks lxr1 /\
          GetNextToken unicode_IsLetter lxr1 = Returns eof lxr2 /\
          TokType eof = EOF.
Proof.
  intros HL fs filePath. unfold Lex, Lex_slice.
  destruct (fs filePath) as [file|err].
  - pose proof (Lex_loop_spec unicode_IsLetter HL
                  (S (List.length (buffered (Reader (CreateLexer (bufio_NewReader file))))))
                  nil_slice (CreateLexer (bufio_NewReader file)) ltac:(lia)) as H.
    destruct (Lex_loop _ _ _ _) as [toks0 lxr'|p|]; simpl.
    + destruct H as (new & lxr1 & eof & Hel & _ & Hprod & Hall & Hlast & Heof).
      split; [discriminate|]. intros toks Ht. injection Ht as <-.
      rewrite Hel. simpl. split; [exact Hall|].
      intros file' Hfile. injection Hfile as <-.
      now exists lxr1, eof, lxr'.
    + split; [discriminate|]. intros toks Ht. discriminate.
    + contradiction.
  - split; [discriminate|]. intros toks Ht. injection Ht as <-.
    split; [constructor|]. intros file Hfile. discriminate.
Qed.

Lemma Lex_returns_no_EOF_witness :
  letters_not_space IsLetter_Latin1 /\
  Lex IsLetter_Latin1 (single_file (runes "[true, 0]")) "list.json"
  = Value [ mkToken LBRACKET (runes "[") (mkTokenPosition 1 1 1);
            mkToken TRUE (runes "true") (mkTokenPosition 1 2 5);
            mkToken COMMA (runes ",") (mkTokenPosition 1 6 6) ] /\
  Forall (fun t => TokType t <> EOF)
         [ mkToken LBRACKET (runes "[") (mkTokenPosition 1 1 1);
           mkToken TRUE (runes "true") (mkTokenPosition 1 2 5);
           mkToken COMMA (runes ",") (mkTokenPosition 1 6 6) ].
Proof.
  split; [exact Latin1_letters_not_space|].
  split; [vm_compute; reflexivity|].
  apply (Lex_returns_no_EOF IsLetter_Latin1 Latin1_letters_not_space
           (single_file (runes "[true, 0]")) "list.json").
  vm_compute. reflexivity.
Defined.

(** C10, as it is stated, fails: the slice [Lex] returns when the file
    cannot be opened is not the slice it returns for an empty file.  The
    first is [[]Token{}], which is not nil; the second is nil. *)
Lemma Lex_open_failure_is_not_nil :
  Lex_slice IsLetter_Latin1
            (fun _ => inr (Err "open missing.json: no such file or directory"))
            "missing.json"
  = Value (slice_of []) /\
  Lex_slice IsLetter_Latin1 (single_file []) "empty.json" = Value nil_slice /\
  Lex_slice IsLetter_Latin1
            (fun _ => inr (Err "open missing.json: no such file or directory"))
            "missing.json"
  <> Lex_slice IsLetter_Latin1 (single_file []) "empty.json".
Proof.
  split; [reflexivity|]. split; [vm_compute; reflexivity|].
  vm_compute. discriminate.
Qed.

(** C10, amended -- When the file cannot be opened, [Lex] returns a slice
    without tokens that is not nil, and nothing else: its result type has
    no place for an error.  The slice holds the same tokens, none, as the
    slice returned for a file that opens and is empty, but that one is nil.
    A nil result is returned exactly when the file opens and no token comes
    before the first EOF token; the slice returned on an open failure is
    the only one without tokens that is not nil. *)
Theorem Lex_open_failure_is_empty (unicode_IsLetter : rune -> bool)
        (fs fs' : FileSystem) (filePath emptyPath : string) (err : error) :
  fs filePath = inr err ->
  fs' emptyPath = inl (mkFile [] io_EOF) ->
  Lex_slice unicode_IsLetter fs filePath = Value (slice_of []) /\
  Lex_slice unicode_IsLetter fs' emptyPath = Value nil_slice /\
  Lex unicode_IsLetter fs filePath = Value [] /\
  Lex unicode_IsLetter fs filePath = Lex unicode_IsLetter fs' emptyPath /\
  (letters_not_space unicode_IsLetter ->
   forall (fs0 : FileSystem) (path : string) (s : slice Token),
     Lex_slice unicode_IsLetter fs0 path = Value s ->
     (is_nil s = true <->
      elements s = [] /\ exists file, fs0 path = inl file)).
Proof.
  intros Hfail Hempty.
  split; [unfold Lex_slice; now rewrite Hfail|].
  split; [unfold Lex_slice; rewrite Hempty; vm_compute; reflexivity|].
  split; [unfold Lex, Lex_slice; now rewrite Hfail|].
  split; [unfold Lex, Lex_slice; rewrite Hfail, Hempty; vm_compute; reflexivity|].
  intros HL fs0 path s. unfold Lex_slice.
  destruct (fs0 path) as [file|err0].
  - pose proof (Lex_loop_spec unicode_IsLetter HL
                  (S (List.length (buffered (Reader (CreateLexer (bufio_NewReader file))))))
                  nil_slice (CreateLexer (bufio_NewReader file)) ltac:(lia)) as H.
    destruct (Lex_loop _ _ _ _) as [toks0 lxr'|p|]; simpl; try discriminate.
    destruct H as (new & lxr1 & eof & _ & Hnil & _).
    intros Hs. injection Hs as <-.
    destruct Hnil as [->|[Hn Hne]].
    + simpl. split; [intros _; split; [reflexivity|now exists file]|reflexivity].
    + rewrite Hn. split; [discriminate|]. intros [He _]. contradiction.
  - intros Hs. injection Hs as <-. simpl.
    split; [discriminate|]. intros [_ [file Hfile]]. discriminate.
Qed.

Lemma Lex_open_failure_is_empty_witness :
  Lex_slice IsLetter_Latin1
            (fun _ => inr (Err "open missing.json: no such file or directory"))
            "missing.json"
  = Value (slice_of []) /\
  Lex_slice IsLetter_Latin1 (single_file []) "empty.json" = Value nil_slice /\
  Lex IsLetter_Latin1
      (fun _ => inr (Err "open missing.json: no such file or directory"))
      "missing.json"
  = Lex IsLetter_Latin1 (single_file []) "empty.json".
Proof.
  pose proof (Lex_open_failure_is_empty IsLetter_Latin1
           (fun _ => inr (Err "open missing.json: no such file or directory"))
           (single_file []) "missing.json" "empty.json"
           (Err "open missing.json: no such file or directory")
           eq_refl eq_refl) as (H1 & H2 & _ & H4 & _).
  exact (conj H1 (conj H2 H4)).
Defined.

(* ------------------------------------------------------------------ *)
(** ** Further properties of the code

    The properties below are read off the code of the package.  Where they
    give the exact token of a call, the cursor is taken to be in range
    ([pos_ok]), as it is all along the token stream of any input of fewer
    runes than the largest [int]. *)

(** What [GetNextToken] does never depends on the rune its reader could
    give back: its first step is a read. *)
Lemma GetNextToken_lastRune (L : rune -> bool) (l : list rune)
      (last last' : option rune) (e : error) (p : LexerPosition) :
  GetNextToken L (mkLexer (mkReader l last e) p)
  = GetNextToken L (mkLexer (mkReader l last' e) p).
Proof.
  unfold GetNextToken, bind, remaining. cbn [Reader buffered].
  simpl GetNextToken_loop. unfold bind at 1 3. destruct p as [line col].
  destruct l as [|r rest].
  - rewrite !advanceReader_nil. reflexivity.
  - rewrite !advanceReader_cons. reflexivity.
Qed.

(** One blank less to skip. *)
Lemma GetNextToken_skip_one (L : rune -> bool) (b : rune) (rest : list rune)
      (last : option rune) (e : error) (p : LexerPosition) :
  is_blank b = true ->
  pos_ok (mkLexer (mkReader (b :: rest) last e) p) = true ->
  GetNextToken L (mkLexer (mkReader (b :: rest) last e) p)
  = GetNextToken L (mkLexer (mkReader rest last e) (cursor_step p b))
  /\ pos_ok (mkLexer (mkReader rest last e) (cursor_step p b)) = true.
Proof.
  intros Hb Hok. destruct p as [line col].
  destruct (pos_ok_advance _ _ _ last _ _ _ Hok) as [E Hok1].
  split.
  - rewrite (GetNextToken_lastRune L rest last (Some b)).
    unfold GetNextToken at 1. unfold bind, remaining. cbn [Reader buffered].
    simpl GetNextToken_loop. unfold bind at 1. rewrite advanceReader_cons.
    unfold is_blank in Hb. unfold cursor_step. cbn [PLine Column].
    destruct ((b =? ch " ") || (b =? tab)) eqn:Hsp.
    + assert (Hn : (b =? newline) = false).
      { apply orb_true_iff in Hsp. destruct Hsp as [H|H];
          apply Z.eqb_eq in H; subst b; reflexivity. }
      rewrite Hn, <- E. reflexivity.
    + simpl in Hb. rewrite Hb. apply Z.eqb_eq in Hb. subst b.
      change (newline =? ch "0") with false. cbv iota.
      unfold bind, resetPosition. cbn [Reader Pos PLine].
      apply pos_ok_iff in Hok. cbn [Pos Reader PLine Column buffered] in Hok.
      rewrite len_cons in Hok. pose proof (len_nonneg rest).
      rewrite int_add_exact by (unfold int_max in *; lia). reflexivity.
  - unfold cursor_step. cbn [PLine Column]. destruct (b =? newline).
    + apply pos_ok_iff in Hok. cbn [Pos Reader PLine Column buffered] in Hok.
      rewrite len_cons in Hok. pose proof (len_nonneg rest).
      apply pos_ok_iff. cbn [Pos Reader PLine Column buffered].
      unfold int_max in *. lia.
    + rewrite <- E. exact Hok1.
Qed.

(** Skipping all the blanks. *)
Lemma GetNextToken_skip_blanks (L : rune -> bool)
      (blanks l : list rune) (last : option rune) (e : error) :
  forall pos,
    forallb is_blank blanks = true ->
    pos_ok (mkLexer (mkReader (blanks ++ l) last e) pos) = true ->
    GetNextToken L (mkLexer (mkReader (blanks ++ l) last e) pos)
    = GetNextToken L (mkLexer (mkReader l last e) (cursor_after pos blanks)).
Proof.
  induction blanks as [|b blanks IH]; intros pos Hb Hok; [reflexivity|].
  simpl in Hb. apply andb_true_iff in Hb. destruct Hb as [Hb Hrest].
  destruct (GetNextToken_skip_one L b (blanks ++ l) last e pos Hb Hok)
    as [Hstep Hok1].
  simpl app. rewrite Hstep. unfold cursor_after. simpl fold_left.
  apply IH; assumption.
Qed.

(** X1 -- Blanks before a token only move the cursor: a call of
    [GetNextToken] on blanks followed by a text does what the call on the
    text does from where the blanks leave the cursor, a space or a tab one
    column further, a newline at column 0 of the next line. *)
Theorem blanks_only_move_cursor (unicode_IsLetter : rune -> bool)
        (blanks l : list rune) (last : option rune) (e : error)
        (pos : LexerPosition) :
  forallb is_blank blanks = true ->
  pos_ok (mkLexer (mkReader (blanks ++ l) last e) pos) = true ->
  GetNextToken unicode_IsLetter (mkLexer (mkReader (blanks ++ l) last e) pos)
  = GetNextToken unicode_IsLetter
      (mkLexer (mkReader l last e) (cursor_after pos blanks)).
Proof. apply GetNextToken_skip_blanks. Qed.

Lemma blanks_only_move_cursor_witness :
  GetNextToken IsLetter_Latin1
    (mkLexer (mkReader (newline :: runes "  " ++ runes "true,") None io_EOF)
             (mkLexerPosition 1 7))
  = GetNextToken IsLetter_Latin1
      (mkLexer (mkReader (runes "true,") None io_EOF) (mkLexerPosition 2 2)).
Proof.
  apply (blanks_only_move_cursor IsLetter_Latin1 (newline :: runes "  ")
           (runes "true,") None io_EOF (mkLexerPosition 1 7));
    reflexivity.
Defined.

(** X2 -- When only blanks are left before the end of the input,
    [GetNextToken] returns the EOF token at the cursor the blanks lead to,
    with equal first and last column, and every further call returns that
    same token and leaves the lexer as it is. *)
Theorem EOF_at_end_of_input (unicode_IsLetter : rune -> bool)
        (blanks : list rune) (last : option rune) (e : error)
        (pos : LexerPosition) :
  forallb is_blank blanks = true ->
  is_EOF e = true ->
  pos_ok (mkLexer (mkReader blanks last e) pos) = true ->
  let p := cursor_after pos blanks in
  let eof := mkToken EOF (runes "EOF")
                     (mkTokenPosition (PLine p) (Column p) (Column p)) in
  let final := mkLexer (mkReader [] None e) p in
  GetNextToken unicode_IsLetter (mkLexer (mkReader blanks last e) pos)
  = Returns eof final
  /\ GetNextToken unicode_IsLetter final = Returns eof final.
Proof.
  intros Hb He Hok p eof final.
  assert (Hend : forall last', GetNextToken unicode_IsLetter
                                 (mkLexer (mkReader [] last' e) p)
                               = Returns eof final).
  { intros last'. unfold GetNextToken, bind, remaining. cbn [Reader buffered].
    simpl GetNextToken_loop. unfold bind. rewrite advanceReader_nil.
    rewrite He. reflexivity. }
  split; [|apply Hend].
  rewrite <- (app_nil_r blanks) in Hok |- *.
  rewrite GetNextToken_skip_blanks by assumption. apply Hend.
Qed.

Lemma EOF_at_end_of_input_witness :
  GetNextToken IsLetter_Latin1
    (mkLexer (mkReader (runes " " ++ [newline; tab]) None io_EOF)
             (mkLexerPosition 3 4))
  = Returns (mkToken EOF (runes "EOF") (mkTokenPosition 4 1 1))
            (mkLexer (mkReader [] None io_EOF) (mkLexerPosition 4 1))
  /\ GetNextToken IsLetter_Latin1
       (mkLexer (mkReader [] None io_EOF) (mkLexerPosition 4 1))
     = Returns (mkToken EOF (runes "EOF") (mkTokenPosition 4 1 1))
               (mkLexer (mkReader [] None io_EOF) (mkLexerPosition 4 1)).
Proof.
  apply (EOF_at_end_of_input IsLetter_Latin1 (runes " " ++ [newline; tab])
           None io_EOF (mkLexerPosition 3 4));
    reflexivity.
Defined.

(** A collecting loop, exactly: it returns the run, leaves what follows
    unread and the cursor as many columns further as the run is long. *)
Lemma scan_loop_exact (stop : rune -> bool) :
  forall (run post : list rune) fuel acc last e line col,
    forallb (fun r : rune => negb (stop r)) run = true ->
    run_ends stop post e = true ->
    pos_ok (mkLexer (mkReader (run ++ post) last e)
                    (mkLexerPosition line col)) = true ->
    (List.length (run ++ post) < fuel)%nat ->
    scan_loop stop fuel acc
      (mkLexer (mkReader (run ++ post) last e) (mkLexerPosition line col))
    = Returns (inl (acc ++ run))
              (mkLexer (mkReader post None e)
                       (mkLexerPosition line (col + len run))).
Proof.
  induction run as [|r run IH]; intros post fuel acc last e line col Hrun Hend Hok Hf;
    (destruct fuel as [|fuel]; [simpl in Hf; lia|]).
  - simpl app in *. rewrite app_nil_r. change (len (@nil rune)) with 0.
    rewrite Z.add_0_r. simpl scan_loop. unfold bind at 1.
    destruct post as [|c post]; simpl in Hend.
    + rewrite advanceReader_nil, Hend. reflexivity.
    + rewrite advanceReader_cons, Hend.
      destruct (pos_ok_backup c post e line col Hok) as [Hc E].
      unfold bind. rewrite backupReader_after_read, Hc, E. reflexivity.
  - simpl in Hrun. apply andb_true_iff in Hrun. destruct Hrun as [Hr Hrun].
    apply negb_true_iff in Hr. simpl app in *.
    simpl scan_loop. unfold bind at 1. rewrite advanceReader_cons, Hr.
    destruct (pos_ok_advance _ _ _ (Some r) _ _ _ Hok) as [E Hok1].
    rewrite E in *.
    rewrite (IH post fuel (acc ++ [r]) (Some r) e line (col + 1) Hrun Hend Hok1)
      by (simpl in Hf; lia).
    rewrite <- app_assoc, len_cons. simpl app.
    do 3 f_equal. lia.
Qed.

Lemma special_false (r : rune) :
  is_special r = false ->
  (r =? ch "0") = false /\ (r =? ch "{") = false /\ (r =? ch "}") = false /\
  (r =? ch "[") = false /\ (r =? ch "]") = false /\ (r =? ch ",") = false /\
  (r =? ch ":") = false /\ (r =? dquote) = false.
Proof.
  unfold is_special. rewrite !orb_false_iff. tauto.
Qed.

(** Where [GetNextToken] goes for a first rune that is no blank and none
    of the runes of its [switch]. *)
Lemma GetNextToken_dispatch (L : rune -> bool) (r : rune) (rest : list rune)
      (last : option rune) (e : error) (line col : Z) :
  is_blank r = false -> is_special r = false ->
  GetNextToken L (mkLexer (mkReader (r :: rest) last e) (mkLexerPosition line col))
  = (if isNumberMaybe r then handleNumberToken r
     else if L r then handleIdentifierToken L r
     else pos <- getPos ;; ret (createToken ILLEGAL pos [r]))
      (mkLexer (mkReader rest (Some r) e) (mkLexerPosition line (int_add col 1))).
Proof.
  intros Hb Hs. unfold is_blank in Hb. rewrite !orb_false_iff in Hb.
  destruct Hb as [[Hsp Htab] Hnl].
  destruct (special_false r Hs) as (H0 & H1 & H2 & H3 & H4 & H5 & H6 & H7).
  unfold GetNextToken. unfold bind at 1. unfold remaining. cbn [Reader buffered].
  simpl GetNextToken_loop. unfold bind at 1. rewrite advanceReader_cons.
  rewrite Hsp, Htab, H0, Hnl, H1, H2, H3, H4, H5, H6, H7. reflexivity.
Qed.

Lemma isNumberMaybe_not_blank (r : rune) :
  isNumberMaybe r = true -> is_blank r = false.
Proof.
  unfold isNumberMaybe, is_blank, tab, newline.
  change (ch "0") with 48. change (ch "9") with 57. change (ch "-") with 45.
  change (ch ".") with 46. change (ch "e") with 101. change (ch "E") with 69.
  change (ch " ") with 32.
  rewrite !orb_true_iff, !andb_true_iff, !Z.leb_le, !Z.eqb_eq.
  rewrite !orb_false_iff, !Z.eqb_neq. lia.
Qed.

Lemma isNumberMaybe_not_special (r : rune) :
  isNumberMaybe r = true -> r <> ch "0" -> is_special r = false.
Proof.
  unfold isNumberMaybe, is_special, dquote.
  change (ch "0") with 48. change (ch "9") with 57. change (ch "-") with 45.
  change (ch ".") with 46. change (ch "e") with 101. change (ch "E") with 69.
  change (ch "{") with 123. change (ch "}") with 125. change (ch "[") with 91.
  change (ch "]") with 93. change (ch ",") with 44. change (ch ":") with 58.
  rewrite !orb_true_iff, !andb_true_iff, !Z.leb_le, !Z.eqb_eq.
  rewrite !orb_false_iff, !Z.eqb_neq. lia.
Qed.

Lemma forallb_number_run (run : list rune) :
  forallb isNumberMaybe run = true ->
  forallb (fun r : rune => negb (stop_number r)) run = true.
Proof.
  induction run as [|r run IH]; [reflexivity|]. simpl.
  rewrite andb_true_iff. intros [Hr Hrun].
  rewrite (isNumberMaybe_not_space r Hr), IH by exact Hrun. reflexivity.
Qed.

(** X3 -- Numbers are scanned by longest match.  A run of the characters
    [isNumberMaybe] admits that does not start with the digit 0 and ends
    at the end of the input or before a rune outside that class comes out
    as one token carrying the whole run: NUM when the run matches the
    number pattern, ILLEGAL when it does not.  The token lies on the
    cursor's line from the column of the first rune to the column of the
    last, and the rune that ended the run is not consumed. *)
Theorem number_run_is_one_token (unicode_IsLetter : rune -> bool)
        (r : rune) (run post : list rune) (last : option rune) (e : error)
        (line col : Z) :
  forallb isNumberMaybe (r :: run) = true ->
  r <> ch "0" ->
  run_ends (fun c => negb (isNumberMaybe c)) post e = true ->
  pos_ok (mkLexer (mkReader (r :: run ++ post) last e)
                  (mkLexerPosition line col)) = true ->
  GetNextToken unicode_IsLetter
    (mkLexer (mkReader (r :: run ++ post) last e) (mkLexerPosition line col))
  = Returns (mkToken (number_type (r :: run)) (r :: run)
                     (mkTokenPosition line (col + 1) (col + len (r :: run))))
            (mkLexer (mkReader post None e)
                     (mkLexerPosition line (col + len (r :: run)))).
Proof.
  intros Hrun H0 Hend Hok.
  assert (Hr : isNumberMaybe r = true)
    by (simpl in Hrun; apply andb_true_iff in Hrun; apply Hrun).
  rewrite GetNextToken_dispatch
    by (auto using isNumberMaybe_not_blank, isNumberMaybe_not_special).
  rewrite Hr. unfold handleNumberToken. unfold bind at 1.
  rewrite backupReader_after_read.
  destruct (pos_ok_backup r (run ++ post) e line col Hok) as [Hc E].
  destruct (pos_ok_advance _ _ _ None _ _ _ Hok) as [E1 _].
  rewrite Hc, E. unfold bind at 1. unfold readNumber.
  unfold bind at 1. unfold getPos. cbn [Pos PLine Column].
  unfold bind at 1. unfold remaining. cbn [Reader buffered].
  unfold bind at 1. rewrite readNumber_loop_scan.
  assert (Hend' : run_ends stop_number post e = true).
  { destruct post as [|c post]; simpl in *; [exact Hend|].
    unfold stop_number. rewrite Hend. apply orb_true_r. }
  rewrite (scan_loop_exact stop_number (r :: run) post _ [] None e line col
             (forallb_number_run _ Hrun) Hend' Hok) by (simpl; lia).
  cbn [app]. rewrite E1.
  assert (Hpos : wrap (col + 1 + len (r :: run) - 1) = col + len (r :: run)).
  { apply pos_ok_iff in Hok. cbn [Pos Reader PLine Column buffered] in Hok.
    change (r :: run ++ post) with ((r :: run) ++ post) in Hok.
    rewrite len_app in Hok. pose proof (len_nonneg post).
    pose proof (len_nonneg (r :: run)).
    replace (col + 1 + len (r :: run) - 1) with (col + len (r :: run)) by lia.
    apply wrap_small. unfold int_max in *. lia. }
  unfold number_type.
  destruct (isValidJSONNumber (r :: run)); cbn [negb]; unfold ret.
  - rewrite createToken_not_EOF by discriminate. cbn [PLine Column].
    rewrite Hpos. reflexivity.
  - rewrite invalid_number_message.
    rewrite createToken_not_EOF by discriminate. cbn [PLine Column].
    rewrite Hpos. reflexivity.
Qed.

Lemma number_run_is_one_token_witness :
  GetNextToken IsLetter_Latin1
    (mkLexer (mkReader (runes "-12.5e3" ++ runes ", 7") None io_EOF)
             (mkLexerPosition 2 4))
  = Returns (mkToken NUM (runes "-12.5e3") (mkTokenPosition 2 5 11))
            (mkLexer (mkReader (runes ", 7") None io_EOF)
                     (mkLexerPosition 2 11)).
Proof.
  apply (number_run_is_one_token IsLetter_Latin1 (ch "-") (runes "12.5e3")
           (runes ", 7") None io_EOF 2 4);
    [reflexivity | discriminate | reflexivity | reflexivity].
Defined.

Lemma Latin1_plain_letters : plain_letters IsLetter_Latin1.
Proof.
  intros r. unfold IsLetter_Latin1, unicode_IsSpace, is_special, dquote.
  change (ch "0") with 48. change (ch "{") with 123. change (ch "}") with 125.
  change (ch "[") with 91. change (ch "]") with 93. change (ch ",") with 44.
  change (ch ":") with 58.
  rewrite !orb_true_iff, !andb_true_iff, !Z.leb_le, !Z.eqb_eq.
  rewrite !orb_false_iff, !andb_false_iff, !Z.leb_gt, !Z.eqb_neq.
  lia.
Qed.

Lemma is_blank_IsSpace (r : rune) :
  is_blank r = true -> unicode_IsSpace r = true.
Proof.
  unfold is_blank, unicode_IsSpace, tab, newline. change (ch " ") with 32.
  rewrite !orb_true_iff, !andb_true_iff, !Z.leb_le, !Z.eqb_eq. lia.
Qed.

Lemma forallb_letter_run (L : rune -> bool) (run : list rune) :
  plain_letters L ->
  forallb L run = true ->
  forallb (fun r : rune => negb (stop_letter L r)) run = true.
Proof.
  intros HL. induction run as [|r run IH]; [reflexivity|]. simpl.
  rewrite andb_true_iff. intros [Hr Hrun].
  unfold stop_letter at 1. destruct (HL r Hr) as [Hsp _].
  rewrite Hsp, Hr, IH by exact Hrun. reflexivity.
Qed.

Lemma identifier_token_keyword (line col : Z) (run : list rune) :
  identifier_token (mkLexerPosition line col) run
  = mkToken (keyword_type run) run
            (mkTokenPosition line col (wrap (col + len run - 1))).
Proof.
  unfold identifier_token, keyword_type.
  destruct (runes_eqb run (runes "true"));
    [now rewrite createToken_not_EOF by discriminate|].
  destruct (runes_eqb run (runes "false"));
    [now rewrite createToken_not_EOF by discriminate|].
  destruct (runes_eqb run (runes "null"));
    now rewrite createToken_not_EOF by discriminate.
Qed.

(** X4 -- Words are scanned by longest match.  A run of letters that does
    not start with e or E and ends at the end of the input or before a
    rune that is no letter comes out as one token carrying the whole run:
    TRUE, FALSE or NULL when the run is exactly that word in lower case,
    ILLEGAL for every other run.  The rune that ended the run is not
    consumed. *)
Theorem letter_run_is_one_token (unicode_IsLetter : rune -> bool)
        (r : rune) (run post : list rune) (last : option rune) (e : error)
        (line col : Z) :
  plain_letters unicode_IsLetter ->
  forallb unicode_IsLetter (r :: run) = true ->
  isNumberMaybe r = false ->
  run_ends (fun c => negb (unicode_IsLetter c)) post e = true ->
  pos_ok (mkLexer (mkReader (r :: run ++ post) last e)
                  (mkLexerPosition line col)) = true ->
  GetNextToken unicode_IsLetter
    (mkLexer (mkReader (r :: run ++ post) last e) (mkLexerPosition line col))
  = Returns (mkToken (keyword_type (r :: run)) (r :: run)
                     (mkTokenPosition line (col + 1) (col + len (r :: run))))
            (mkLexer (mkReader post None e)
                     (mkLexerPosition line (col + len (r :: run)))).
Proof.
  intros HL Hrun Hnum Hend Hok.
  assert (Hr : unicode_IsLetter r = true)
    by (simpl in Hrun; apply andb_true_iff in Hrun; apply Hrun).
  destruct (HL r Hr) as [Hsp Hspec].
  assert (Hb : is_blank r = false).
  { destruct (is_blank r) eqn:Hb; [|reflexivity].
    apply is_blank_IsSpace in Hb. congruence. }
  rewrite GetNextToken_dispatch by assumption.
  rewrite Hnum, Hr. unfold handleIdentifierToken. unfold bind at 1.
  rewrite backupReader_after_read.
  destruct (pos_ok_backup r (run ++ post) e line col Hok) as [Hc E].
  destruct (pos_ok_advance _ _ _ None _ _ _ Hok) as [E1 _].
  rewrite Hc, E. unfold bind at 1. unfold readIdentifier.
  unfold bind at 1. unfold getPos. cbn [Pos PLine Column].
  unfold bind at 1. unfold remaining. cbn [Reader buffered].
  unfold bind at 1. rewrite readIdentifier_loop_scan.
  assert (Hend' : run_ends (stop_letter unicode_IsLetter) post e = true).
  { destruct post as [|c post]; simpl in *; [exact Hend|].
    unfold stop_letter. rewrite Hend. apply orb_true_r. }
  rewrite (scan_loop_exact (stop_letter unicode_IsLetter) (r :: run) post _ []
             None e line col (forallb_letter_run _ _ HL Hrun) Hend' Hok)
    by (simpl; lia).
  cbn [app]. rewrite E1. unfold ret at 1. cbv beta iota.
  rewrite identifier_token_ret, identifier_token_keyword.
  do 3 f_equal.
  apply pos_ok_iff in Hok. cbn [Pos Reader PLine Column buffered] in Hok.
  change (r :: run ++ post) with ((r :: run) ++ post) in Hok.
  rewrite len_app in Hok. pose proof (len_nonneg post).
  pose proof (len_nonneg (r :: run)).
  replace (col + 1 + len (r :: run) - 1) with (col + len (r :: run)) by lia.
  apply wrap_small. unfold int_max in *. lia.
Qed.

Lemma letter_run_is_one_token_witness :
  GetNextToken IsLetter_Latin1
    (mkLexer (mkReader (runes "null" ++ runes "]") None io_EOF)
             (mkLexerPosition 1 9))
  = Returns (mkToken NULL (runes "null") (mkTokenPosition 1 10 13))
            (mkLexer (mkReader (runes "]") None io_EOF)
                     (mkLexerPosition 1 13)).
Proof.
  apply (letter_run_is_one_token IsLetter_Latin1 (ch "n") (runes "ull")
           (runes "]") None io_EOF 1 9);
    [exact Latin1_plain_letters | reflexivity | reflexivity
     | reflexivity | reflexivity].
Defined.

Lemma index_rune_nonempty (acc : list rune) (lxr : Lexer) :
  acc <> [] ->
  index_rune acc (len acc - 1) lxr = Returns (List.last acc 0) lxr.
Proof.
  intros Hne. destruct (exists_last Hne) as (acc' & a & ->).
  rewrite index_rune_last, last_last. reflexivity.
Qed.

(** The loop of [readString] on a text that a double quote closes. *)
Lemma readString_loop_closed :
  forall (content : list rune) (acc post : list rune) fuel last e line col,
    quotes_escaped (List.last acc dquote) content = true ->
    acc ++ content <> [] ->
    ends_with_backslash (acc ++ content) = false ->
    pos_ok (mkLexer (mkReader (content ++ dquote :: post) last e)
                    (mkLexerPosition line col)) = true ->
    (List.length (content ++ dquote :: post) < fuel)%nat ->
    readString_loop fuel acc
      (mkLexer (mkReader (content ++ dquote :: post) last e)
               (mkLexerPosition line col))
    = Returns (inl (acc ++ content))
              (mkLexer (mkReader post (Some dquote) e)
                       (mkLexerPosition line (col + len content + 1))).
Proof.
  induction content as [|r content IH];
    intros acc post fuel last e line col Hq Hne Hbs Hok Hf;
    (destruct fuel as [|fuel]; [simpl in Hf; lia|]).
  - rewrite app_nil_r in *. cbn [app] in *. change (len (@nil rune)) with 0.
    simpl readString_loop. unfold bind at 1. rewrite advanceReader_cons.
    change (dquote =? dquote) with true. cbv iota.
    unfold bind at 1. unfold bind at 1. rewrite index_rune_nonempty by exact Hne.
    unfold ret at 1. unfold ends_with_backslash in Hbs. rewrite Hbs.
    cbn [negb]. unfold ret.
    destruct (pos_ok_advance _ _ _ (Some dquote) _ _ _ Hok) as [E _].
    rewrite E. do 3 f_equal. lia.
  - cbn [app] in *. simpl in Hq. apply andb_true_iff in Hq.
    destruct Hq as [Hr Hq].
    destruct (pos_ok_advance _ _ _ (Some r) _ _ _ Hok) as [E Hok1].
    assert (Hnext :
      readString_loop fuel (acc ++ [r])
        (mkLexer (mkReader (content ++ dquote :: post) (Some r) e)
                 (mkLexerPosition line (int_add col 1)))
      = Returns (inl (acc ++ r :: content))
                (mkLexer (mkReader post (Some dquote) e)
                         (mkLexerPosition line (col + len (r :: content) + 1)))).
    { rewrite E in *.
      rewrite (IH (acc ++ [r]) post fuel (Some r) e line (col + 1)).
      - rewrite <- app_assoc, len_cons. cbn [app]. do 3 f_equal. lia.
      - rewrite last_last. exact Hq.
      - rewrite <- app_assoc. exact Hne.
      - rewrite <- app_assoc. exact Hbs.
      - exact Hok1.
      - simpl in Hf. lia. }
    simpl readString_loop. unfold bind at 1. rewrite advanceReader_cons.
    destruct (r =? dquote) eqn:Hd.
    + simpl in Hr.
      assert (Hacc : acc <> []).
      { intros ->. simpl in Hr. discriminate. }
      unfold bind at 1. unfold bind at 1.
      rewrite index_rune_nonempty by exact Hacc. unfold ret at 1.
      destruct (exists_last Hacc) as (acc' & a & ->).
      rewrite last_last in Hr |- *. rewrite Hr. cbn [negb]. exact Hnext.
    + unfold bind at 1. unfold ret at 1. exact Hnext.
Qed.

(** X5 -- A string literal that is closed comes out as one STR token
    carrying the text between its quotes.  The text is not empty, each
    double quote inside it comes right after a backslash, and it does not
    end with a backslash.  The token lies from the column after the
    opening quote to the column before the closing quote, and the closing
    quote is consumed. *)
Theorem closed_string_is_STR (unicode_IsLetter : rune -> bool)
        (content post : list rune) (last : option rune) (e : error)
        (line col : Z) :
  content <> [] ->
  quotes_escaped dquote content = true ->
  ends_with_backslash content = false ->
  pos_ok (mkLexer (mkReader (dquote :: content ++ dquote :: post) last e)
                  (mkLexerPosition line col)) = true ->
  GetNextToken unicode_IsLetter
    (mkLexer (mkReader (dquote :: content ++ dquote :: post) last e)
             (mkLexerPosition line col))
  = Returns (mkToken STR content
                     (mkTokenPosition line (col + 2) (col + 1 + len content)))
            (mkLexer (mkReader post (Some dquote) e)
                     (mkLexerPosition line (col + len content + 2))).
Proof.
  intros Hne Hq Hbs Hok.
  destruct (pos_ok_advance _ _ _ (Some dquote) _ _ _ Hok) as [E Hok1].
  unfold GetNextToken. unfold bind at 1. unfold remaining. cbn [Reader buffered].
  simpl GetNextToken_loop. unfold bind at 1. rewrite advanceReader_cons.
  change ((dquote =? ch " ") || (dquote =? tab)) with false.
  change (dquote =? ch "0") with false. change (dquote =? newline) with false.
  change (dquote =? ch "{") with false. change (dquote =? ch "}") with false.
  change (dquote =? ch "[") with false. change (dquote =? ch "]") with false.
  change (dquote =? ch ",") with false. change (dquote =? ch ":") with false.
  change (dquote =? dquote) with true. cbv iota.
  unfold handleStringToken, readString. unfold bind at 1. unfold bind at 1.
  unfold getPos. cbn [Pos PLine Column]. unfold bind at 1. unfold remaining.
  cbn [Reader buffered]. unfold bind at 1. rewrite E in *.
  rewrite (readString_loop_closed content [] post _ (Some dquote) e line (col + 1))
    by (auto; simpl; lia).
  cbn [app]. unfold ret.
  apply pos_ok_iff in Hok1. cbn [Pos Reader PLine Column buffered] in Hok1.
  rewrite len_app, len_cons in Hok1. pose proof (len_nonneg post).
  assert (Hlen : 0 < len content).
  { destruct content; [congruence|]. rewrite len_cons.
    pose proof (len_nonneg content). lia. }
  replace (len content =? 0) with false by (symmetry; apply Z.eqb_neq; lia).
  rewrite createToken_not_EOF by discriminate. cbn [PLine Column].
  rewrite int_add_exact by (unfold int_max in *; lia).
  replace (wrap (col + 1 + 1 + len content - 1)) with (col + 1 + len content)
    by (symmetry; replace (col + 1 + 1 + len content - 1)
                    with (col + 1 + len content) by lia;
        apply wrap_small; unfold int_max in *; lia).
  do 3 f_equal; lia.
Qed.

Lemma closed_string_is_STR_witness :
  GetNextToken IsLetter_Latin1
    (mkLexer (mkReader (dquote :: runes "a\" ++ dquote :: runes "b"
                               ++ dquote :: runes ":1")
                       None io_EOF)
             (mkLexerPosition 1 1))
  = Returns (mkToken STR (runes "a\" ++ dquote :: runes "b")
                     (mkTokenPosition 1 3 6))
            (mkLexer (mkReader (runes ":1") (Some dquote) io_EOF)
                     (mkLexerPosition 1 7)).
Proof.
  change (dquote :: runes "a\" ++ dquote :: runes "b" ++ dquote :: runes ":1")
    with (dquote :: (runes "a\" ++ dquote :: runes "b") ++ dquote :: runes ":1").
  apply (closed_string_is_STR IsLetter_Latin1
           (runes "a\" ++ dquote :: runes "b") (runes ":1") None io_EOF 1 1);
    [discriminate | reflexivity | reflexivity | reflexivity].
Defined.

Lemma last_cons_default {A} (acc : list A) (a p : A) :
  List.last (a :: acc) p = List.last acc a.
Proof.
  revert a p. induction acc as [|b acc IH]; intros a p; [reflexivity|].
  change (List.last (a :: b :: acc) p) with (List.last (b :: acc) p).
  now rewrite (IH b p), (IH b a).
Qed.

Lemma quotes_escaped_snoc (p : rune) (acc : list rune) (r : rune) :
  quotes_escaped p (acc ++ [r])
  = quotes_escaped p acc
    && (negb (r =? dquote) || (List.last acc p =? ch "\")).
Proof.
  revert p. induction acc as [|a acc IH]; intros p.
  - simpl. now rewrite andb_true_r.
  - change ((a :: acc) ++ [r]) with (a :: (acc ++ [r])).
    cbn [quotes_escaped]. rewrite IH, andb_assoc, last_cons_default.
    reflexivity.
Qed.

(** What the loop of [readString] collects keeps every double quote right
    after a backslash. *)
Lemma readString_loop_escaped :
  forall fuel acc lxr str lxr',
    readString_loop fuel acc lxr = Returns (inl str) lxr' ->
    quotes_escaped dquote acc = true ->
    quotes_escaped dquote str = true.
Proof.
  induction fuel as [|fuel IH]; intros acc [[l last e] [line col]] str lxr' H Hacc;
    [discriminate|].
  simpl readString_loop in H. unfold bind at 1 in H.
  destruct l as [|r rest].
  - rewrite advanceReader_nil in H. destruct (is_EOF e); inversion H. now subst.
  - rewrite advanceReader_cons in H.
    destruct (r =? dquote) eqn:Hd.
    + destruct acc as [|a acc0] eqn:Ea; [discriminate|]. rewrite <- Ea in *.
      assert (Hne : acc <> []) by (subst acc; discriminate).
      unfold bind at 1 in H. unfold bind at 1 in H.
      rewrite index_rune_nonempty in H by exact Hne. unfold ret at 1 in H.
      destruct (List.last acc 0 =? ch "\") eqn:Hbs; cbn [negb] in H.
      * apply IH in H; [exact H|]. rewrite quotes_escaped_snoc, Hacc.
        replace (List.last acc dquote) with (List.last acc 0)
          by (subst acc; now rewrite !last_cons_default).
        now rewrite Hbs, orb_true_r.
      * inversion H. now subst.
    + unfold bind at 1 in H. unfold ret at 1 in H.
      apply IH in H; [exact H|]. rewrite quotes_escaped_snoc, Hacc, Hd.
      reflexivity.
Qed.

Lemma handleStringToken_fits (r : rune) (lxr : Lexer) (tok : Token)
      (lxr' : Lexer) :
  handleStringToken r lxr = Returns tok lxr' -> lexeme_fits tok = true.
Proof.
  unfold handleStringToken, readString, bind, getPos, remaining.
  destruct (readString_loop _ _ _) as [[str|e] lxr1| |] eqn:Hloop;
    try discriminate.
  - unfold ret. destruct (len str =? 0) eqn:Hz; intros H; inversion H.
    + unfold lexeme_fits. now rewrite createToken_type.
    + unfold lexeme_fits. rewrite createToken_type.
      rewrite createToken_not_EOF by discriminate. cbn [Lexeme].
      rewrite Hz. cbn [negb andb].
      exact (readString_loop_escaped _ _ _ _ _ Hloop eq_refl).
  - unfold ret. intros H; inversion H.
    unfold lexeme_fits. now rewrite createToken_type.
Qed.

Lemma handleNumberToken_fits (r : rune) (lxr : Lexer) (tok : Token)
      (lxr' : Lexer) :
  handleNumberToken r lxr = Returns tok lxr' -> lexeme_fits tok = true.
Proof.
  unfold handleNumberToken. unfold bind at 1.
  destruct (backupReader lxr) as [[] lxr1| |]; try discriminate.
  unfold bind at 1. unfold readNumber, bind, getPos, remaining.
  destruct (readNumber_loop _ _ _) as [[num|e] lxr2| |]; try discriminate.
  - destruct (isValidJSONNumber num) eqn:Hv; cbn [negb]; unfold ret.
    + intros H; inversion H. unfold lexeme_fits. rewrite createToken_type.
      rewrite createToken_not_EOF by discriminate. exact Hv.
    + rewrite invalid_number_message. intros H; inversion H.
      unfold lexeme_fits. now rewrite createToken_type.
  - unfold ret.
    destruct (strings_Contains (Error e) "invalid JSON number");
      intros H; inversion H; unfold lexeme_fits; now rewrite createToken_type.
Qed.

Lemma handleIdentifierToken_fits (L : rune -> bool) (r : rune) (lxr : Lexer)
      (tok : Token) (lxr' : Lexer) :
  handleIdentifierToken L r lxr = Returns tok lxr' -> lexeme_fits tok = true.
Proof.
  unfold handleIdentifierToken. unfold bind at 1.
  destruct (backupReader lxr) as [[] lxr1| |]; try discriminate.
  unfold bind at 1. unfold readIdentifier, bind, getPos, remaining.
  destruct (readIdentifier_loop _ _ _ _) as [[ident|e] lxr2| |];
    try discriminate; unfold ret.
  - destruct (runes_eqb ident (runes "true")) eqn:Ht;
      [intros H; inversion H; unfold lexeme_fits; rewrite createToken_type;
       rewrite createToken_not_EOF by discriminate; exact Ht|].
    destruct (runes_eqb ident (runes "false")) eqn:Hf;
      [intros H; inversion H; unfold lexeme_fits; rewrite createToken_type;
       rewrite createToken_not_EOF by discriminate; exact Hf|].
    destruct (runes_eqb ident (runes "null")) eqn:Hn;
      [intros H; inversion H; unfold lexeme_fits; rewrite createToken_type;
       rewrite createToken_not_EOF by discriminate; exact Hn|].
    intros H; inversion H. unfold lexeme_fits. now rewrite createToken_type.
  - intros H; inversion H. unfold lexeme_fits. now rewrite createToken_type.
Qed.

Lemma EOF_token_fits (pos : LexerPosition) (l : list rune) :
  lexeme_fits (createToken EOF pos l) = true.
Proof.
  unfold lexeme_fits, createToken. cbn. apply Z.eqb_refl.
Qed.

Lemma GetNextToken_loop_fits (L : rune -> bool) :
  forall fuel lxr tok lxr',
    GetNextToken_loop L fuel lxr = Returns tok lxr' ->
    lexeme_fits tok = true.
Proof.
  induction fuel as [|fuel IH]; intros [[l last e] [line col]] tok lxr' H;
    [discriminate|].
  simpl GetNextToken_loop in H. unfold bind at 1 in H.
  destruct l as [|r rest].
  - rewrite advanceReader_nil in H. destruct (is_EOF e); [|discriminate].
    unfold bind, getPos, ret in H. inversion H. apply EOF_token_fits.
  - rewrite advanceReader_cons in H.
    destruct ((r =? ch " ") || (r =? tab)); [exact (IH _ _ _ H)|].
    destruct (r =? ch "0");
      [unfold bind, getPos, ret in H; inversion H; apply EOF_token_fits|].
    destruct (r =? newline);
      [unfold bind at 1 in H; unfold resetPosition in H; exact (IH _ _ _ H)|].
    destruct (r =? ch "{") eqn:E1;
      [apply Z.eqb_eq in E1; subst r; unfold bind, getPos, ret in H;
       inversion H; reflexivity|].
    destruct (r =? ch "}") eqn:E2;
      [apply Z.eqb_eq in E2; subst r; unfold bind, getPos, ret in H;
       inversion H; reflexivity|].
    destruct (r =? ch "[") eqn:E3;
      [apply Z.eqb_eq in E3; subst r; unfold bind, getPos, ret in H;
       inversion H; reflexivity|].
    destruct (r =? ch "]") eqn:E4;
      [apply Z.eqb_eq in E4; subst r; unfold bind, getPos, ret in H;
       inversion H; reflexivity|].
    destruct (r =? ch ",") eqn:E5;
      [apply Z.eqb_eq in E5; subst r; unfold bind, getPos, ret in H;
       inversion H; reflexivity|].
    destruct (r =? ch ":") eqn:E6;
      [apply Z.eqb_eq in E6; subst r; unfold bind, getPos, ret in H;
       inversion H; reflexivity|].
    destruct (r =? dquote); [exact (handleStringToken_fits _ _ _ _ H)|].
    destruct (isNumberMaybe r); [exact (handleNumberToken_fits _ _ _ _ H)|].
    destruct (L r); [exact (handleIdentifierToken_fits _ _ _ _ _ H)|].
    unfold bind, getPos, ret in H. inversion H.
    unfold lexeme_fits. now rewrite createToken_type.
Qed.

(** X6 -- The type of a token tells what its lexeme is.  Whatever the
    input, a structural token carries its one character, TRUE, FALSE and
    NULL carry exactly their word, EOF carries the text EOF and has equal
    first and last column, a NUM token carries a text that the number
    pattern matches, and a STR token carries a text that is not empty and
    in which every double quote comes right after a backslash. *)
Theorem token_lexeme_fits_type (unicode_IsLetter : rune -> bool)
        (lxr : Lexer) (tok : Token) (lxr' : Lexer) :
  GetNextToken unicode_IsLetter lxr = Returns tok lxr' ->
  lexeme_fits tok = true.
Proof.
  unfold GetNextToken, bind, remaining. apply GetNextToken_loop_fits.
Qed.

Lemma token_lexeme_fits_type_witness :
  lexeme_fits (mkToken NUM (runes "12") (mkTokenPosition 1 3 4)) = true.
Proof.
  apply (token_lexeme_fits_type IsLetter_Latin1
           (lexer_on (runes "  12,") io_EOF)
           (mkToken NUM (runes "12") (mkTokenPosition 1 3 4))
           (mkLexer (mkReader (runes ",") None io_EOF) (mkLexerPosition 1 4))).
  vm_compute. reflexivity.
Defined.

(* ------------------------------------------------------------------ *)
(** *** The number pattern *)

Lemma matches_Cat_inv (a b : regex) (s : list rune) :
  matches (Cat a b) s ->
  exists s1 s2, s = s1 ++ s2 /\ matches a s1 /\ matches b s2.
Proof. intros H. inversion H; subst. eauto. Qed.

Lemma matches_Alt_inv (a b : regex) (s : list rune) :
  matches (Alt a b) s -> matches a s \/ matches b s.
Proof. intros H. inversion H; subst; auto. Qed.

Lemma nullable_matches (e : regex) : nullable e = true <-> matches e [].
Proof.
  induction e as [| | c | lo hi | a IHa b IHb | a IHa b IHb | a IHa]; simpl.
  - split; [discriminate | intros H; inversion H].
  - split; [constructor | reflexivity].
  - split; [discriminate | intros H; inversion H].
  - split; [discriminate | intros H; inversion H].
  - rewrite andb_true_iff, IHa, IHb. split.
    + intros [Ha Hb]. exact (matches_Cat a b [] [] Ha Hb).
    + intros H. destruct (matches_Cat_inv _ _ _ H) as (s1 & s2 & E & Ha & Hb).
      symmetry in E. apply app_eq_nil in E. destruct E; subst. auto.
  - rewrite orb_true_iff, IHa, IHb. split.
    + intros [H|H]; [now apply matches_Alt_l | now apply matches_Alt_r].
    + apply matches_Alt_inv.
  - split; [constructor | reflexivity].
Qed.

Lemma matches_Star_cons (a : regex) (r : rune) (s : list rune) :
  matches (Star a) (r :: s) ->
  exists s1 s2, s = s1 ++ s2 /\ matches a (r :: s1) /\ matches (Star a) s2.
Proof.
  intros H. remember (Star a) as e eqn:He. remember (r :: s) as t eqn:Ht.
  revert r s Ht.
  induction H as [| | | | | | |a' s1 s2 H1 _ H2 IH2]; intros x u Ht;
    try discriminate.
  injection He as ->. destruct s1 as [|c s1].
  - simpl in Ht. exact (IH2 eq_refl x u Ht).
  - simpl in Ht. injection Ht as Hc Hu. subst c u. now exists s1, s2.
Qed.

Lemma deriv_matches (e : regex) :
  forall r s, matches (deriv r e) s <-> matches e (r :: s).
Proof.
  induction e as [| | c | lo hi | a IHa b IHb | a IHa b IHb | a IHa];
    intros r s; simpl.
  - split; intros H; inversion H.
  - split; intros H; inversion H.
  - destruct (r =? c) eqn:E; split; intros H; inversion H; subst.
    + apply Z.eqb_eq in E. subst. constructor.
    + constructor.
    + rewrite Z.eqb_refl in E. discriminate.
  - destruct ((lo <=? r) && (r <=? hi)) eqn:E; split; intros H;
      inversion H; subst.
    + apply andb_true_iff in E. rewrite !Z.leb_le in E. now constructor.
    + constructor.
    + apply andb_false_iff in E. rewrite !Z.leb_gt in E. lia.
  - assert (Hcat : matches (Cat (deriv r a) b) s ->
                   matches (Cat a b) (r :: s)).
    { intros H. destruct (matches_Cat_inv _ _ _ H) as (s1 & s2 & -> & Ha & Hb).
      apply IHa in Ha. exact (matches_Cat a b (r :: s1) s2 Ha Hb). }
    assert (Hinv : matches (Cat a b) (r :: s) ->
                   matches (Cat (deriv r a) b) s
                   \/ (matches a [] /\ matches b (r :: s))).
    { intros H. destruct (matches_Cat_inv _ _ _ H) as (s1 & s2 & E & Ha & Hb).
      destruct s1 as [|c s1]; simpl in E.
      - right. subst. auto.
      - injection E as Hc Hs. subst c s. left.
        apply matches_Cat; [now apply IHa|exact Hb]. }
    destruct (nullable a) eqn:Hn.
    + split.
      * intros H. destruct (matches_Alt_inv _ _ _ H) as [H1|H1];
          [now apply Hcat|].
        apply nullable_matches in Hn. apply IHb in H1.
        exact (matches_Cat a b [] (r :: s) Hn H1).
      * intros H. destruct (Hinv H) as [H1|[_ H1]];
          [now apply matches_Alt_l | apply matches_Alt_r; now apply IHb].
    + split; [exact Hcat|].
      intros H. destruct (Hinv H) as [H1|[H1 _]]; [exact H1|].
      apply nullable_matches in H1. congruence.
  - split; intros H; destruct (matches_Alt_inv _ _ _ H) as [H1|H1].
    + apply matches_Alt_l. now apply IHa.
    + apply matches_Alt_r. now apply IHb.
    + apply matches_Alt_l. now apply IHa.
    + apply matches_Alt_r. now apply IHb.
  - split.
    + intros H. destruct (matches_Cat_inv _ _ _ H) as (s1 & s2 & -> & Ha & Hb).
      apply IHa in Ha. exact (matches_Star_app a (r :: s1) s2 Ha Hb).
    + intros H. destruct (matches_Star_cons a r s H) as (s1 & s2 & -> & Ha & Hs).
      apply matches_Cat; [now apply IHa|exact Hs].
Qed.

(** [MatchString] decides whether the pattern matches the whole text. *)
Lemma MatchString_matches (s : list rune) :
  forall e, MatchString e s = true <-> matches e s.
Proof.
  induction s as [|r s IH]; intros e; simpl.
  - apply nullable_matches.
  - rewrite IH. apply deriv_matches.
Qed.

Lemma matches_Cat_iff (a b : regex) (s : list rune) :
  matches (Cat a b) s
  <-> exists s1 s2, s = s1 ++ s2 /\ matches a s1 /\ matches b s2.
Proof.
  split; [apply matches_Cat_inv|].
  intros (s1 & s2 & -> & Ha & Hb). now apply matches_Cat.
Qed.

Lemma matches_Alt_iff (a b : regex) (s : list rune) :
  matches (Alt a b) s <-> matches a s \/ matches b s.
Proof.
  split; [apply matches_Alt_inv|].
  intros [H|H]; [now apply matches_Alt_l | now apply matches_Alt_r].
Qed.

Lemma matches_Eps_iff (s : list rune) : matches Eps s <-> s = [].
Proof. split; intros H; [now inversion H | subst; constructor]. Qed.

Lemma matches_Lit_iff (c : rune) (s : list rune) :
  matches (Lit c) s <-> s = [c].
Proof. split; intros H; [now inversion H | subst; constructor]. Qed.

Lemma matches_Range_iff (lo hi : rune) (s : list rune) :
  matches (Range lo hi) s <-> exists r, s = [r] /\ lo <= r <= hi.
Proof.
  split.
  - intros H. inversion H; subst. eauto.
  - intros (r & -> & H). now constructor.
Qed.

Lemma matches_Opt_iff (a : regex) (s : list rune) :
  matches (Opt a) s <-> s = [] \/ matches a s.
Proof.
  unfold Opt. rewrite matches_Alt_iff, matches_Eps_iff. tauto.
Qed.

Lemma matches_Star_digit (s : list rune) :
  matches (Star digit) s <-> digits s.
Proof.
  split.
  - intros H. remember (Star digit) as e eqn:He.
    induction H as [| | | | | | |a s1 s2 H1 _ H2 IH2]; try discriminate.
    + constructor.
    + injection He as ->. apply matches_Range_iff in H1.
      destruct H1 as (r & -> & Hr). constructor; [exact Hr|].
      now apply IH2.
  - intros H. induction H as [|r s Hr _ IH]; [constructor|].
    apply (matches_Star_app digit [r] s); [now constructor|exact IH].
Qed.

Lemma matches_Plus_digit (s : list rune) :
  matches (Plus digit) s <-> s <> [] /\ digits s.
Proof.
  unfold Plus. rewrite matches_Cat_iff. split.
  - intros (s1 & s2 & -> & H1 & H2). apply matches_Range_iff in H1.
    destruct H1 as (r & -> & Hr). apply matches_Star_digit in H2.
    split; [discriminate|]. now constructor.
  - intros [Hne H]. destruct H as [|r s Hr Hs]; [now contradiction Hne|].
    exists [r], s. split; [reflexivity|].
    split; [now constructor | now apply matches_Star_digit].
Qed.

Lemma sign_matches (s : list rune) :
  matches (Opt (Lit (ch "-"))) s <-> sign_part s.
Proof. rewrite matches_Opt_iff, matches_Lit_iff. reflexivity. Qed.

Lemma int_matches (s : list rune) :
  matches (Alt (Lit (ch "0")) (Cat (Range (ch "1") (ch "9")) (Star digit))) s
  <-> int_part s.
Proof.
  rewrite matches_Alt_iff, matches_Lit_iff, matches_Cat_iff. unfold int_part.
  split; (intros [H|H]; [now left|right]).
  - destruct H as (s1 & s2 & -> & H1 & H2). apply matches_Range_iff in H1.
    destruct H1 as (d & -> & Hd). apply matches_Star_digit in H2.
    now exists d, s2.
  - destruct H as (d & ds & -> & Hd & Hds). exists [d], ds.
    split; [reflexivity|].
    split; [now constructor | now apply matches_Star_digit].
Qed.

Lemma frac_matches (s : list rune) :
  matches (Opt (Cat (Lit (ch ".")) (Plus digit))) s <-> frac_part s.
Proof.
  rewrite matches_Opt_iff, matches_Cat_iff. unfold frac_part.
  split; (intros [H|H]; [now left|right]).
  - destruct H as (s1 & s2 & -> & H1 & H2). apply matches_Lit_iff in H1.
    subst s1. apply matches_Plus_digit in H2. now exists s2.
  - destruct H as (ds & -> & Hne & Hds). exists [ch "."], ds.
    split; [reflexivity|].
    split; [constructor | now apply matches_Plus_digit].
Qed.

Lemma exp_matches (s : list rune) :
  matches (Opt (Cat (Alt (Lit (ch "e")) (Lit (ch "E")))
               (Cat (Opt (Alt (Lit (ch "+")) (Lit (ch "-"))))
                    (Plus digit)))) s
  <-> exp_part s.
Proof.
  rewrite matches_Opt_iff, matches_Cat_iff. unfold exp_part.
  split; (intros [H|H]; [now left|right]).
  - destruct H as (s1 & s2 & -> & H1 & H2).
    apply matches_Alt_iff in H1. rewrite !matches_Lit_iff in H1.
    apply matches_Cat_iff in H2. destruct H2 as (sg & ds & -> & Hsg & Hds).
    apply matches_Opt_iff in Hsg. rewrite matches_Alt_iff, !matches_Lit_iff in Hsg.
    apply matches_Plus_digit in Hds. destruct Hds as [Hne Hds].
    destruct H1 as [-> | ->];
      [exists (ch "e"), sg, ds | exists (ch "E"), sg, ds];
      (split; [reflexivity|]); (split; [auto|]); (split; [tauto|]); auto.
  - destruct H as (m & sg & ds & -> & Hm & Hsg & Hne & Hds).
    exists [m], (sg ++ ds). split; [reflexivity|]. split.
    + apply matches_Alt_iff. rewrite !matches_Lit_iff.
      destruct Hm as [-> | ->]; auto.
    + apply matches_Cat. 
      * apply matches_Opt_iff. rewrite matches_Alt_iff, !matches_Lit_iff. tauto.
      * now apply matches_Plus_digit.
Qed.

(** X7 -- [isValidJSONNumber] accepts exactly the texts of the JSON number
    grammar: an optional minus sign; then a single 0, or a digit from 1 to
    9 followed by any digits; then, optionally, a dot and at least one
    digit; then, optionally, e or E, an optional sign and at least one
    digit.  Nothing may come before or after. *)
Theorem isValidJSONNumber_iff_json_number (s : list rune) :
  isValidJSONNumber s = true <-> json_number s.
Proof.
  unfold isValidJSONNumber. rewrite MatchString_matches.
  unfold jsonNumberPattern, json_number. rewrite matches_Cat_iff. split.
  - intros (sg & t1 & -> & Hsg & H1).
    apply matches_Cat_iff in H1. destruct H1 as (i & t2 & -> & Hi & H2).
    apply matches_Cat_iff in H2. destruct H2 as (f & x & -> & Hf & Hx).
    exists sg, i, f, x. split; [reflexivity|].
    split; [now apply sign_matches|]. split; [now apply int_matches|].
    split; [now apply frac_matches | now apply exp_matches].
  - intros (sg & i & f & x & -> & Hsg & Hi & Hf & Hx).
    exists sg, (i ++ f ++ x). split; [reflexivity|].
    split; [now apply sign_matches|].
    apply matches_Cat; [now apply int_matches|].
    apply matches_Cat; [now apply frac_matches | now apply exp_matches].
Qed.

(* ------------------------------------------------------------------ *)
(** *** Looking ahead *)

(** X8 -- Looking one rune ahead does not consume it.  Whenever
    [advanceReader] would read a rune, [peekForward] without argument
    returns that rune, leaves the cursor where it is, and the
    [advanceReader] that follows reads the same rune and ends in the same
    state as without the look ahead.  At the end of the input
    [peekForward] returns the reader's error. *)
Theorem peekForward_then_advance (lxr : Lexer) :
  (forall r lxr1,
      advanceReader lxr = Returns (r, None) lxr1 ->
      exists lxr',
        peekForward [] lxr = Returns (r, None) lxr' /\
        Pos lxr' = Pos lxr /\
        buffered (Reader lxr') = buffered (Reader lxr) /\
        advanceReader lxr' = Returns (r, None) lxr1)
  /\ (buffered (Reader lxr) = [] ->
      exists lxr',
        peekForward [] lxr = Returns (0, Some (srcErr (Reader lxr))) lxr' /\
        Pos lxr' = Pos lxr).
Proof.
  destruct lxr as [[l last e] [line col]]. split.
  - intros r lxr1 H. destruct l as [|c rest].
    + rewrite advanceReader_nil in H. discriminate.
    + rewrite advanceReader_cons in H. inversion H; subst.
      eexists. split; [reflexivity|]. cbn.
      repeat split; reflexivity.
  - cbn. intros ->. eexists. split; reflexivity.
Qed.

Lemma peekForward_then_advance_witness :
  exists lxr',
    peekForward [] (lexer_on (runes "ab") io_EOF) = Returns (ch "a", None) lxr' /\
    Pos lxr' = Pos (lexer_on (runes "ab") io_EOF) /\
    buffered (Reader lxr') = buffered (Reader (lexer_on (runes "ab") io_EOF)) /\
    advanceReader lxr'
    = Returns (ch "a", None)
              (mkLexer (mkReader (runes "b") (Some (ch "a")) io_EOF)
                       (mkLexerPosition 1 1)).
Proof.
  apply (proj1 (peekForward_then_advance (lexer_on (runes "ab") io_EOF))).
  vm_compute. reflexivity.
Defined.

Lemma peekForward_read_enough :
  forall (n : nat) (l : list rune) c r0 last e,
    (n <= List.length l)%nat ->
    exists x,
      peekForward_read (S n) r0 (mkReader (c :: l) last e)
      = (inl x, mkReader (skipn n l) (Some x) e) /\
      skipn n (c :: l) = x :: skipn n l.
Proof.
  induction n as [|n IH]; intros l c r0 last e Hn.
  - exists c. split; reflexivity.
  - destruct l as [|d l]; [simpl in Hn; lia|].
    destruct (IH l d c (Some c) e ltac:(simpl in Hn; lia)) as (x & Hx & Hs).
    exists x. split; [|exact Hs].
    change (peekForward_read (S (S n)) r0 (mkReader (c :: d :: l) last e))
      with (peekForward_read (S n) c (mkReader (d :: l) (Some c) e)).
    exact Hx.
Qed.

Lemma peekForward_read_short :
  forall (n : nat) (l : list rune) r0 last e,
    (List.length l < n)%nat ->
    peekForward_read n r0 (mkReader l last e) = (inr e, mkReader [] None e).
Proof.
  induction n as [|n IH]; intros l r0 last e Hn; [lia|].
  destruct l as [|c l]; [reflexivity|].
  change (peekForward_read (S n) r0 (mkReader (c :: l) last e))
    with (peekForward_read n c (mkReader l (Some c) e)).
  apply IH. simpl in Hn. lia.
Qed.

(** X9 -- Looking more than one rune ahead never returns a rune.  With
    [numSteps] at least 2, [peekForward] ends in an error either way: the
    reader's own error when fewer than [numSteps] runes are left, and
    otherwise the error of the second [UnreadRune], since the reader gives
    back one rune only.  The cursor is put back, but the reader is not:
    all but one of the runes read are lost. *)
Theorem peekForward_many_fails (n : Z) (rest : list Z) (lxr : Lexer) :
  2 <= n ->
  exists err lxr',
    peekForward (n :: rest) lxr = Returns (0, Some err) lxr' /\
    Pos lxr' = Pos lxr /\
    (n <= len (buffered (Reader lxr)) ->
     err = ErrInvalidUnreadRune /\
     buffered (Reader lxr')
     = skipn (Z.to_nat n - 1) (buffered (Reader lxr))) /\
    (len (buffered (Reader lxr)) < n ->
     err = srcErr (Reader lxr) /\ buffered (Reader lxr') = []).
Proof.
  intros Hn. destruct lxr as [[l last e] pos]. unfold peekForward.
  cbn [Reader Pos buffered srcErr].
  destruct (Z.to_nat n) as [|[|k]] eqn:En; [lia|lia|].
  destruct (Nat.le_gt_cases (S (S k)) (List.length l)) as [Hlen|Hlen].
  - destruct l as [|c l]; [simpl in Hlen; lia|].
    destruct (peekForward_read_enough (S k) l c 0 last e ltac:(simpl in Hlen; lia))
      as (x & Hx & Hs).
    rewrite Hx. cbn [peekForward_unread UnreadRune lastRune buffered srcErr].
    eexists _, _. split; [reflexivity|]. split; [reflexivity|].
    split.
    + intros _. split; [reflexivity|].
      cbn [Reader buffered]. replace (S (S k) - 1)%nat with (S k) by lia.
      symmetry. exact Hs.
    + intros H. exfalso. unfold len in H. lia.
  - rewrite peekForward_read_short by exact Hlen.
    eexists _, _. split; [reflexivity|]. split; [reflexivity|].
    split.
    + intros H. exfalso. unfold len in H. lia.
    + intros _. split; reflexivity.
Qed.

Lemma peekForward_many_fails_witness :
  exists err lxr',
    peekForward [2] (lexer_on (runes "abc") io_EOF) = Returns (0, Some err) lxr' /\
    Pos lxr' = Pos (lexer_on (runes "abc") io_EOF) /\
    (2 <= len (buffered (Reader (lexer_on (runes "abc") io_EOF))) ->
     err = ErrInvalidUnreadRune /\
     buffered (Reader lxr')
     = skipn (Z.to_nat 2 - 1) (buffered (Reader (lexer_on (runes "abc") io_EOF)))) /\
    (len (buffered (Reader (lexer_on (runes "abc") io_EOF))) < 2 ->
     err = srcErr (Reader (lexer_on (runes "abc") io_EOF)) /\
     buffered (Reader lxr') = []).
Proof.
  apply (peekForward_many_fails 2 [] (lexer_on (runes "abc") io_EOF)). lia.
Defined.

(* ------------------------------------------------------------------ *)
(** *** The cursor, the stream and the test *)

(** X10 -- [backupReader] undoes one [advanceReader] and no more.  After a
    read, backing up restores the text to read and the cursor, and reading
    again returns the same rune.  A second backing up in a row has nothing
    to give back: at column 0 it does nothing, at any other column the
    reader refuses and the call panics. *)
Theorem advance_backup_round_trip (lxr : Lexer) (r : rune) (lxr1 : Lexer) :
  pos_ok lxr = true ->
  advanceReader lxr = Returns (r, None) lxr1 ->
  exists lxr2,
    backupReader lxr1 = Returns tt lxr2 /\
    buffered (Reader lxr2) = buffered (Reader lxr) /\
    Pos lxr2 = Pos lxr /\
    advanceReader lxr2 = Returns (r, None) lxr1 /\
    (0 < Column (Pos lxr) ->
     backupReader lxr2 = Panics (PanicError ErrInvalidUnreadRune)) /\
    (Column (Pos lxr) = 0 -> backupReader lxr2 = Returns tt lxr2).
Proof.
  destruct lxr as [[l last e] [line col]]. intros Hok H.
  destruct l as [|c rest].
  - rewrite advanceReader_nil in H. discriminate.
  - rewrite advanceReader_cons in H. inversion H; subst.
    destruct (pos_ok_backup r rest e line col Hok) as [Hc E].
    rewrite backupReader_after_read, Hc, E.
    eexists. split; [reflexivity|]. cbn [Reader Pos buffered Column].
    split; [reflexivity|]. split; [reflexivity|].
    split; [apply advanceReader_cons|].
    unfold backupReader. cbn [Reader Pos Column lastRune UnreadRune].
    split.
    + intros Hpos. apply Z.ltb_lt in Hpos. rewrite Hpos. reflexivity.
    + intros ->. reflexivity.
Qed.

Lemma advance_backup_round_trip_witness :
  exists lxr2,
    backupReader (mkLexer (mkReader (runes "b") (Some (ch "a")) io_EOF)
                          (mkLexerPosition 1 4))
    = Returns tt lxr2 /\
    buffered (Reader lxr2) = runes "ab" /\
    Pos lxr2 = mkLexerPosition 1 3 /\
    advanceReader lxr2
    = Returns (ch "a", None)
              (mkLexer (mkReader (runes "b") (Some (ch "a")) io_EOF)
                       (mkLexerPosition 1 4)) /\
    (0 < 3 -> backupReader lxr2 = Panics (PanicError ErrInvalidUnreadRune)) /\
    (3 = 0 -> backupReader lxr2 = Returns tt lxr2).
Proof.
  apply (advance_backup_round_trip
           (mkLexer (mkReader (runes "ab") None io_EOF) (mkLexerPosition 1 3))
           (ch "a")
           (mkLexer (mkReader (runes "b") (Some (ch "a")) io_EOF)
                    (mkLexerPosition 1 4)));
    [reflexivity | vm_compute; reflexivity].
Defined.

Lemma Lex_loop_complete (L : rune -> bool) :
  letters_not_space L ->
  forall lxr toks lxr1,
    produces L lxr toks lxr1 ->
    Forall (fun t => TokType t <> EOF) toks ->
    forall eof lxr2,
      GetNextToken L lxr1 = Returns eof lxr2 ->
      TokType eof = EOF ->
      forall fuel acc,
        (List.length (buffered (Reader lxr)) < fuel)%nat ->
        result_map elements (result_of (Lex_loop L fuel acc lxr))
        = Value (elements acc ++ toks).
Proof.
  intros HL lxr toks lxr1 Hprod.
  induction Hprod as [lxr|lxr tok lxr' toks lxr1 Hnext Hprod IH];
    intros Hall eof lxr2 Hlast Heof fuel acc Hf;
    (destruct fuel as [|fuel]; [lia|]); simpl Lex_loop; unfold bind.
  - rewrite Hlast. apply TokenType_eqb_EOF in Heof. rewrite Heof.
    unfold ret. simpl. now rewrite app_nil_r.
  - rewrite Hnext. inversion Hall as [|t ts Ht Hts]; subst.
    destruct (TokenType_eqb (TokType tok) EOF) eqn:E;
      [apply TokenType_eqb_EOF in E; contradiction|].
    pose proof (GetNextToken_spec L lxr) as Hspec. rewrite Hnext in Hspec.
    simpl in Hspec. destruct Hspec as (_ & _ & Hprog & _).
    specialize (Hprog HL Ht).
    rewrite (IH Hts eof lxr2 Hlast Heof fuel (slice_append acc tok)) by lia.
    simpl. now rewrite <- app_assoc.
Qed.

(** X11 -- [Lex] returns exactly the tokens before the first EOF token:
    whenever the calls of [GetNextToken] on the opened file hand out a
    sequence of tokens other than EOF and then an EOF token, [Lex] returns
    that sequence, without panic and whatever comes after the EOF token. *)
Theorem Lex_is_tokens_before_EOF (unicode_IsLetter : rune -> bool)
        (fs : FileSystem) (filePath : string) (file : File)
        (toks : list Token) (lxr1 : Lexer) (eof : Token) (lxr2 : Lexer) :
  letters_not_space unicode_IsLetter ->
  fs filePath = inl file ->
  produces unicode_IsLetter (CreateLexer (bufio_NewReader file)) toks lxr1 ->
  Forall (fun t => TokType t <> EOF) toks ->
  GetNextToken unicode_IsLetter lxr1 = Returns eof lxr2 ->
  TokType eof = EOF ->
  Lex unicode_IsLetter fs filePath = Value toks.
Proof.
  intros HL Hfile Hprod Hall Hlast Heof. unfold Lex, Lex_slice. rewrite Hfile.
  cbv zeta.
  rewrite (Lex_loop_complete unicode_IsLetter HL _ _ _ Hprod Hall eof lxr2
             Hlast Heof _ nil_slice) by lia.
  reflexivity.
Qed.

Lemma Lex_is_tokens_before_EOF_witness :
  Lex IsLetter_Latin1 (single_file (runes "{}")) "object.json"
  = Value [ mkToken LBRACE (runes "{") (mkTokenPosition 1 1 1);
            mkToken RBRACE (runes "}") (mkTokenPosition 1 2 2) ].
Proof.
  apply (Lex_is_tokens_before_EOF IsLetter_Latin1 (single_file (runes "{}"))
           "object.json" (mkFile (runes "{}") io_EOF)
           [ mkToken LBRACE (runes "{") (mkTokenPosition 1 1 1);
             mkToken RBRACE (runes "}") (mkTokenPosition 1 2 2) ]
           (mkLexer (mkReader [] (Some (ch "}")) io_EOF) (mkLexerPosition 1 2))
           (mkToken EOF (runes "EOF") (mkTokenPosition 1 2 2))
           (mkLexer (mkReader [] None io_EOF) (mkLexerPosition 1 2))).
  - exact Latin1_letters_not_space.
  - reflexivity.
  - econstructor; [vm_compute; reflexivity|].
    econstructor; [vm_compute; reflexivity | constructor].
  - repeat constructor; discriminate.
  - vm_compute. reflexivity.
  - reflexivity.
Defined.

(** X12 -- The test of the package passes: on each of its seven inputs
    the calls of [GetNextToken] return the expected tokens, with the
    expected lexemes and positions, and then EOF; no failure is reported
    and no call panics. *)
Theorem TestGetNextToken_passes : TestGetNextToken IsLetter_Latin1 = Value [].
Proof. vm_compute. reflexivity. Qed.

(* ------------------------------------------------------------------ *)
(** *** What is left to read *)

Section Preserved.

(** A property of the lexer that the three cursor primitives keep is kept
    by every function of the lexer built from them. *)
Variable Inv : Lexer -> Prop.
Hypothesis Inv_advanceReader : preserves Inv advanceReader.
Hypothesis Inv_backupReader : preserves Inv backupReader.
Hypothesis Inv_resetPosition : preserves Inv resetPosition.

Lemma preserves_ret {A} (a : A) : preserves Inv (ret a).
Proof.
  intros lxr a' lxr' H E. unfold ret in E. injection E as _ El.
  now rewrite <- El.
Qed.

Lemma preserves_bind {A B} (c : M A) (k : A -> M B) :
  preserves Inv c -> (forall a, preserves Inv (k a)) -> preserves Inv (bind c k).
Proof.
  intros Hc Hk lxr b lxr' H E. unfold bind in E.
  destruct (c lxr) as [a lxr1| |] eqn:Ec; try discriminate.
  exact (Hk a lxr1 b lxr' (Hc lxr a lxr1 H Ec) E).
Qed.

Lemma preserves_getPos : preserves Inv getPos.
Proof.
  intros lxr a lxr' H E. unfold getPos in E. injection E as _ El.
  now rewrite <- El.
Qed.

Lemma preserves_remaining : preserves Inv remaining.
Proof.
  intros lxr a lxr' H E. unfold remaining in E. injection E as _ El.
  now rewrite <- El.
Qed.

Lemma preserves_panic {A} p : preserves Inv (@panic A p).
Proof. intros lxr a lxr' H E. discriminate. Qed.

Lemma preserves_out_of_fuel {A} : preserves Inv (@out_of_fuel A).
Proof. intros lxr a lxr' H E. discriminate. Qed.

Lemma preserves_index_rune s i : preserves Inv (index_rune s i).
Proof.
  unfold index_rune. destruct ((0 <=? i) && (i <? len s));
    [apply preserves_ret | apply preserves_panic].
Qed.

Create HintDb preserves.

#[local] Hint Resolve preserves_ret preserves_getPos preserves_remaining
  preserves_panic preserves_out_of_fuel preserves_index_rune
  Inv_advanceReader Inv_backupReader Inv_resetPosition : preserves.

Ltac preserves_step :=
  repeat first
    [ solve [auto with preserves]
    | apply preserves_bind; [|intros ?]
    | match goal with
      | |- preserves _ (match ?x with _ => _ end) => destruct x
      | |- preserves _ (if ?b then _ else _) => destruct b
      end ].

Lemma preserves_readNumber_loop :
  forall fuel num, preserves Inv (readNumber_loop fuel num).
Proof.
  induction fuel as [|fuel IH]; intros num; simpl; preserves_step; apply IH.
Qed.

Lemma preserves_readString_loop :
  forall fuel str, preserves Inv (readString_loop fuel str).
Proof.
  induction fuel as [|fuel IH]; intros str; simpl; preserves_step; apply IH.
Qed.

Lemma preserves_readIdentifier_loop L :
  forall fuel ident, preserves Inv (readIdentifier_loop L fuel ident).
Proof.
  induction fuel as [|fuel IH]; intros ident; simpl; preserves_step; apply IH.
Qed.

Lemma preserves_handleNumberToken r : preserves Inv (handleNumberToken r).
Proof.
  unfold handleNumberToken, readNumber. preserves_step.
  apply preserves_readNumber_loop.
Qed.

Lemma preserves_handleStringToken r : preserves Inv (handleStringToken r).
Proof.
  unfold handleStringToken, readString. preserves_step.
  apply preserves_readString_loop.
Qed.

Lemma preserves_handleIdentifierToken L r :
  preserves Inv (handleIdentifierToken L r).
Proof.
  unfold handleIdentifierToken, readIdentifier. preserves_step.
  apply preserves_readIdentifier_loop.
Qed.

#[local] Hint Resolve preserves_handleNumberToken preserves_handleStringToken
  preserves_handleIdentifierToken : preserves.

Lemma preserves_GetNextToken_loop L :
  forall fuel, preserves Inv (GetNextToken_loop L fuel).
Proof.
  induction fuel as [|fuel IH]; cbn [GetNextToken_loop]; preserves_step.
Qed.

Lemma preserves_GetNextToken L : preserves Inv (GetNextToken L).
Proof.
  unfold GetNextToken. apply preserves_bind; [apply preserves_remaining|].
  intros n. apply preserves_GetNextToken_loop.
Qed.

End Preserved.

Lemma reads_from_advanceReader orig :
  preserves (reads_from orig) advanceReader.
Proof.
  intros [[l last e] [line col]] a lxr' (pre & Ho & Hl) E.
  cbn [Reader buffered lastRune] in Ho, Hl.
  destruct l as [|r rest].
  - rewrite advanceReader_nil in E. injection E as _ El. rewrite <- El.
    exists pre. split; [exact Ho|exact I].
  - rewrite advanceReader_cons in E. injection E as _ El. rewrite <- El.
    exists (pre ++ [r]). cbn [Reader buffered lastRune].
    split; [now rewrite <- app_assoc|]. now exists pre.
Qed.

Lemma reads_from_backupReader orig :
  preserves (reads_from orig) backupReader.
Proof.
  intros [[l last e] [line col]] a lxr' (pre & Ho & Hl) E.
  cbn [Reader buffered lastRune] in Ho, Hl.
  unfold backupReader in E. cbn [Pos Column Reader] in E.
  destruct (0 <? col).
  - unfold UnreadRune in E. cbn [lastRune buffered srcErr] in E.
    destruct last as [r|]; [|discriminate]. injection E as _ El.
    rewrite <- El. destruct Hl as (pre' & Hpre). exists pre'.
    cbn [Reader buffered lastRune].
    split; [now rewrite Ho, Hpre, <- app_assoc|exact I].
  - injection E as _ El. rewrite <- El. exists pre. split; assumption.
Qed.

Lemma reads_from_resetPosition orig :
  preserves (reads_from orig) resetPosition.
Proof.
  intros lxr a lxr' H E. unfold resetPosition in E. injection E as _ El.
  rewrite <- El. exact H.
Qed.

(** X13 -- [GetNextToken] goes through the input once, from left to right.
    What is left to read after a call is an end piece of what was left
    before it, so nothing is read twice and nothing is put back that was
    not there; the reader's end condition is kept; and a token other than
    EOF has consumed at least one rune. *)
Theorem remaining_input_is_suffix (unicode_IsLetter : rune -> bool)
        (lxr : Lexer) (tok : Token) (lxr' : Lexer) :
  GetNextToken unicode_IsLetter lxr = Returns tok lxr' ->
  srcErr (Reader lxr') = srcErr (Reader lxr) /\
  exists consumed,
    buffered (Reader lxr) = consumed ++ buffered (Reader lxr') /\
    (letters_not_space unicode_IsLetter -> TokType tok <> EOF ->
     consumed <> []).
Proof.
  intros H. pose proof (GetNextToken_spec unicode_IsLetter lxr) as Hspec.
  rewrite H in Hspec. simpl in Hspec. destruct Hspec as (Herr & _ & Hprog & _).
  split; [exact Herr|].
  destruct lxr as [[l last e] pos].
  rewrite (GetNextToken_lastRune unicode_IsLetter l last None) in H.
  unfold GetNextToken, bind, remaining in H.
  apply (preserves_GetNextToken_loop (reads_from l)
           (reads_from_advanceReader l) (reads_from_backupReader l)
           (reads_from_resetPosition l) unicode_IsLetter) in H.
  - destruct H as (pre & Ho & _). exists pre. split; [exact Ho|].
    intros HL Ht Hpre. subst pre. specialize (Hprog HL Ht).
    cbn [Reader buffered] in *. simpl in Ho. rewrite <- Ho in Hprog. lia.
  - exists []. split; [reflexivity|exact I].
Qed.

Lemma remaining_input_is_suffix_witness :
  srcErr (Reader (mkLexer (mkReader (runes ",") None io_EOF)
                          (mkLexerPosition 1 4)))
  = srcErr (Reader (lexer_on (runes "  12,") io_EOF)) /\
  exists consumed,
    buffered (Reader (lexer_on (runes "  12,") io_EOF))
    = consumed ++ buffered (Reader (mkLexer (mkReader (runes ",") None io_EOF)
                                            (mkLexerPosition 1 4))) /\
    (letters_not_space IsLetter_Latin1 ->
     TokType (mkToken NUM (runes "12") (mkTokenPosition 1 3 4)) <> EOF ->
     consumed <> []).
Proof.
  apply (remaining_input_is_suffix IsLetter_Latin1
           (lexer_on (runes "  12,") io_EOF)
           (mkToken NUM (runes "12") (mkTokenPosition 1 3 4))
           (mkLexer (mkReader (runes ",") None io_EOF) (mkLexerPosition 1 4))).
  vm_compute. reflexivity.
Defined.

(* ------------------------------------------------------------------ *)
(** *** The order of the tokens *)

(** Where a collecting loop leaves the cursor. *)
Lemma scan_loop_cursor (stop : rune -> bool) :
  forall fuel acc lxr res lxr',
    pos_ok lxr = true ->
    scan_loop stop fuel acc lxr = Returns res lxr' ->
    PLine (Pos lxr') = PLine (Pos lxr) /\
    exists run post,
      buffered (Reader lxr) = run ++ post /\
      Column (Pos lxr') = Column (Pos lxr) + len run /\
      (res = inl (acc ++ run) \/ (post = [] /\ exists e, res = inr e)) /\
      (forall r rest, buffered (Reader lxr) = r :: rest -> stop r = false ->
                      run <> []).
Proof.
  induction fuel as [|fuel IH]; intros acc [[l last e] [line col]] res lxr' Hok H;
    [discriminate|].
  simpl scan_loop in H. unfold bind at 1 in H.
  cbn [Pos Reader PLine Column buffered].
  destruct l as [|r rest].
  - rewrite advanceReader_nil in H.
    assert (Hres : lxr' = mkLexer (mkReader [] None e) (mkLexerPosition line col)
                   /\ (res = inl acc \/ exists e0, res = inr e0)).
    { destruct (is_EOF e); unfold ret in H; injection H as <- <-; eauto. }
    destruct Hres as [-> Hres]. split; [reflexivity|].
    exists [], []. cbn. rewrite app_nil_r, Z.add_0_r.
    repeat split; auto. destruct Hres; [now left | right; auto].
    intros; discriminate.
  - rewrite advanceReader_cons in H.
    destruct (pos_ok_advance _ _ _ (Some r) _ _ _ Hok) as [E Hok1].
    destruct (stop r) eqn:Hs.
    + unfold bind in H. rewrite backupReader_after_read in H.
      destruct (pos_ok_backup r rest e line col Hok) as [Hc E'].
      rewrite Hc, E' in H. unfold ret in H. injection H as <- <-.
      split; [reflexivity|]. exists [], (r :: rest). cbn.
      rewrite app_nil_r, Z.add_0_r. repeat split; auto.
      intros r0 rest0 Hr. injection Hr as <- <-. congruence.
    + destruct (IH _ _ _ _ Hok1 H) as (Hline & run & post & Hbuf & Hcol & Hres & _).
      cbn [Pos Reader PLine Column buffered] in *.
      split; [exact Hline|]. exists (r :: run), post.
      split; [simpl; now rewrite Hbuf|].
      split; [rewrite Hcol, E, len_cons; lia|].
      split; [|intros; discriminate].
      destruct Hres as [-> | Hres]; [left; now rewrite <- app_assoc | now right].
Qed.

(** Where the loop of [readString] leaves the cursor. *)
Lemma readString_loop_cursor :
  forall fuel acc lxr res lxr',
    pos_ok lxr = true ->
    readString_loop fuel acc lxr = Returns res lxr' ->
    PLine (Pos lxr') = PLine (Pos lxr) /\
    ((exists run,
         res = inl (acc ++ run) /\
         Column (Pos lxr) + len run <= Column (Pos lxr') /\
         len run <= len (buffered (Reader lxr)) /\
         (run = [] -> acc = [] -> buffered (Reader lxr') = []))
     \/ ((exists e, res = inr e) /\ buffered (Reader lxr') = [])).
Proof.
  induction fuel as [|fuel IH]; intros acc [[l last e] [line col]] res lxr' Hok H;
    [discriminate|].
  simpl readString_loop in H. unfold bind at 1 in H.
  cbn [Pos Reader PLine Column buffered].
  destruct l as [|r rest].
  - rewrite advanceReader_nil in H.
    destruct (is_EOF e); unfold ret in H; injection H as <- <-.
    + split; [reflexivity|]. left. exists []. rewrite app_nil_r. cbn.
      repeat split; auto; lia.
    + split; [reflexivity|]. right. split; [eauto|reflexivity].
  - rewrite advanceReader_cons in H.
    destruct (pos_ok_advance _ _ _ (Some r) _ _ _ Hok) as [E Hok1].
    assert (Hstep :
      readString_loop fuel (acc ++ [r])
        (mkLexer (mkReader rest (Some r) e)
                 (mkLexerPosition line (int_add col 1)))
      = Returns res lxr' ->
      PLine (Pos lxr') = line /\
      ((exists run,
           res = inl (acc ++ run) /\
           col + len run <= Column (Pos lxr') /\
           len run <= len (r :: rest) /\
           (run = [] -> acc = [] -> buffered (Reader lxr') = []))
       \/ ((exists e0, res = inr e0) /\ buffered (Reader lxr') = []))).
    { intros H'. destruct (IH _ _ _ _ Hok1 H') as [Hline Hres].
      cbn [Pos Reader PLine Column buffered] in *.
      split; [exact Hline|].
      destruct Hres as [(run & -> & Hcol & Hlen & _) | Hres]; [left | now right].
      exists (r :: run). rewrite <- app_assoc. rewrite !len_cons.
      rewrite E in Hcol. repeat split; auto; try lia. intros; discriminate. }
    destruct (r =? dquote) eqn:Hd.
    + unfold bind at 1 in H. unfold bind at 1 in H.
      unfold index_rune in H.
      destruct ((0 <=? len acc - 1) && (len acc - 1 <? len acc)) eqn:Hin;
        [|discriminate].
      unfold ret at 1 in H.
      destruct (negb (nth (Z.to_nat (len acc - 1)) acc 0 =? ch "\")).
      * unfold ret in H. injection H as <- <-.
        split; [reflexivity|]. left. exists []. rewrite app_nil_r.
        cbn [Pos Column Reader buffered]. change (len (@nil rune)) with 0.
        rewrite E, len_cons. pose proof (len_nonneg rest).
        repeat split; auto; try lia.
        intros _ ->. discriminate.
      * exact (Hstep H).
    + unfold bind at 1 in H. unfold ret at 1 in H. exact (Hstep H).
Qed.

Lemma pos_slack_iff (lxr : Lexer) :
  pos_slack lxr = true <->
  0 <= Column (Pos lxr) /\
  Column (Pos lxr) + len (buffered (Reader lxr)) < int_max.
Proof.
  unfold pos_slack. rewrite andb_true_iff, Z.leb_le, Z.ltb_lt. tauto.
Qed.

Lemma pos_slack_advanceReader :
  preserves (fun lxr => pos_slack lxr = true) advanceReader.
Proof.
  intros [[l last e] [line col]] a lxr' H E. apply pos_slack_iff in H.
  cbn [Pos Reader Column buffered] in H.
  destruct l as [|r rest].
  - rewrite advanceReader_nil in E. injection E as _ El. rewrite <- El.
    apply pos_slack_iff. exact H.
  - rewrite advanceReader_cons in E. injection E as _ El. rewrite <- El.
    rewrite len_cons in H. pose proof (len_nonneg rest).
    apply pos_slack_iff. cbn [Pos Reader Column buffered].
    rewrite int_add_exact by (unfold int_max in *; lia). lia.
Qed.

Lemma pos_slack_backupReader :
  preserves (fun lxr => pos_slack lxr = true) backupReader.
Proof.
  intros [[l last e] [line col]] a lxr' H E. apply pos_slack_iff in H.
  cbn [Pos Reader Column buffered] in H.
  unfold backupReader in E. cbn [Pos Column Reader] in E.
  destruct (0 <? col) eqn:Hc.
  - unfold UnreadRune in E. cbn [lastRune buffered srcErr] in E.
    destruct last as [r|]; [|discriminate]. injection E as _ El.
    rewrite <- El. apply Z.ltb_lt in Hc. pose proof (len_nonneg l).
    apply pos_slack_iff. cbn [Pos Reader Column buffered].
    rewrite len_cons. unfold int_sub.
    rewrite wrap_small by (unfold int_max in *; lia). lia.
  - injection E as _ El. rewrite <- El. apply pos_slack_iff. exact H.
Qed.

Lemma pos_slack_resetPosition :
  preserves (fun lxr => pos_slack lxr = true) resetPosition.
Proof.
  intros [[l last e] [line col]] a lxr' H E. apply pos_slack_iff in H.
  cbn [Pos Reader Column buffered] in H.
  unfold resetPosition in E. injection E as _ El. rewrite <- El.
  apply pos_slack_iff. cbn [Pos Reader Column buffered]. lia.
Qed.

(** A token built from a run collected after backing up lies between the
    two cursors. *)
Lemma run_placed (stop : rune -> bool) (r : rune) (rest : list rune)
      (last : option rune) (e : error) (line col : Z) (fuel : nat)
      (res : list rune + error) (lxr' : Lexer) (tok : Token) :
  pos_ok (mkLexer (mkReader (r :: rest) None e) (mkLexerPosition line col)) = true ->
  scan_loop stop fuel []
    (mkLexer (mkReader (r :: rest) None e) (mkLexerPosition line col))
  = Returns res lxr' ->
  ((exists T num, T <> EOF /\ res = inl num /\
                  tok = createToken T (mkLexerPosition line (int_add col 1)) num)
   \/ (exists lex, (exists e', res = inr e') /\ len lex <= 1 /\
                   tok = createToken ILLEGAL
                                     (mkLexerPosition line (int_add col 1)) lex)) ->
  placed (mkLexer (mkReader (r :: rest) last e) (mkLexerPosition line col))
         tok lxr'.
Proof.
  intros Hok Hscan Htok.
  destruct (scan_loop_cursor stop fuel [] _ res lxr' Hok Hscan)
    as (Hline & run & post & Hbuf & Hcol & Hres & _).
  cbn [Pos Reader PLine Column buffered] in *.
  destruct (pos_ok_advance _ _ _ None _ _ _ Hok) as [E _].
  apply pos_ok_iff in Hok. cbn [Pos Reader PLine Column buffered] in Hok.
  rewrite Hbuf, len_app in Hok.
  pose proof (len_nonneg run). pose proof (len_nonneg post).
  unfold placed. cbn [Pos PLine Column].
  destruct Htok as [(T & num & HT & -> & ->) | (lex & (e' & ->) & Hlex & ->)].
  - destruct Hres as [Hres | (_ & e' & Hres)]; [|discriminate].
    injection Hres as ->. cbn [app].
    rewrite createToken_not_EOF by exact HT. cbn [TokPos Line ColStart ColEnd PLine Column].
    rewrite E. replace (col + 1 + len run - 1) with (col + len run) by lia.
    rewrite wrap_small by (unfold int_max in *; lia).
    split; [lia|]. split; [lia|]. left. split; [now rewrite Hline | lia].
  - destruct Hres as [Hres | (-> & _)]; [discriminate|].
    rewrite app_nil_r in Hbuf. subst run. rewrite len_cons in *.
    pose proof (len_nonneg rest). pose proof (len_nonneg lex).
    rewrite createToken_not_EOF by discriminate.
    cbn [TokPos Line ColStart ColEnd PLine Column].
    rewrite E. replace (col + 1 + len lex - 1) with (col + len lex) by lia.
    rewrite wrap_small by (unfold int_max in *; lia).
    split; [lia|]. split; [lia|]. left. split; [now rewrite Hline | lia].
Qed.

Lemma handleNumberToken_placed (r : rune) (rest : list rune)
      (last : option rune) (e : error) (line col : Z) (tok : Token)
      (lxr' : Lexer) :
  pos_ok (mkLexer (mkReader (r :: rest) None e) (mkLexerPosition line col)) = true ->
  handleNumberToken r (mkLexer (mkReader rest (Some r) e)
                               (mkLexerPosition line (int_add col 1)))
  = Returns tok lxr' ->
  placed (mkLexer (mkReader (r :: rest) last e) (mkLexerPosition line col))
         tok lxr'.
Proof.
  intros Hok H. unfold handleNumberToken in H. unfold bind at 1 in H.
  rewrite backupReader_after_read in H.
  destruct (pos_ok_backup r rest e line col Hok) as [Hc E].
  rewrite Hc, E in H. unfold bind at 1 in H. unfold readNumber in H.
  unfold bind at 1 in H. unfold getPos in H. cbn [Pos PLine Column] in H.
  unfold bind at 1 in H. unfold remaining in H. cbn [Reader buffered] in H.
  unfold bind at 1 in H. rewrite readNumber_loop_scan in H.
  destruct (scan_loop stop_number _ _ _) as [[num|e'] lxr1| |] eqn:Hscan;
    try discriminate.
  - assert (Hx : lxr1 = lxr' /\
                 exists T, T <> EOF /\
                   tok = createToken T (mkLexerPosition line (int_add col 1)) num).
    { destruct (isValidJSONNumber num); cbn [negb] in H; unfold ret in H.
      - injection H as <- <-. split; [reflexivity|]. exists NUM.
        split; [discriminate|reflexivity].
      - rewrite invalid_number_message in H. injection H as <- <-.
        split; [reflexivity|]. exists ILLEGAL.
        split; [discriminate|reflexivity]. }
    destruct Hx as (<- & T & HT & ->).
    apply (run_placed _ _ _ last _ _ _ _ _ _ _ Hok Hscan). left.
    exists T, num. repeat split. exact HT.
  - assert (Hx : lxr1 = lxr' /\
                 exists lex, len lex <= 1 /\
                   tok = createToken ILLEGAL
                                     (mkLexerPosition line (int_add col 1)) lex).
    { unfold ret in H.
      destruct (strings_Contains (Error e') "invalid JSON number");
        injection H as <- <-; (split; [reflexivity|]);
        [exists [] | exists [r]]; (split; [|reflexivity]);
        unfold len; simpl; lia. }
    destruct Hx as (<- & lex & Hlex & ->).
    apply (run_placed _ _ _ last _ _ _ _ _ _ _ Hok Hscan). right.
    exists lex. split; [eauto|]. split; [exact Hlex|reflexivity].
Qed.

Lemma handleIdentifierToken_placed (L : rune -> bool) (r : rune)
      (rest : list rune) (last : option rune) (e : error) (line col : Z)
      (tok : Token) (lxr' : Lexer) :
  pos_ok (mkLexer (mkReader (r :: rest) None e) (mkLexerPosition line col)) = true ->
  handleIdentifierToken L r (mkLexer (mkReader rest (Some r) e)
                                     (mkLexerPosition line (int_add col 1)))
  = Returns tok lxr' ->
  placed (mkLexer (mkReader (r :: rest) last e) (mkLexerPosition line col))
         tok lxr'.
Proof.
  intros Hok H. unfold handleIdentifierToken in H. unfold bind at 1 in H.
  rewrite backupReader_after_read in H.
  destruct (pos_ok_backup r rest e line col Hok) as [Hc E].
  rewrite Hc, E in H. unfold bind at 1 in H. unfold readIdentifier in H.
  unfold bind at 1 in H. unfold getPos in H. cbn [Pos PLine Column] in H.
  unfold bind at 1 in H. unfold remaining in H. cbn [Reader buffered] in H.
  unfold bind at 1 in H. rewrite readIdentifier_loop_scan in H.
  destruct (scan_loop (stop_letter L) _ _ _) as [[ident|e'] lxr1| |] eqn:Hscan;
    try discriminate.
  - unfold ret at 1 in H. cbv beta iota in H.
    rewrite identifier_token_ret in H. injection H as <- <-.
    apply (run_placed _ _ _ last _ _ _ _ _ _ _ Hok Hscan). left.
    destruct (identifier_token_cases
                (mkLexerPosition line (int_add col 1)) ident)
      as (T & HT & Hne & _).
    exists T, ident. repeat split; assumption.
  - unfold ret in H. injection H as <- <-.
    apply (run_placed _ _ _ last _ _ _ _ _ _ _ Hok Hscan). right.
    exists [r]. split; [eauto|]. split; [unfold len; simpl; lia|reflexivity].
Qed.

Lemma handleStringToken_placed (r : rune) (rest : list rune)
      (last : option rune) (e : error) (line col : Z) (tok : Token)
      (lxr' : Lexer) :
  pos_ok (mkLexer (mkReader (r :: rest) None e) (mkLexerPosition line col)) = true ->
  pos_slack (mkLexer (mkReader (r :: rest) None e)
                     (mkLexerPosition line col)) = true ->
  handleStringToken r (mkLexer (mkReader rest (Some r) e)
                               (mkLexerPosition line (int_add col 1)))
  = Returns tok lxr' ->
  placed (mkLexer (mkReader (r :: rest) last e) (mkLexerPosition line col))
         tok lxr'.
Proof.
  intros Hok Hslack H.
  destruct (pos_ok_advance _ _ _ (Some r) _ _ _ Hok) as [E Hok1].
  apply pos_slack_iff in Hslack. cbn [Pos Reader Column buffered] in Hslack.
  rewrite len_cons in Hslack. pose proof (len_nonneg rest).
  unfold handleStringToken, readString in H. unfold bind at 1 in H.
  unfold bind at 1 in H. unfold getPos in H. cbn [Pos PLine Column] in H.
  unfold bind at 1 in H. unfold remaining in H. cbn [Reader buffered] in H.
  unfold bind at 1 in H.
  destruct (readString_loop _ _ _) as [res lxr1| |] eqn:Hloop; try discriminate.
  destruct (readString_loop_cursor _ _ _ _ _ Hok1 Hloop) as [Hline Hres].
  cbn [Pos Reader PLine Column buffered] in Hline, Hres.
  rewrite E in *.
  assert (E2 : int_add (col + 1) 1 = col + 1 + 1)
    by (apply int_add_exact; unfold int_max in *; lia).
  rewrite E2 in H. unfold placed. cbn [Pos PLine Column].
  assert (Hlone : forall lxr0,
             buffered (Reader lxr0) = [] ->
             let t := createToken ILLEGAL (mkLexerPosition line (col + 1 + 1)) [r] in
             line <= Line (TokPos t) /\
             (line = Line (TokPos t) -> col < ColStart (TokPos t)) /\
             ((Line (TokPos t) = PLine (Pos lxr0) /\
               ColEnd (TokPos t) <= Column (Pos lxr0))
              \/ buffered (Reader lxr0) = [])).
  { intros lxr0 Hb t. subst t. rewrite createToken_not_EOF by discriminate.
    cbn [TokPos Line ColStart ColEnd PLine Column].
    split; [lia|]. split; [lia|]. now right. }
  destruct Hres as [(run & -> & Hcol & Hlen & Hempty) | ((e' & ->) & Hb)].
  - cbn [app] in H. unfold ret in H.
    destruct (len run =? 0) eqn:Hz; injection H as <- <-.
    + apply Hlone. apply Hempty; [|reflexivity].
      apply Z.eqb_eq in Hz. destruct run; [reflexivity|].
      rewrite len_cons in Hz. pose proof (len_nonneg run). lia.
    + apply Z.eqb_neq in Hz. pose proof (len_nonneg run).
      rewrite createToken_not_EOF by discriminate.
      cbn [TokPos Line ColStart ColEnd PLine Column].
      replace (col + 1 + 1 + len run - 1) with (col + 1 + len run) by lia.
      rewrite wrap_small by (unfold int_max in *; lia).
      split; [lia|]. split; [lia|]. left. split; [now rewrite Hline | lia].
  - unfold ret in H. injection H as <- <-. now apply Hlone.
Qed.

Lemma placed_after_blank (lxr0 lxr1 : Lexer) (tok : Token) (lxr' : Lexer) :
  placed lxr1 tok lxr' ->
  (PLine (Pos lxr1) = PLine (Pos lxr0) /\ Column (Pos lxr0) < Column (Pos lxr1))
  \/ PLine (Pos lxr0) < PLine (Pos lxr1) ->
  placed lxr0 tok lxr'.
Proof.
  intros (Hline & Hcol & Hend) Hstep. unfold placed.
  split; [lia|]. split; [|exact Hend].
  intros Heq. destruct Hstep as [[H1 H2]|H1]; [|lia].
  specialize (Hcol ltac:(lia)). lia.
Qed.

Lemma GetNextToken_loop_placed (L : rune -> bool) :
  forall fuel lxr tok lxr',
    pos_ok lxr = true -> pos_slack lxr = true ->
    GetNextToken_loop L fuel lxr = Returns tok lxr' ->
    TokType tok <> EOF ->
    placed lxr tok lxr'.
Proof.
  induction fuel as [|fuel IH];
    intros [[l last e] [line col]] tok lxr' Hok Hslack H Ht; [discriminate|].
  simpl GetNextToken_loop in H. unfold bind at 1 in H.
  destruct l as [|r rest].
  - rewrite advanceReader_nil in H. destruct (is_EOF e); [|discriminate].
    unfold bind, getPos, ret in H. injection H as <- _.
    rewrite createToken_type in Ht. congruence.
  - rewrite advanceReader_cons in H.
    destruct (pos_ok_advance _ _ _ (Some r) _ _ _ Hok) as [E Hok1].
    assert (Hslack1 : pos_slack (mkLexer (mkReader rest (Some r) e)
                                  (mkLexerPosition line (int_add col 1))) = true).
    { apply (pos_slack_advanceReader _ _ _ Hslack (advanceReader_cons _ _ _ _ _ _)). }
    assert (Hsingle : forall T,
               T <> EOF ->
               placed (mkLexer (mkReader (r :: rest) last e)
                               (mkLexerPosition line col))
                      (createToken T (mkLexerPosition line (int_add col 1)) [r])
                      (mkLexer (mkReader rest (Some r) e)
                               (mkLexerPosition line (int_add col 1)))).
    { intros T HT. rewrite createToken_not_EOF by exact HT. unfold placed.
      cbn [Pos PLine Column TokPos Line ColStart ColEnd]. rewrite E.
      change (len [r]) with 1. replace (col + 1 + 1 - 1) with (col + 1) by lia.
      apply pos_ok_iff in Hok1. cbn [Pos Reader PLine Column buffered] in Hok1.
      rewrite E in Hok1. pose proof (len_nonneg rest).
      rewrite wrap_small by (unfold int_max in *; lia).
      split; [lia|]. split; [lia|]. left. split; lia. }
    assert (Hone : forall T,
               (pos <- getPos ;; ret (createToken T pos [r]))
                 (mkLexer (mkReader rest (Some r) e)
                          (mkLexerPosition line (int_add col 1)))
               = Returns tok lxr' ->
               placed (mkLexer (mkReader (r :: rest) last e)
                               (mkLexerPosition line col)) tok lxr').
    { intros T HT. unfold bind, getPos, ret in HT. injection HT as <- <-.
      apply Hsingle. now rewrite createToken_type in Ht. }
    destruct ((r =? ch " ") || (r =? tab)) eqn:Hsp.
    { apply (placed_after_blank _ _ _ _ (IH _ _ _ Hok1 Hslack1 H Ht)).
      left. cbn [Pos PLine Column]. rewrite E. lia. }
    destruct (r =? ch "0"); [exact (Hone _ H)|].
    destruct (r =? newline) eqn:Hnl.
    { unfold bind at 1 in H. unfold resetPosition in H.
      cbn [Reader Pos PLine] in H.
      apply pos_ok_iff in Hok. cbn [Pos Reader PLine Column buffered] in Hok.
      rewrite len_cons in Hok. pose proof (len_nonneg rest).
      apply pos_slack_iff in Hslack.
      cbn [Pos Reader Column buffered] in Hslack. rewrite len_cons in Hslack.
      assert (El : int_add line 1 = line + 1)
        by (apply int_add_exact; unfold int_max in *; lia).
      rewrite El in H.
      assert (Hok2 : pos_ok (mkLexer (mkReader rest (Some r) e)
                                     (mkLexerPosition (line + 1) 0)) = true).
      { apply pos_ok_iff. cbn [Pos Reader PLine Column buffered].
        unfold int_max in *. lia. }
      assert (Hslack2 : pos_slack (mkLexer (mkReader rest (Some r) e)
                                           (mkLexerPosition (line + 1) 0)) = true).
      { apply pos_slack_iff. cbn [Pos Reader Column buffered]. lia. }
      apply (placed_after_blank _ _ _ _ (IH _ _ _ Hok2 Hslack2 H Ht)).
      right. cbn [Pos PLine]. lia. }
    destruct (r =? ch "{"); [exact (Hone _ H)|].
    destruct (r =? ch "}"); [exact (Hone _ H)|].
    destruct (r =? ch "["); [exact (Hone _ H)|].
    destruct (r =? ch "]"); [exact (Hone _ H)|].
    destruct (r =? ch ","); [exact (Hone _ H)|].
    destruct (r =? ch ":"); [exact (Hone _ H)|].
    destruct (r =? dquote);
      [exact (handleStringToken_placed _ _ last _ _ _ _ _ Hok Hslack H)|].
    destruct (isNumberMaybe r);
      [exact (handleNumberToken_placed _ _ last _ _ _ _ _ Hok H)|].
    destruct (L r);
      [exact (handleIdentifierToken_placed _ _ _ last _ _ _ _ _ Hok H)|].
    exact (Hone _ H).
Qed.

(** X15 -- The tokens come in the order of the text.  Of two tokens other
    than EOF that two calls of [GetNextToken] in a row return, the second
    lies on a later line than the first, or on the same line and starts
    after the last column of the first. *)
Theorem tokens_in_scan_order (unicode_IsLetter : rune -> bool)
        (lxr : Lexer) (t1 : Token) (lxr1 : Lexer) (t2 : Token) (lxr2 : Lexer) :
  pos_ok lxr = true ->
  pos_slack lxr = true ->
  GetNextToken unicode_IsLetter lxr = Returns t1 lxr1 ->
  GetNextToken unicode_IsLetter lxr1 = Returns t2 lxr2 ->
  TokType t1 <> EOF ->
  TokType t2 <> EOF ->
  Line (TokPos t1) < Line (TokPos t2)
  \/ (Line (TokPos t1) = Line (TokPos t2)
      /\ ColEnd (TokPos t1) < ColStart (TokPos t2)).
Proof.
  intros Hok Hslack H1 H2 Ht1 Ht2.
  assert (Hok1 : pos_ok lxr1 = true).
  { pose proof (GetNextToken_spec unicode_IsLetter lxr) as Hs.
    rewrite H1 in Hs. simpl in Hs. destruct Hs as (_ & _ & _ & Hs).
    apply (Hs Hok). }
  assert (Hslack1 : pos_slack lxr1 = true).
  { exact (preserves_GetNextToken (fun l => pos_slack l = true)
             pos_slack_advanceReader pos_slack_backupReader
             pos_slack_resetPosition unicode_IsLetter _ _ _ Hslack H1). }
  assert (P1 : placed lxr t1 lxr1).
  { unfold GetNextToken, bind, remaining in H1.
    exact (GetNextToken_loop_placed _ _ _ _ _ Hok Hslack H1 Ht1). }
  assert (P2 : placed lxr1 t2 lxr2).
  { unfold GetNextToken, bind, remaining in H2.
    exact (GetNextToken_loop_placed _ _ _ _ _ Hok1 Hslack1 H2 Ht2). }
  destruct P1 as (_ & _ & [[Hl Hc] | Hempty]).
  - destruct P2 as (Hl2 & Hc2 & _). rewrite <- Hl in *.
    destruct (Z.eq_dec (Line (TokPos t1)) (Line (TokPos t2))) as [Heq|Hne].
    + right. split; [exact Heq|]. specialize (Hc2 Heq). lia.
    + left. lia.
  - exfalso. destruct lxr1 as [[l last e] p]. cbn in Hempty. subst l.
    unfold GetNextToken, bind, remaining in H2. cbn [Reader buffered] in H2.
    simpl GetNextToken_loop in H2. unfold bind at 1 in H2.
    rewrite advanceReader_nil in H2. destruct (is_EOF e); [|discriminate].
    unfold bind, getPos, ret in H2. injection H2 as <- _.
    rewrite createToken_type in Ht2. congruence.
Qed.

Lemma tokens_in_scan_order_witness :
  Line (mkTokenPosition 1 2 5) < Line (mkTokenPosition 2 1 1)
  \/ (Line (mkTokenPosition 1 2 5) = Line (mkTokenPosition 2 1 1)
      /\ ColEnd (mkTokenPosition 1 2 5) < ColStart (mkTokenPosition 2 1 1)).
Proof.
  apply (tokens_in_scan_order IsLetter_Latin1
           (mkLexer (mkReader (runes "true" ++ newline :: runes "]") None io_EOF)
                    (mkLexerPosition 1 1))
           (mkToken TRUE (runes "true") (mkTokenPosition 1 2 5))
           (mkLexer (mkReader (newline :: runes "]") None io_EOF)
                    (mkLexerPosition 1 5))
           (mkToken RBRACKET (runes "]") (mkTokenPosition 2 1 1))
           (mkLexer (mkReader [] (Some (ch "]")) io_EOF) (mkLexerPosition 2 1)));
    try reflexivity; try discriminate; vm_compute; reflexivity.
Defined.
